(** * OPTICS: a shallow embedding of the ordering engine and its utilities

    The development follows the C++ sources of the OPTICS module
    (common.hpp, DataPoint.hpp, optics.hpp) and, of the test harness
    (OPTICS_test.hpp), the peak finders, the scan of the test set and the
    computation of the test run.

    Modelling conventions.
    - A [real] (a typedef for [float]) that is a number is modelled by an
      integer that stands for it: the order of the integers is the order of
      the reals, 0 stands for 0, UNDEFINED for the largest finite real, an
      integer above UNDEFINED for infinity.  The code compares reals, takes
      the larger of two and stores them; all of this is exact and depends on
      the order of the reals only.  Where the code computes with reals (the
      accumulation in [squared_distance], the square of [eps], the
      conversions in the harness) the result is rounded and can overflow to
      infinity.  This arithmetic is not part of the repository; it is a
      parameter of the model, the class [FloatArithmetic], known by the laws
      of IEEE 754 arithmetic that the proofs use, and the theorems hold for
      every arithmetic with these laws.  The examples are evaluated with the
      exact arithmetic of the integers, a real with an integer value
      standing for itself; this is the arithmetic of [float] as long as no
      result has more than 24 significant bits.  NaN is outside the model:
      the coordinates of the points are finite numbers and the parameters
      are numbers, from which the code computes no NaN.
    - A [DataPoint*] is an address; the objects live in a heap that maps
      every address to an object, so that two vectors holding the same
      pointer alias the same mutable state.  Addresses are positive numbers,
      [nullptr] is not an address.
    - [assert] aborts the run: a computation returns [AssertionFailed]
      together with the state reached at that moment.
    - An [unsigned int] is a natural number.  Where the source casts a
      vector size to [unsigned int], the model reduces it modulo 2^32; loop
      counters stay below such sizes and do not wrap.
    - Every mutator call of a run is recorded in a ghost [trace], newest
      event first; the trace has no influence on the computation. *)

From Stdlib Require Import String ZArith PArith Bool Lia Permutation Sorted List.
Import ListNotations.
Local Open Scope Z_scope.

Module OPTICS.

(** ** common.hpp *)

(** [typedef float real]. *)
Definition real := Z.
Bind Scope Z_scope with real.

(** [const real UNDEFINED = std::numeric_limits<real>::max()]: the largest
    finite [float], (2^24 - 1) * 2^104. *)
Definition UNDEFINED : real := 340282346638528859811704183484516925440.

(** *** The arithmetic of [float]

    The computations on reals in the sources, each as the platform computes
    and rounds it: the statement [ret += std::pow(a_data[i]-b_data[i], 2)]
    of [squared_distance], the product [eps*eps] of [get_neighbors], and the
    two conversions of the harness.  IEEE 754 arithmetic guarantees of them,
    on finite coordinates: adding a square does not make the sum smaller;
    the difference of a number with itself is zero, which leaves the sum as
    it is; the square of a difference does not depend on the order of the
    operands; a square is not negative; rounding keeps the order of the
    squares of non-negative reals; and the square of the largest finite
    real (which overflows) is not below it. *)
Class FloatArithmetic := {
  (* ret + std::pow(x - y, 2), assigned to a real *)
  add_squared_difference : real -> real -> real -> real;
  (* x * y *)
  multiply : real -> real -> real;
  (* (float)i *)
  float_of_int : Z -> real;
  (* static_cast<unsigned int>(x) *)
  unsigned_of_float : real -> nat;
  add_squared_difference_lower :
    forall ret x y, ret <= add_squared_difference ret x y;
  add_squared_difference_same :
    forall ret x, add_squared_difference ret x x = ret;
  add_squared_difference_sym :
    forall ret x y, add_squared_difference ret x y = add_squared_difference ret y x;
  multiply_nonneg : forall x, 0 <= multiply x x;
  multiply_monotone : forall x y, 0 <= x <= y -> multiply x x <= multiply y y;
  multiply_UNDEFINED : UNDEFINED <= multiply UNDEFINED UNDEFINED
}.

(** A [DataPoint*]. *)
Definition addr := positive.
Bind Scope positive_scope with addr.

(** [typedef std::vector<DataPoint*> DataVector]. *)
Definition DataVector := list addr.

(** [typedef std::set<DataPoint*, Comp_DataPoint_Ptr_f> DataSet]: the elements
    in the order of the comparison functor, smallest first. *)
Definition DataSet := list addr.

(** [static_cast<unsigned int>(n)] of a vector size [n]. *)
Definition unsigned_int (n : nat) : nat := Z.to_nat (Z.of_nat n mod 2 ^ 32).

(** ** DataPoint.hpp *)

Record DataPoint := mkDataPoint {
  _data : list real;
  _reachability_distance : real;
  _is_processed : bool
}.

(** The default constructor. *)
Definition DataPoint_new : DataPoint := mkDataPoint [] UNDEFINED false.

Definition Heap := addr -> DataPoint.

(** Ghost events, one per mutator call of optics.hpp. *)
Inductive Event :=
| EvReach (p : addr) (was_processed : bool) (old new : real)
    (* p->reachability_distance(new), with the state of p before *)
| EvProcessed (p : addr)
    (* p->processed(true) *)
| EvEmitFirst (p : addr) (r : real)
    (* o_ordered_vector.push_back(p) for the start point of an expansion,
       with the reachability p holds at that moment *)
| EvEmitSeed (q : addr) (r : real)
    (* o_ordered_vector.push_back(q) for a point taken from the seeds *)
| EvCallback (p : addr).
    (* point_processed_callback(p) *)

Record State := mkState { heap : Heap; trace : list Event }.

(** A run starts with an empty trace. *)
Definition start (h : Heap) : State := mkState h [].

(** The events in the order in which they happened. *)
Definition history (st : State) : list Event := rev (trace st).

(** ** Computations that read and write the heap and may abort *)

Inductive result (A : Type) :=
| Ok (a : A)
| AssertionFailed (msg : string)
| OutOfRange
| OutOfFuel.
Arguments Ok {A} a.
Arguments AssertionFailed {A} msg.
Arguments OutOfRange {A}.
Arguments OutOfFuel {A}.

Definition M (A : Type) := State -> result A * State.

Definition mret {A} (a : A) : M A := fun st => (Ok a, st).

Definition bind {A B} (m : M A) (f : A -> M B) : M B :=
  fun st =>
    match m st with
    | (Ok a, st') => f a st'
    | (AssertionFailed msg, st') => (AssertionFailed msg, st')
    | (OutOfRange, st') => (OutOfRange, st')
    | (OutOfFuel, st') => (OutOfFuel, st')
    end.

Notation "x <- m ;; k" := (bind m (fun x => k))
  (at level 61, m at next level, right associativity).
Notation "m ;;; k" := (bind m (fun _ => k))
  (at level 61, right associativity).

Definition fail {A} (r : forall B, result B) : M A := fun st => (r A, st).

Definition assert (b : bool) (msg : string) : M unit :=
  fun st => if b then (Ok tt, st) else (AssertionFailed msg, st).

Definition gets {A} (f : Heap -> A) : M A := fun st => (Ok (f (heap st)), st).

Definition log (e : Event) : M unit :=
  fun st => (Ok tt, mkState (heap st) (e :: trace st)).

(** The heap after the object at [p] has been changed by [f]. *)
Definition upd (h : Heap) (p : addr) (f : DataPoint -> DataPoint) : Heap :=
  fun a => if Pos.eqb a p then f (h a) else h a.

Definition update (p : addr) (f : DataPoint -> DataPoint) : M unit :=
  fun st => (Ok tt, mkState (upd (heap st) p f) (trace st)).

(** [v[i]] on a vector; an index past the end is undefined behaviour in the
    source and ends the run with [OutOfRange] here. *)
Definition at_index {A} (v : list A) (i : nat) : M A :=
  match nth_error v i with
  | Some x => mret x
  | None => fail (@OutOfRange)
  end.

(** *** The member functions of DataPoint *)

Definition with_reachability (d : real) (o : DataPoint) : DataPoint :=
  mkDataPoint (_data o) d (_is_processed o).

Definition with_processed (b : bool) (o : DataPoint) : DataPoint :=
  mkDataPoint (_data o) (_reachability_distance o) b.

Definition reachability_distance (p : addr) : M real :=
  gets (fun h => _reachability_distance (h p)).

Definition set_reachability_distance (p : addr) (d : real) : M unit :=
  assert (0 <=? d) "Reachability distance must not be negative." ;;;
  old <- reachability_distance p ;;
  was <- gets (fun h => _is_processed (h p)) ;;
  update p (with_reachability d) ;;;
  log (EvReach p was old d).

Definition processed (p : addr) (b : bool) : M unit :=
  update p (with_processed b) ;;;
  log (EvProcessed p).

Definition is_processed (p : addr) : M bool :=
  gets (fun h => _is_processed (h p)).

Definition data (p : addr) : M (list real) :=
  gets (fun h => _data (h p)).

(** ** optics.hpp: helpers *)

(** The loop of [squared_distance]: [ret += std::pow(a_data[i]-b_data[i], 2)]
    for [i] below [vec_size].  The loop is entered after the assertion, when
    [vec_size] is the size of [b_data] and at most that of [a_data]: it
    walks through [b_data] and the entries of [a_data] at the same indices. *)
Fixpoint squared_distance_loop `{FloatArithmetic} (a_data b_data : list real)
  (ret : real) : real :=
  match a_data, b_data with
  | x :: a', y :: b' => squared_distance_loop a' b' (add_squared_difference ret x y)
  | _, _ => ret
  end.

Definition squared_distance `{FloatArithmetic} (a b : addr) : M real :=
  a_data <- data a ;;
  b_data <- data b ;;
  let vec_size := unsigned_int (length a_data) in
  assert (Nat.eqb vec_size (length b_data))
    "Data-vectors of both DataPoints must have same dimensionality" ;;;
  mret (squared_distance_loop a_data b_data 0).

(** The value [squared_distance] returns when its assertion holds. *)
Definition sqdist `{FloatArithmetic} (h : Heap) (a b : addr) : real :=
  squared_distance_loop (_data (h a)) (_data (h b)) 0.

Definition dim (h : Heap) (a : addr) : nat := length (_data (h a)).

(** *** The standard algorithm [std::nth_element]

    The algorithm is not part of the repository.  It is taken with its
    postcondition: for a strict weak ordering [comp] and a position [nth]
    inside the vector, the rearranged vector is a permutation of the given
    one, no element before position [nth] is greater than the element at
    [nth], and no element after it is smaller. *)

Definition strict_weak_order (comp : addr -> addr -> bool) : Prop :=
  (forall a, comp a a = false) /\
  (forall a b c, comp a b = true -> comp b c = true -> comp a c = true) /\
  (forall a b c, comp a b = false -> comp b a = false ->
                 comp b c = false -> comp c b = false ->
                 comp a c = false /\ comp c a = false).

Class StdAlgorithm := {
  nth_element : (addr -> addr -> bool) -> nat -> DataVector -> DataVector;
  nth_element_spec :
    forall comp nth v,
      strict_weak_order comp -> (nth < length v)%nat ->
      exists before pivot after,
        nth_element comp nth v = before ++ pivot :: after /\
        length before = nth /\
        Permutation v (before ++ pivot :: after) /\
        Forall (fun x => comp pivot x = false) before /\
        Forall (fun x => comp x pivot = false) after
}.

(** A reference implementation: sorting by insertion. *)
Fixpoint insert_by (comp : addr -> addr -> bool) (x : addr) (l : list addr) : list addr :=
  match l with
  | [] => [x]
  | y :: l' => if comp x y then x :: l else y :: insert_by comp x l'
  end.

Definition sort_by (comp : addr -> addr -> bool) (l : list addr) : list addr :=
  fold_right (insert_by comp) [] l.

(** [get_neighbors]: the scan of [db], [ret] being the vector built so far. *)
Fixpoint get_neighbors_loop `{FloatArithmetic} (p : addr) (eps_sq : real)
  (db ret : DataVector) : M DataVector :=
  match db with
  | [] => mret ret
  | q :: db' =>
      d <- squared_distance p q ;;
      get_neighbors_loop p eps_sq db' (if d <=? eps_sq then ret ++ [q] else ret)
  end.

Definition get_neighbors `{FloatArithmetic} (p : addr) (eps : real)
  (db : DataVector) : M DataVector :=
  assert (0 <=? eps) "eps must not be negative" ;;;
  get_neighbors_loop p (multiply eps eps) db [].

(** The comparison closure handed to [nth_element] evaluates
    [squared_distance(p, a)] and [squared_distance(p, b)], each with its
    assertion.  On a vector of two or more elements every element takes part
    in a comparison, so the assertion is checked for every element; the
    comparison itself is then the pure one on the values. *)
Fixpoint comparator_assertions `{FloatArithmetic} (p : addr) (v : DataVector)
  : M unit :=
  match v with
  | [] => mret tt
  | a :: v' => squared_distance p a ;;; comparator_assertions p v'
  end.

(** [squared_core_distance].  [N_eps] is passed by reference and rearranged
    by [nth_element]; the rearranged vector is returned with the distance. *)
Definition squared_core_distance `{FloatArithmetic} `{StdAlgorithm}
  (p : addr) (min_pts : nat) (N_eps : DataVector) : M (real * DataVector) :=
  assert (0 <? min_pts)%nat "min_pts must be greater than 0" ;;;
  if (min_pts <? length N_eps)%nat then
    comparator_assertions p N_eps ;;;
    h <- gets (fun h => h) ;;
    let N_eps' :=
      nth_element (fun a b => sqdist h p a <? sqdist h p b) min_pts N_eps in
    x <- at_index N_eps' min_pts ;;
    ret <- squared_distance p x ;;
    mret (ret, N_eps')
  else mret (UNDEFINED, N_eps).

(** [Comp_DataPoint_Ptr_f::operator()].  Its [nullptr] assertions hold of
    every address. *)
Definition Comp_DataPoint_Ptr_f (lhs rhs : addr) : M bool :=
  l_data <- data lhs ;;
  r_data <- data rhs ;;
  assert (Nat.eqb (length l_data) (length r_data))
    "Comparing DataPoints requires them to have same dimensionality" ;;;
  l <- reachability_distance lhs ;;
  r <- reachability_distance rhs ;;
  if l <? r then mret true
  else if (l =? r) && Pos.ltb lhs rhs then mret true
  else mret false.

(** *** [std::set<DataPoint*, Comp_DataPoint_Ptr_f>]

    The set is the list of its elements in the order of the functor.  The
    functor reads the reachability distances from the heap at the moment of
    the call, as the source does. *)

(** [s.insert(x)]: [x] goes in front of the first element it is less than;
    an element equivalent to [x] is kept and [x] is not inserted. *)
Fixpoint set_insert (x : addr) (s : DataSet) : M DataSet :=
  match s with
  | [] => mret [x]
  | y :: s' =>
      lt <- Comp_DataPoint_Ptr_f x y ;;
      if lt then mret (x :: s)
      else
        gt <- Comp_DataPoint_Ptr_f y x ;;
        if gt then (r <- set_insert x s' ;; mret (y :: r))
        else mret s
  end.

(** [s.erase(x)]: the element equivalent to [x], if any, is removed. *)
Fixpoint set_erase (x : addr) (s : DataSet) : M DataSet :=
  match s with
  | [] => mret []
  | y :: s' =>
      lt <- Comp_DataPoint_Ptr_f x y ;;
      if lt then mret s
      else
        gt <- Comp_DataPoint_Ptr_f y x ;;
        if gt then (r <- set_erase x s' ;; mret (y :: r))
        else mret s'
  end.

(** [update_seeds]: the loop over [N_eps]. *)
Fixpoint update_seeds_loop `{FloatArithmetic} (N_eps : DataVector)
  (center_object : addr) (c_dist : real) (o_seeds : DataSet) : M DataSet :=
  match N_eps with
  | [] => mret o_seeds
  | o :: rest =>
      done <- is_processed o ;;
      if done then update_seeds_loop rest center_object c_dist o_seeds
      else
        d <- squared_distance center_object o ;;
        let new_r_dist := Z.max c_dist d in
        r <- reachability_distance o ;;
        if r =? UNDEFINED then
          set_reachability_distance o new_r_dist ;;;
          s1 <- set_insert o o_seeds ;;
          update_seeds_loop rest center_object c_dist s1
        else if new_r_dist <? r then
          s1 <- set_erase o o_seeds ;;
          set_reachability_distance o new_r_dist ;;;
          s2 <- set_insert o s1 ;;
          update_seeds_loop rest center_object c_dist s2
        else update_seeds_loop rest center_object c_dist o_seeds
  end.

Definition update_seeds `{FloatArithmetic} (N_eps : DataVector)
  (center_object : addr) (c_dist : real) (o_seeds : DataSet) : M DataSet :=
  assert (negb (c_dist =? UNDEFINED))
    "the core distance must be set <> UNDEFINED when entering update_seeds" ;;;
  update_seeds_loop N_eps center_object c_dist o_seeds.

(** ** optics.hpp: the ordering *)

(** [o_ordered_vector.push_back(p)] at the start of an expansion. *)
Definition push_back_first (v : DataVector) (p : addr) : M DataVector :=
  r <- reachability_distance p ;;
  log (EvEmitFirst p r) ;;;
  mret (v ++ [p]).

(** [o_ordered_vector.push_back(q)] in the loop over the seeds. *)
Definition push_back_seed (v : DataVector) (q : addr) : M DataVector :=
  r <- reachability_distance q ;;
  log (EvEmitSeed q r) ;;;
  mret (v ++ [q]).

Section Ordering.
Context `{FloatArithmetic} `{StdAlgorithm}.

(** *** Non-callback version *)

(** The [while( !seeds.empty())] loop of [expand_cluster_order]; [fuel]
    bounds the number of iterations. *)
Fixpoint expand_loop (fuel : nat) (db : DataVector) (eps : real) (min_pts : nat)
  (seeds : DataSet) (o_ordered_vector : DataVector) : M DataVector :=
  match seeds with
  | [] => mret o_ordered_vector
  | q :: seeds' =>
      match fuel with
      | O => fail (@OutOfFuel)
      | S fuel' =>
          N_q <- get_neighbors q eps db ;;
          cd <- squared_core_distance q min_pts N_q ;;
          let '(core_dist_q, N_q') := cd in
          processed q true ;;;
          v <- push_back_seed o_ordered_vector q ;;
          seeds'' <- (if negb (core_dist_q =? UNDEFINED)
                      then update_seeds N_q' q core_dist_q seeds'
                      else mret seeds') ;;
          expand_loop fuel' db eps min_pts seeds'' v
      end
  end.

Definition expand_cluster_order (fuel : nat) (db : DataVector) (p : addr)
  (eps : real) (min_pts : nat) (o_ordered_vector : DataVector) : M DataVector :=
  assert (0 <=? eps) "eps must not be negative" ;;;
  assert (0 <? min_pts)%nat "min_pts must be greater than 0" ;;;
  N_eps <- get_neighbors p eps db ;;
  set_reachability_distance p UNDEFINED ;;;
  cd <- squared_core_distance p min_pts N_eps ;;
  let '(core_dist_p, N_eps') := cd in
  processed p true ;;;
  v <- push_back_first o_ordered_vector p ;;
  if core_dist_p =? UNDEFINED then mret v
  else
    seeds <- update_seeds N_eps' p core_dist_p [] ;;
    expand_loop fuel db eps min_pts seeds v.

(** The [for] loop of [optics] over [db]; [it] is the part of [db] still to
    be visited. *)
Fixpoint optics_loop (fuel : nat) (db it : DataVector) (eps : real) (min_pts : nat)
  (ret : DataVector) : M DataVector :=
  match it with
  | [] => mret ret
  | p :: it' =>
      done <- is_processed p ;;
      if done then optics_loop fuel db it' eps min_pts ret
      else
        ret' <- expand_cluster_order fuel db p eps min_pts ret ;;
        optics_loop fuel db it' eps min_pts ret'
  end.

Definition optics (fuel : nat) (db : DataVector) (eps : real) (min_pts : nat)
  : M DataVector :=
  assert (0 <=? eps) "eps must not be negative" ;;;
  assert (0 <? min_pts)%nat "min_pts must be greater than 0" ;;;
  optics_loop fuel db db eps min_pts [].

(** *** Callback version *)

Section Callback.
Variable point_processed_callback : addr -> M unit.

Fixpoint expand_loop_cb (fuel : nat) (db : DataVector) (p : addr) (eps : real)
  (min_pts : nat) (seeds : DataSet) (o_ordered_vector : DataVector)
  : M DataVector :=
  match seeds with
  | [] => mret o_ordered_vector
  | q :: seeds' =>
      match fuel with
      | O => fail (@OutOfFuel)
      | S fuel' =>
          N_q <- get_neighbors q eps db ;;
          cd <- squared_core_distance q min_pts N_q ;;
          let '(core_dist_q, N_q') := cd in
          processed q true ;;;
          v <- push_back_seed o_ordered_vector q ;;
          point_processed_callback p ;;;
          seeds'' <- (if negb (core_dist_q =? UNDEFINED)
                      then update_seeds N_q' q core_dist_q seeds'
                      else mret seeds') ;;
          expand_loop_cb fuel' db p eps min_pts seeds'' v
      end
  end.

Definition expand_cluster_order_cb (fuel : nat) (db : DataVector) (p : addr)
  (eps : real) (min_pts : nat) (o_ordered_vector : DataVector) : M DataVector :=
  assert (0 <=? eps) "eps must not be negative" ;;;
  assert (0 <? min_pts)%nat "min_pts must be greater than 0" ;;;
  N_eps <- get_neighbors p eps db ;;
  set_reachability_distance p UNDEFINED ;;;
  cd <- squared_core_distance p min_pts N_eps ;;
  let '(core_dist_p, N_eps') := cd in
  processed p true ;;;
  v <- push_back_first o_ordered_vector p ;;
  point_processed_callback p ;;;
  if core_dist_p =? UNDEFINED then mret v
  else
    seeds <- update_seeds N_eps' p core_dist_p [] ;;
    expand_loop_cb fuel db p eps min_pts seeds v.

Fixpoint optics_loop_cb (fuel : nat) (db it : DataVector) (eps : real)
  (min_pts : nat) (ret : DataVector) : M DataVector :=
  match it with
  | [] => mret ret
  | p :: it' =>
      done <- is_processed p ;;
      if done then optics_loop_cb fuel db it' eps min_pts ret
      else
        ret' <- expand_cluster_order_cb fuel db p eps min_pts ret ;;
        optics_loop_cb fuel db it' eps min_pts ret'
  end.

Definition optics_cb (fuel : nat) (db : DataVector) (eps : real) (min_pts : nat)
  : M DataVector :=
  assert (0 <=? eps) "eps must not be negative" ;;;
  assert (0 <? min_pts)%nat "min_pts must be greater than 0" ;;;
  optics_loop_cb fuel db db eps min_pts [].

End Callback.
End Ordering.

(** A callback that only records that it was called, and with which point. *)
Definition recording_callback (p : addr) : M unit := log (EvCallback p).

(** ** optics.hpp: utility functions *)

(** [ret[0].push_back(p)]. *)
Definition push_back_outlier (ret : list DataVector) (p : addr) : list DataVector :=
  match ret with
  | [] => []
  | outliers :: clusters => (outliers ++ [p]) :: clusters
  end.

(** The loop [for( j=lower_idx; j<upper_idx; ++j)] of [extract_clusters], with
    [count] iterations left. *)
Fixpoint extract_segment (result : DataVector) (outlier_threshold : real)
  (j count : nat) (ret : list DataVector) (cluster_i : DataVector)
  : M (list DataVector * DataVector) :=
  match count with
  | O => mret (ret, cluster_i)
  | S count' =>
      p <- at_index result j ;;
      r <- reachability_distance p ;;
      if outlier_threshold <? r
      then extract_segment result outlier_threshold (S j) count'
             (push_back_outlier ret p) cluster_i
      else extract_segment result outlier_threshold (S j) count'
             ret (cluster_i ++ [p])
  end.

(** The loop [for( i=0; i<=cluster_borders.size(); ++i)], with [count]
    iterations left. *)
Fixpoint extract_clusters_loop (result : DataVector) (cluster_borders : list nat)
  (outlier_threshold : real) (i count : nat) (ret : list DataVector)
  : M (list DataVector) :=
  match count with
  | O => mret ret
  | S count' =>
      lower_idx <- (if Nat.eqb i 0 then mret 0%nat
                    else at_index cluster_borders (i - 1)) ;;
      upper_idx <- (if Nat.eqb i (length cluster_borders)
                    then mret (unsigned_int (length result))
                    else at_index cluster_borders i) ;;
      seg <- extract_segment result outlier_threshold lower_idx
               (upper_idx - lower_idx) ret [] ;;
      let '(ret', cluster_i) := seg in
      extract_clusters_loop result cluster_borders outlier_threshold (S i) count'
        (ret' ++ [cluster_i])
  end.

Definition extract_clusters (result : DataVector) (cluster_borders : list nat)
  (outlier_threshold : real) : M (list DataVector) :=
  let ret := [[]] in
  let outlier_threshold :=
    if outlier_threshold <=? 0 then UNDEFINED else outlier_threshold in
  extract_clusters_loop result cluster_borders outlier_threshold
    0 (S (length cluster_borders)) ret.

(** The result of a computation started on heap [h], and the state it ends in. *)
Definition run {A} (m : M A) (h : Heap) : result A * State := m (start h).


End OPTICS.

Import OPTICS.

(** ** OPTICS_test.hpp: the peak finders and the test run *)

Module Harness.

(** [p1d::TPairedExtrema] of the Persistence1D library. *)
Record TPairedExtrema := mkPairedExtrema {
  MinIndex : Z;
  MaxIndex : Z;
  Persistence : real
}.

(** The conversion of an [int] to [unsigned int]. *)
Definition to_unsigned (x : Z) : Z := x mod 2 ^ 32.

(** The loop [for( int i=extrema.size()-1; i>=0 && n<n_clusters; --i, ++n)];
    [i1] is [i + 1], so that [i1 = 0] stands for [i < 0]. *)
Fixpoint find_k_loop (extrema : list TPairedExtrema) (i1 n n_clusters : nat)
  (ret : list Z) : result (list Z) :=
  match i1 with
  | O => Ok ret
  | S i =>
      if (n <? n_clusters)%nat then
        match nth_error extrema i with
        | Some e =>
            find_k_loop extrema i (S n) n_clusters (ret ++ [to_unsigned (MaxIndex e)])
        | None => OutOfRange
        end
      else Ok ret
  end.

(** [find_k_histogram_peaks].  The Persistence1D library is not part of the
    repository: [paired_extrema reachabilities threshold] stands for
    [RunPersistence(reachabilities)] followed by
    [GetPairedExtrema(extrema, threshold)]. *)
Definition find_k_histogram_peaks
  (paired_extrema : list real -> real -> list TPairedExtrema)
  (reachabilities : list real) (n_clusters : nat) : result (list Z) :=
  let extrema := paired_extrema reachabilities 0 in
  find_k_loop extrema (length extrema) 1 n_clusters [].

(** [find_histogram_peaks]: the maximum index of every extremum the library
    pairs at the given persistence, in the order of the library. *)
Definition find_histogram_peaks
  (paired_extrema : list real -> real -> list TPairedExtrema)
  (reachabilities : list real) (persistence : real) : list Z :=
  let extrema := paired_extrema reachabilities persistence in
  map (fun e => to_unsigned (MaxIndex e)) extrema.

(** [std::numeric_limits<float>::max()]. *)
Definition FLT_MAX : real := UNDEFINED.

(** [std::sort] on a vector of [unsigned int]: the values in ascending
    order.  The standard algorithm is not part of the repository; on numbers
    its result is determined by its contract, and sorting by insertion
    computes it. *)
Fixpoint insert_sorted (x : Z) (l : list Z) : list Z :=
  match l with
  | [] => [x]
  | y :: l' => if x <=? y then x :: l else y :: insert_sorted x l'
  end.

Definition std_sort (l : list Z) : list Z := fold_right insert_sorted [] l.

(** The loop [std::for_each(result.begin(), result.end(), ...)] of
    [test_optics] that pushes the reachability distance of every point of
    the ordering. *)
Fixpoint extract_reachabilities (result : DataVector) (reachabilities : list real)
  : M (list real) :=
  match result with
  | [] => mret reachabilities
  | p :: result' =>
      r <- reachability_distance p ;;
      extract_reachabilities result' (reachabilities ++ [r])
  end.

(** A value computed without the heap, as a computation. *)
Definition lift {A} (r : result A) : M A := fun st => (r, st).

(** [cv::Vec3b], a pixel of three channels, and [cv::Mat3b], an image as
    the list of its rows. *)
Definition Vec3b := (Z * Z * Z)%type.
Definition Mat3b := list (list Vec3b).

(** [px\[0\]]. *)
Definition channel0 (px : Vec3b) : Z := fst (fst px).

(** [new OPTICS::DataPoint()], constructed at the address [p] that the
    allocator hands out. *)
Definition new_DataPoint (p : addr) : M unit := update p (fun _ => DataPoint_new).

(** [p->data().push_back(x)]. *)
Definition data_push_back (p : addr) (x : real) : M unit :=
  update p (fun o => mkDataPoint (_data o ++ [x]) (_reachability_distance o)
                       (_is_processed o)).

(** [max_hist_height]. *)
Definition max_hist_height : Z := 8000.

(** [*std::max_element(first, last, comp)] with the comparator of
    [test_optics], [a == UNDEFINED ? true : a < b].  The algorithm is not
    part of the repository; the comparator is no strict weak ordering (it
    holds of UNDEFINED and itself), so that the result is not the one of the
    algorithm's contract but the one of the loop that computes it: it keeps
    the first element and replaces what it keeps by each later element that
    the kept one compares less than.  On an empty vector the source
    dereferences [end()]. *)
Fixpoint max_element_from (largest : real) (v : list real) : real :=
  match v with
  | [] => largest
  | x :: v' =>
      max_element_from (if (largest =? UNDEFINED) || (largest <? x) then x else largest) v'
  end.

Definition max_element (v : list real) : M real :=
  match v with
  | [] => fail (@OutOfRange)
  | x :: v' => mret (max_element_from x v')
  end.

(** The loops of [test_optics] that draw the cluster borders into the
    histogram, [hist(r,*it) = color_hist_cluster_border] for every row [r]
    of an image of [rows] rows and [cols] columns: a column outside the
    image is undefined behaviour in the source and ends the run with
    [OutOfRange] here. *)
Fixpoint draw_cluster_borders (rows cols : nat) (cluster_borders : list Z) : M unit :=
  match cluster_borders with
  | [] => mret tt
  | b :: rest =>
      if (0 <? rows)%nat && negb (b <? Z.of_nat cols) then fail (@OutOfRange)
      else draw_cluster_borders rows cols rest
  end.

Section Scan.
Context `{FloatArithmetic}.

(** [build_histogram]: an image of
    [static_cast<unsigned int>(std::min((float)max_hist_height, max_r_dist))]
    rows and one column for every reachability distance.  The image is
    modelled by its size; its loops colour pixels inside the image. *)
Definition build_histogram (max_r_dist : real) (reachabilities : list real)
  : nat * nat :=
  let frows := Z.min (float_of_int max_hist_height) max_r_dist in
  let rows := unsigned_of_float frows in
  (rows, length reachabilities).

(** The addresses that [new] returns, in the order of the calls. *)
Variable allocated : nat -> addr.

(** The loop over the columns of row [r] of [scan_testset], from column [c]
    on; [n] counts the objects created so far. *)
Fixpoint scan_row (row : list Vec3b) (r c : Z) (n : nat) (db : DataVector)
  : M (nat * DataVector) :=
  match row with
  | [] => mret (n, db)
  | px :: row' =>
      if 128 <? channel0 px then
        let p := allocated n in
        new_DataPoint p ;;;
        data_push_back p (float_of_int r) ;;;
        data_push_back p (float_of_int c) ;;;
        scan_row row' r (c + 1) (S n) (db ++ [p])
      else scan_row row' r (c + 1) n db
  end.

(** The loop over the rows, from row [r] on. *)
Fixpoint scan_rows (testset : Mat3b) (r : Z) (n : nat) (db : DataVector)
  : M (nat * DataVector) :=
  match testset with
  | [] => mret (n, db)
  | row :: testset' =>
      s <- scan_row row r 0 n db ;;
      scan_rows testset' (r + 1) (fst s) (snd s)
  end.

(** [scan_testset]: one point for every pixel whose first channel exceeds
    128, with the row and the column of the pixel as coordinates. *)
Definition scan_testset (testset : Mat3b) : M DataVector :=
  s <- scan_rows testset 0 0%nat [] ;;
  mret (snd s).

(** What [test_optics] computes from the scanned dataset [db]: the
    ordering, its reachability distances, the histogram (by its size), the
    sorted cluster borders and the clusters.  The console and file output,
    the count of unreachable points that is only printed, the colours of the
    histogram, the cluster images, the windows and the final deletion of the
    points are left out.  The callback of the harness counts its calls and
    prints; it is the recording callback here. *)
Definition test_optics_scanned `{StdAlgorithm}
  (paired_extrema : list real -> real -> list TPairedExtrema)
  (fuel : nat) (db : DataVector) (eps : real) (min_pts : nat) (persistence : real)
  (n_clusters : nat) (use_n_clusters : bool) (outlier_threshold : real)
  : M (DataVector * list real * list Z * list DataVector) :=
  let eps := if eps <? 0 then FLT_MAX else eps in
  result <- optics_cb recording_callback fuel db eps min_pts ;;
  reachabilities <- extract_reachabilities result [] ;;
  max_r_dist <- max_element reachabilities ;;
  let hist := build_histogram max_r_dist reachabilities in
  cluster_borders <-
    (if use_n_clusters
     then lift (find_k_histogram_peaks paired_extrema reachabilities n_clusters)
     else mret (find_histogram_peaks paired_extrema reachabilities persistence)) ;;
  let cluster_borders := std_sort cluster_borders in
  draw_cluster_borders (fst hist) (snd hist) cluster_borders ;;;
  clusters <- extract_clusters result (map Z.to_nat cluster_borders)
                outlier_threshold ;;
  mret (result, reachabilities, cluster_borders, clusters).

(** [test_optics] without shuffling: the scan of the test set, then the
    computation on the scanned dataset. *)
Definition test_optics `{StdAlgorithm}
  (paired_extrema : list real -> real -> list TPairedExtrema)
  (fuel : nat) (testset : Mat3b) (eps : real) (min_pts : nat) (persistence : real)
  (n_clusters : nat) (use_n_clusters : bool) (outlier_threshold : real)
  : M (DataVector * list real * list Z * list DataVector) :=
  db <- scan_testset testset ;;
  test_optics_scanned paired_extrema fuel db eps min_pts persistence n_clusters
    use_n_clusters outlier_threshold.

End Scan.

End Harness.

Import Harness.

(** ** Datasets used in the examples *)

(** A heap holding the given objects at the given addresses; every other
    address holds a default-constructed object. *)
Definition heap_of (objects : list (addr * DataPoint)) : Heap :=
  fun a =>
    match find (fun x => Pos.eqb (fst x) a) objects with
    | Some (_, o) => o
    | None => DataPoint_new
    end.

(** A point as [scan_testset] creates it: default-constructed, then its
    coordinates pushed. *)
Definition new_point (coordinates : list real) : DataPoint :=
  mkDataPoint coordinates UNDEFINED false.

(** Two points at squared distance 1. *)
Definition two_points : Heap :=
  heap_of [(1%positive, new_point [0; 0]); (2%positive, new_point [1; 0])].

(** A unit square and a far point, stored in shuffled address order. *)
Definition square_and_far : Heap :=
  heap_of [(5%positive, new_point [0; 0]); (3%positive, new_point [0; 1]);
           (7%positive, new_point [1; 0]); (2%positive, new_point [1; 1]);
           (9%positive, new_point [100; 100])].

(** A point that is still unprocessed but carries a reachability distance
    set through its setter before the run. *)
Definition stale_point : Heap :=
  heap_of [(1%positive, mkDataPoint [0; 0] 5 false)].

(** A stand-in for the persistence library in the examples: two paired
    extrema on vectors of five values or more, none on shorter ones. *)
Definition two_peaks (rs : list real) (threshold : real) : list TPairedExtrema :=
  if (5 <=? length rs)%nat
  then [mkPairedExtrema 1 3 1; mkPairedExtrema 2 4 5]
  else [].

(** An image of two rows and two columns with two bright pixels, on its
    diagonal. *)
Definition small_image : Mat3b :=
  [[(200, 0, 0); (0, 0, 0)]; [(0, 0, 0); (255, 1, 1)]].

(** Two points of different dimensionality. *)
Definition mixed_dimensions : Heap :=
  heap_of [(1%positive, new_point [0; 0]); (2%positive, new_point [1; 0; 0])].

(** Four points of four dimensions whose coordinates are multiples of 2^52.
    The squared distance of the first to the third is
    (4095^2 + 90^2 + 9^2 + 3^2) * 2^104 = (2^24 - 1) * 2^104, the value of
    UNDEFINED; the other squared distances are smaller.  No sum that
    [squared_distance] computes between two of the points has more than 24
    significant bits, so that the arithmetic of [float] computes these
    distances without rounding. *)
Definition sentinel_distance : Heap :=
  heap_of [(1%positive, new_point [0; 0; 0; 0]);
           (2%positive, new_point [3000 * 2 ^ 52; -500 * 2 ^ 52; 0; 0]);
           (3%positive, new_point [4095 * 2 ^ 52; 90 * 2 ^ 52; 9 * 2 ^ 52; 3 * 2 ^ 52]);
           (4%positive, new_point [1500 * 2 ^ 52; 3000 * 2 ^ 52; 0; 0])].

(** A heap of points of 2^32 dimensions, one more than [unsigned int] can
    hold. *)
Definition wide_points : Heap :=
  fun _ => new_point (repeat 0 (Z.to_nat (2 ^ 32))).

(** Two points at a squared distance of 2^128, which is above UNDEFINED
    (and overflows to infinity when computed in [float]). *)
Definition overflowing_distance : Heap :=
  heap_of [(1%positive, new_point [0]); (2%positive, new_point [2 ^ 64])].

(** * The vocabulary of the properties *)

(** ** Reasoning about computations *)

(** A computation that leaves the state as it is, whatever it returns. *)
Definition pure {A} (m : M A) : Prop := forall st, snd (m st) = st.

Create HintDb purity.

(** [wp m Q E st]: started in [st], [m] either returns a value [a] in a
    state [st'] with [Q a st'], or ends without a value in a state with [E]. *)
Definition wp {A} (m : M A) (Q : A -> State -> Prop) (E : State -> Prop)
  (st : State) : Prop :=
  match m st with
  | (Ok a, st') => Q a st'
  | (_, st') => E st'
  end.

(** ** The mutations of a run as a transition system *)

(** Each mutator call of optics.hpp is one step; a step carries what the
    code has checked or established immediately before the call: the
    reachability setter is called on unprocessed points, and the start point
    of an expansion is pushed when it is processed and at UNDEFINED. *)
Inductive step : State -> State -> Prop :=
| step_reach st o d :
    _is_processed (heap st o) = false ->
    step st (mkState (upd (heap st) o (with_reachability d))
               (EvReach o false (_reachability_distance (heap st o)) d :: trace st))
| step_processed st p :
    step st (mkState (upd (heap st) p (with_processed true))
               (EvProcessed p :: trace st))
| step_emit_first st p :
    _reachability_distance (heap st p) = UNDEFINED ->
    _is_processed (heap st p) = true ->
    step st (mkState (heap st) (EvEmitFirst p UNDEFINED :: trace st))
| step_emit_seed st q :
    step st (mkState (heap st)
               (EvEmitSeed q (_reachability_distance (heap st q)) :: trace st)).

(** Any number of steps. *)
Inductive steps : State -> State -> Prop :=
| steps_refl st : steps st st
| steps_step st1 st2 st3 : steps st1 st2 -> step st2 st3 -> steps st1 st3.

(** The points pushed to the ordering, oldest first, read off a trace. *)
Fixpoint emitted (t : list Event) : DataVector :=
  match t with
  | [] => []
  | EvEmitFirst p _ :: t' => emitted t' ++ [p]
  | EvEmitSeed p _ :: t' => emitted t' ++ [p]
  | _ :: t' => emitted t'
  end.

(** The points the callback was called with, oldest first, read off a
    trace. *)
Fixpoint called (t : list Event) : DataVector :=
  match t with
  | [] => []
  | EvCallback p :: t' => called t' ++ [p]
  | _ :: t' => called t'
  end.

(** The states a run started on [h0] can be in. *)
Definition reachable (h0 : Heap) (st : State) : Prop := steps (start h0) st.

(** A reachable state in which [v] lists the emissions so far. *)
Definition building (h0 : Heap) (v : DataVector) (st : State) : Prop :=
  reachable h0 st /\ emitted (trace st) = v.

(** No reachability distance is written to a point after the point was
    emitted as the start point of an expansion.  The trace is read newest
    event first. *)
Fixpoint quiet (t : list Event) : Prop :=
  match t with
  | [] => True
  | e :: t' =>
      match e with
      | EvReach p _ _ _ => forall r, ~ In (EvEmitFirst p r) t'
      | _ => True
      end /\ quiet t'
  end.

(** Every start point of an expansion was pushed at UNDEFINED, still is at
    UNDEFINED and processed, and was not written since. *)
Definition sentinel_kept (st : State) : Prop :=
  (forall p r, In (EvEmitFirst p r) (trace st) ->
     r = UNDEFINED /\
     _reachability_distance (heap st p) = UNDEFINED /\
     _is_processed (heap st p) = true) /\
  quiet (trace st).

(** ** Outcomes and example states *)

(** The two assertion failures with which [optics] rejects its parameters. *)
Definition InvalidParameter {A} (r : result A) : Prop :=
  r = AssertionFailed "eps must not be negative" \/
  r = AssertionFailed "min_pts must be greater than 0".

(** The heap in which a first run on [two_points] ends. *)
Abbreviation two_points_after_run :=
  (heap (snd (run (optics 2 [1; 2]%positive 2 1) two_points))).

(** A size that [unsigned int] can hold. *)
Definition representable (n : nat) : Prop := Z.of_nat n < 2 ^ 32.

(** ** Cluster extraction *)

(** The threshold [extract_clusters] works with. *)
Definition effective_threshold (outlier_threshold : real) : real :=
  if outlier_threshold <=? 0 then UNDEFINED else outlier_threshold.

(** The test of [extract_clusters] on a point, and its negation. *)
Definition is_outlier (h : Heap) (threshold : real) (p : addr) : bool :=
  threshold <? _reachability_distance (h p).

Definition is_inlier (h : Heap) (threshold : real) (p : addr) : bool :=
  negb (is_outlier h threshold p).

(** The slices the loop over the borders walks through, starting at index
    [lower]: one up to each border, and a last one up to the end. *)
Fixpoint segments_from (result : DataVector) (lower : nat) (borders : list nat)
  : list DataVector :=
  match borders with
  | [] => [firstn (length result - lower) (skipn lower result)]
  | b :: rest => firstn (b - lower) (skipn lower result) :: segments_from result b rest
  end.

(** ** Runs on valid input *)

(** The order of [Comp_DataPoint_Ptr_f]: by reachability distance, then by
    address. *)
Definition precedes (h : Heap) (lhs rhs : addr) : bool :=
  if _reachability_distance (h lhs) <? _reachability_distance (h rhs) then true
  else if (_reachability_distance (h lhs) =? _reachability_distance (h rhs))
          && Pos.ltb lhs rhs then true
  else false.

(** The same order as a relation. *)
Definition seed_order (h : Heap) (a b : addr) : Prop := precedes h a b = true.

(** A distance below the sentinel. *)
Definition finite (r : real) : Prop := 0 <= r < UNDEFINED.

(** What a call of the reachability setter may do to an unprocessed point:
    write UNDEFINED over UNDEFINED, replace UNDEFINED by a finite distance,
    or replace a finite distance by a smaller one. *)
Definition monotone_write (e : Event) : Prop :=
  match e with
  | EvReach _ was old new =>
      was = false /\
      ((old = UNDEFINED /\ new = UNDEFINED) \/
       (old = UNDEFINED /\ finite new) \/
       (finite old /\ finite new /\ new < old))
  | _ => True
  end.

(** The number of entries of [db] that are not processed. *)
Definition unprocessed_count (db : DataVector) (h : Heap) : nat :=
  length (filter (fun x => negb (_is_processed (h x))) db).

(** At entry, every unprocessed point of [db] is at reachability UNDEFINED. *)
Definition fresh_entry (db : DataVector) (h : Heap) : Prop :=
  forall p, In p db -> _is_processed (h p) = false ->
            _reachability_distance (h p) = UNDEFINED.

(** The state after [o->reachability_distance(d)]. *)
Definition wrote (st : State) (o : addr) (d : real) : State :=
  mkState (upd (heap st) o (with_reachability d))
    (EvReach o (_is_processed (heap st o)) (_reachability_distance (heap st o)) d
       :: trace st).

(** The state after [q->processed(true)] and the [push_back] of [q], the
    latter recorded as [e]. *)
Definition marked (st : State) (q : addr) (e : Event) : State :=
  mkState (upd (heap st) q (with_processed true)) (e :: EvProcessed q :: trace st).

(** Case analysis on membership in an explicit list. *)
Ltac in_cases H :=
  simpl in H; repeat (destruct H as [<-|H]); try contradiction.

(** The invariant of a run started on [h0]: [pending] are the entries of
    [db] the main loop has still to visit, [seeds] is the seed set, [ord] the
    ordering built so far, and [budget] bounds the unprocessed entries. *)
Record inv (db : DataVector) (h0 : Heap) (budget : nat) (pending : list addr)
  (seeds : DataSet) (ord : DataVector) (st : State) : Prop := {
  inv_data : forall p, _data (heap st p) = _data (h0 p);
  inv_mono : forall p, _is_processed (h0 p) = true ->
                       _is_processed (heap st p) = true;
  inv_nodup : NoDup ord;
  inv_ord : forall x, In x ord <->
              In x db /\ _is_processed (heap st x) = true /\
              _is_processed (h0 x) = false;
  inv_cover : forall x, In x db ->
                _is_processed (heap st x) = true \/ In x pending;
  inv_budget : (unprocessed_count db (heap st) <= budget)%nat;
  inv_sorted : StronglySorted (seed_order (heap st)) seeds;
  inv_seeds : forall s, In s seeds ->
                In s db /\ _is_processed (heap st s) = false /\
                _reachability_distance (heap st s) <> UNDEFINED;
  inv_known : fresh_entry db h0 ->
              forall x, In x db -> _is_processed (heap st x) = false ->
                        _reachability_distance (heap st x) <> UNDEFINED ->
                        In x seeds;
  inv_range : fresh_entry db h0 ->
              forall x, In x db -> _is_processed (heap st x) = false ->
                        _reachability_distance (heap st x) = UNDEFINED \/
                        finite (_reachability_distance (heap st x));
  inv_legal : fresh_entry db h0 -> Forall monotone_write (trace st)
}.
Arguments inv_data {db h0 budget pending seeds ord st} _.
Arguments inv_mono {db h0 budget pending seeds ord st} _.
Arguments inv_nodup {db h0 budget pending seeds ord st} _.
Arguments inv_ord {db h0 budget pending seeds ord st} _.
Arguments inv_cover {db h0 budget pending seeds ord st} _.
Arguments inv_budget {db h0 budget pending seeds ord st} _.
Arguments inv_sorted {db h0 budget pending seeds ord st} _.
Arguments inv_seeds {db h0 budget pending seeds ord st} _.
Arguments inv_known {db h0 budget pending seeds ord st} _.
Arguments inv_range {db h0 budget pending seeds ord st} _.
Arguments inv_legal {db h0 budget pending seeds ord st} _.

(** What a run started on points at their initial state keeps from one
    mutator call to the next, however the run ends: the coordinates are
    those of [h0]; [seeds] holds points of [db], among them every
    unprocessed point of [db] that is no longer at UNDEFINED; an unprocessed
    point is at UNDEFINED or at a finite distance; and every call of the
    setter so far was a [monotone_write]. *)
Record improving (db : DataVector) (h0 : Heap) (seeds : DataSet) (st : State)
  : Prop := {
  imp_data : forall p, _data (heap st p) = _data (h0 p);
  imp_seeds : forall s, In s seeds -> In s db;
  imp_known : forall x, In x db -> _is_processed (heap st x) = false ->
                        _reachability_distance (heap st x) <> UNDEFINED ->
                        In x seeds;
  imp_range : forall x, In x db -> _is_processed (heap st x) = false ->
                        _reachability_distance (heap st x) = UNDEFINED \/
                        finite (_reachability_distance (heap st x));
  imp_legal : Forall monotone_write (trace st)
}.
Arguments imp_data {db h0 seeds st} _.
Arguments imp_seeds {db h0 seeds st} _.
Arguments imp_known {db h0 seeds st} _.
Arguments imp_range {db h0 seeds st} _.
Arguments imp_legal {db h0 seeds st} _.

(** ** Further vocabulary *)

(** The message of the assertion of [squared_distance]. *)
Definition DimensionMismatch : string :=
  "Data-vectors of both DataPoints must have same dimensionality".

(** A call of the reachability setter that addresses an unprocessed point. *)
Definition setter_on_unprocessed (e : Event) : Prop :=
  match e with
  | EvReach _ was _ _ => was = false
  | _ => True
  end.

(** Every point pushed to the ordering, as a start point or from the seeds,
    is processed and holds the reachability distance it was pushed with. *)
Definition emissions_final (st : State) : Prop :=
  forall q r,
    In (EvEmitFirst q r) (trace st) \/ In (EvEmitSeed q r) (trace st) ->
    _reachability_distance (heap st q) = r /\ _is_processed (heap st q) = true.

(** The reachability distance [update_seeds] leaves an unprocessed
    neighbour at distance [d] of the centre with: [max c_dist d] when the
    neighbour was at UNDEFINED, else the smaller of its distance so far and
    [max c_dist d]. *)
Definition improved (c_dist d r : real) : real :=
  if r =? UNDEFINED then Z.max c_dist d else Z.min r (Z.max c_dist d).

(** The heap after [update_seeds]: the unprocessed points of [N_eps] are
    improved, every other object is as before. *)
Definition seeds_updated `{FloatArithmetic} (h : Heap) (N_eps : DataVector)
  (center : addr) (c_dist : real) : Heap :=
  fun x =>
    if negb (_is_processed (h x)) && existsb (Pos.eqb x) N_eps
    then with_reachability
           (improved c_dist (sqdist h center x) (_reachability_distance (h x))) (h x)
    else h x.

(** The points [update_seeds] puts into the seeds: the unprocessed points of
    [N_eps] that were at UNDEFINED or get a smaller reachability distance. *)
Definition becomes_seed `{FloatArithmetic} (h : Heap) (N_eps : DataVector)
  (center : addr) (c_dist : real) (x : addr) : Prop :=
  In x N_eps /\ _is_processed (h x) = false /\
  (_reachability_distance (h x) = UNDEFINED \/
   Z.max c_dist (sqdist h center x) < _reachability_distance (h x)).

(** ** The callback version against the plain version *)

Definition is_callback (e : Event) : bool :=
  match e with
  | EvCallback _ => true
  | _ => false
  end.

(** A trace without the calls of the callback. *)
Definition without_callbacks (t : list Event) : list Event :=
  filter (fun e => negb (is_callback e)) t.

(** A state without the record of the calls of the callback. *)
Definition erase (st : State) : State :=
  mkState (heap st) (without_callbacks (trace st)).

(** [m'] does what [m] does, apart from calls of the callback that [m']
    records: started in the same state they return the same and end in the
    same state, up to the record of those calls. *)
Definition simulates {A} (m m' : M A) : Prop :=
  forall st, m (erase st) = (fst (m' st), erase (snd (m' st))).

Create HintDb simulation.

(** The start point of the expansion under way, read off a trace (newest
    event first). *)
Fixpoint current_start (t : list Event) : option addr :=
  match t with
  | [] => None
  | EvEmitFirst p _ :: _ => Some p
  | _ :: t' => current_start t'
  end.

(** For every point pushed to the ordering, the start point of the expansion
    that pushed it, oldest first. *)
Fixpoint start_points (t : list Event) : DataVector :=
  match t with
  | [] => []
  | EvEmitFirst p _ :: t' => start_points t' ++ [p]
  | EvEmitSeed _ _ :: t' =>
      start_points t' ++ match current_start t' with
                         | Some p => [p]
                         | None => []
                         end
  | _ :: t' => start_points t'
  end.

(** The callback was called once for every point pushed so far, each time
    with the start point of the expansion that pushed the point. *)
Definition calls_follow_start_points (t : list Event) : Prop :=
  called t = start_points t /\ length (start_points t) = length (emitted t).

(** The same inside the expansion started at [p]. *)
Definition expanding (p : addr) (t : list Event) : Prop :=
  calls_follow_start_points t /\ current_start t = Some p.

(** Every point taken from the seeds was pushed with a finite reachability
    distance. *)
Definition seed_emissions_finite (t : list Event) : Prop :=
  forall q r, In (EvEmitSeed q r) t -> finite r.

(** No reachability distance is negative, and none was written. *)
Definition never_negative (st : State) : Prop :=
  (forall p, 0 <= _reachability_distance (heap st p)) /\
  Forall (fun e => match e with
                   | EvReach _ _ _ new => 0 <= new
                   | _ => True
                   end) (trace st).

(** The objects that are not in [db] are as they are in [h0]. *)
Definition untouched_outside (db : DataVector) (h0 : Heap) (st : State) : Prop :=
  forall x, ~ In x db -> heap st x = h0 x.

(** ** The ways a run can end *)

(** The assertion failures that depend on the input: the parameter checks
    and the dimensionality checks of [squared_distance] and of the
    comparison functor. *)
Definition input_failure (msg : string) : Prop :=
  msg = "eps must not be negative"%string \/
  msg = "min_pts must be greater than 0"%string \/
  msg = DimensionMismatch \/
  msg = "Comparing DataPoints requires them to have same dimensionality"%string.

(** A result that is a value with [Q], a failure on the input, or the end of
    the fuel: no other assertion has failed and no vector was read past its
    end. *)
Definition acceptable {A} (Q : A -> Prop) (r : result A) : Prop :=
  match r with
  | Ok a => Q a
  | AssertionFailed msg => input_failure msg
  | OutOfRange => False
  | OutOfFuel => True
  end.

(** A computation all of whose results are acceptable. *)
Definition ends_well {A} (m : M A) (Q : A -> Prop) : Prop :=
  forall st, acceptable Q (fst (m st)).

(** ** The scan of the test set *)

(** The coordinates of the pixels of row [r], from column [c] on, whose
    first channel exceeds 128. *)
Fixpoint bright_in_row (row : list Vec3b) (r c : Z) : list (Z * Z) :=
  match row with
  | [] => []
  | px :: row' =>
      if 128 <? channel0 px then (r, c) :: bright_in_row row' r (c + 1)
      else bright_in_row row' r (c + 1)
  end.

(** The same for an image, row by row, from row [r] on. *)
Fixpoint bright_pixels (testset : Mat3b) (r : Z) : list (Z * Z) :=
  match testset with
  | [] => []
  | row :: testset' => bright_in_row row r 0 ++ bright_pixels testset' (r + 1)
  end.

(** The point of a pixel, as the scan leaves it. *)
Definition pixel_point `{FloatArithmetic} (rc : Z * Z) : DataPoint :=
  new_point [float_of_int (fst rc); float_of_int (snd rc)].

(** The heap after objects have been put at addresses, one after the
    other. *)
Fixpoint placed (h : Heap) (objects : list (addr * DataPoint)) : Heap :=
  match objects with
  | [] => h
  | (a, o) :: rest => placed (upd h a (fun _ => o)) rest
  end.

(** The points of the given pixels at the addresses the allocator hands out
    from its [n]-th call on. *)
Fixpoint scanned_points `{FloatArithmetic} (allocated : nat -> addr) (n : nat)
  (pixels : list (Z * Z)) : list (addr * DataPoint) :=
  match pixels with
  | [] => []
  | rc :: rest => (allocated n, pixel_point rc) :: scanned_points allocated (S n) rest
  end.

(** An allocator never hands out an address twice. *)
Definition fresh_addresses (allocated : nat -> addr) : Prop :=
  forall i j, allocated i = allocated j -> i = j.

(** The sizes of an image are [int] values. *)
Definition int_sized (testset : Mat3b) : Prop :=
  Z.of_nat (length testset) < 2 ^ 31 /\
  forall row, In row testset -> Z.of_nat (length row) < 2 ^ 31.

(** * Lemmas and theorems *)

(** ** Generic list facts used below *)

Lemma filter_length_Permutation {A} (f : A -> bool) [l l' : list A] :
  Permutation l l' -> length (filter f l) = length (filter f l').
Proof.
  induction 1; simpl; try congruence.
  - destruct (f x); simpl; congruence.
  - destruct (f x), (f y); simpl; reflexivity.
Qed.

Lemma filter_none {A} (f : A -> bool) (l : list A) :
  Forall (fun x => f x = false) l -> filter f l = [].
Proof.
  induction 1 as [|x l Hx _ IH]; simpl; [reflexivity|].
  now rewrite Hx.
Qed.

Lemma filter_all {A} (f : A -> bool) (l : list A) :
  Forall (fun x => f x = true) l -> filter f l = l.
Proof.
  induction 1 as [|x l Hx _ IH]; simpl; [reflexivity|].
  rewrite Hx. now f_equal.
Qed.

Lemma filter_length_le_all {A} (f : A -> bool) (l : list A) :
  (length (filter f l) <= length l)%nat.
Proof.
  induction l as [|x l IH]; simpl; [lia|].
  destruct (f x); simpl; lia.
Qed.




Lemma unsigned_int_small n : representable n -> unsigned_int n = n.
Proof.
  unfold representable, unsigned_int. intros Hn.
  rewrite Z.mod_small by lia. apply Nat2Z.id.
Qed.

(** ** The exact arithmetic meets the laws of the arithmetic of reals *)

Lemma exact_lower (ret x y : Z) : ret <= ret + (x - y) ^ 2.
Proof. pose proof (Z.square_nonneg (x - y)). rewrite Z.pow_2_r. lia. Qed.

Lemma exact_same (ret x : Z) : ret + (x - x) ^ 2 = ret.
Proof. rewrite Z.sub_diag. simpl. lia. Qed.

Lemma exact_sym (ret x y : Z) : ret + (x - y) ^ 2 = ret + (y - x) ^ 2.
Proof. rewrite !Z.pow_2_r. ring. Qed.

Lemma exact_monotone (x y : Z) : 0 <= x <= y -> x * x <= y * y.
Proof. nia. Qed.

Lemma exact_UNDEFINED : UNDEFINED <= UNDEFINED * UNDEFINED.
Proof. unfold UNDEFINED. lia. Qed.

(** The arithmetic of the integers, without rounding. *)
#[export] Instance exact_arithmetic : FloatArithmetic := {|
  add_squared_difference ret x y := ret + (x - y) ^ 2;
  multiply x y := x * y;
  float_of_int i := i;
  unsigned_of_float x := Z.to_nat x;
  add_squared_difference_lower := exact_lower;
  add_squared_difference_same := exact_same;
  add_squared_difference_sym := exact_sym;
  multiply_nonneg := Z.square_nonneg;
  multiply_monotone := exact_monotone;
  multiply_UNDEFINED := exact_UNDEFINED
|}.

(** ** The reference implementation of [nth_element] meets its contract *)

Lemma insert_by_perm comp x l : Permutation (x :: l) (insert_by comp x l).
Proof.
  induction l as [|y l IH]; simpl; [reflexivity|].
  destruct (comp x y); [reflexivity|].
  rewrite perm_swap. now constructor.
Qed.

Lemma sort_by_perm comp l : Permutation l (sort_by comp l).
Proof.
  induction l as [|x l IH]; simpl; [constructor|].
  rewrite <- insert_by_perm. now constructor.
Qed.

Lemma insert_by_sorted comp x l :
  strict_weak_order comp ->
  StronglySorted (fun a b => comp b a = false) l ->
  StronglySorted (fun a b => comp b a = false) (insert_by comp x l).
Proof.
  intros (Hirr & Htr & _). induction 1 as [|y l Hl IH Hy]; simpl.
  - constructor; constructor.
  - destruct (comp x y) eqn:Hxy.
    + constructor; [constructor; assumption|].
      constructor.
      * destruct (comp y x) eqn:Hyx; [|reflexivity].
        rewrite <- (Hirr x). symmetry. eauto.
      * rewrite Forall_forall in *. intros z Hz.
        destruct (comp z x) eqn:Hzx; [|reflexivity].
        rewrite <- (Hy z Hz). symmetry. eauto.
    + constructor; [assumption|].
      rewrite Forall_forall in *. intros z Hz.
      apply (Permutation_in _ (Permutation_sym (insert_by_perm comp x l))) in Hz.
      destruct Hz as [<-|Hz]; auto.
Qed.

Lemma sort_by_sorted comp l :
  strict_weak_order comp ->
  StronglySorted (fun a b => comp b a = false) (sort_by comp l).
Proof.
  intros H. induction l as [|x l IH]; simpl; [constructor|].
  now apply insert_by_sorted.
Qed.

Lemma sorted_split_at (R : addr -> addr -> Prop) (l : list addr) :
  StronglySorted R l ->
  forall n, (n < length l)%nat ->
  exists before pivot after,
    l = before ++ pivot :: after /\ length before = n /\
    Forall (fun x => R x pivot) before /\ Forall (fun x => R pivot x) after.
Proof.
  induction 1 as [|a l Hl IH Ha]; intros n Hn; simpl in Hn; [lia|].
  destruct n as [|n].
  - exists [], a, l. repeat split; auto.
  - destruct (IH n ltac:(lia)) as (b & pv & af & -> & Hlen & Hb & Haf).
    exists (a :: b), pv, af. simpl. repeat split; auto.
    constructor; [|assumption].
    rewrite Forall_forall in Ha. apply Ha. apply in_or_app. right. now left.
Qed.

#[export] Instance reference_algorithm : StdAlgorithm.
Proof.
  refine {| nth_element := fun comp _ v => sort_by comp v |}.
  intros comp nth v Hswo Hn.
  pose proof (sort_by_perm comp v) as HP.
  destruct (sorted_split_at _ _ (sort_by_sorted comp v Hswo) nth) as
    (b & pv & af & E & Hlen & Hb & Haf).
  - now rewrite <- (Permutation_length HP).
  - exists b, pv, af. rewrite <- E. auto.
Defined.

(** ** Computations that leave the state as it is *)

Lemma pure_mret {A} (a : A) : pure (mret a).
Proof. intros st. reflexivity. Qed.

Lemma pure_fail {A} r : pure (@fail A r).
Proof. intros st. reflexivity. Qed.

Lemma pure_assert b msg : pure (assert b msg).
Proof. intros st. unfold assert. now destruct b. Qed.

Lemma pure_gets {A} (f : Heap -> A) : pure (gets f).
Proof. intros st. reflexivity. Qed.

Lemma pure_bind {A B} (m : M A) (f : A -> M B) :
  pure m -> (forall a, pure (f a)) -> pure (bind m f).
Proof.
  intros Hm Hf st. unfold bind. specialize (Hm st).
  destruct (m st) as [[a|msg| |] st1]; simpl in *; subst; auto.
  apply Hf.
Qed.

Lemma pure_if {A} (b : bool) (m1 m2 : M A) :
  pure m1 -> pure m2 -> pure (if b then m1 else m2).
Proof. now destruct b. Qed.

Lemma pure_at_index {A} (v : list A) i : pure (at_index v i).
Proof. unfold at_index. destruct (nth_error v i); intros st; reflexivity. Qed.

#[export] Hint Resolve pure_mret pure_fail pure_assert pure_gets pure_bind pure_if
  pure_at_index : purity.

Lemma pure_reachability_distance p : pure (reachability_distance p).
Proof. unfold reachability_distance. auto with purity. Qed.

Lemma pure_is_processed p : pure (is_processed p).
Proof. unfold is_processed. auto with purity. Qed.

Lemma pure_data p : pure (data p).
Proof. unfold data. auto with purity. Qed.

#[export] Hint Resolve pure_reachability_distance pure_is_processed pure_data : purity.

Lemma pure_squared_distance `{FloatArithmetic} a b : pure (squared_distance a b).
Proof. unfold squared_distance. auto 10 with purity. Qed.

#[export] Hint Resolve pure_squared_distance : purity.

Lemma pure_get_neighbors_loop `{FloatArithmetic} p e db : forall acc, pure (get_neighbors_loop p e db acc).
Proof. induction db as [|q db IH]; intros acc; simpl; auto with purity. Qed.

Lemma pure_get_neighbors `{FloatArithmetic} p eps db : pure (get_neighbors p eps db).
Proof. unfold get_neighbors. auto using pure_get_neighbors_loop with purity. Qed.

Lemma pure_comparator_assertions `{FloatArithmetic} p v : pure (comparator_assertions p v).
Proof. induction v as [|a v IH]; simpl; auto with purity. Qed.

#[export] Hint Resolve pure_get_neighbors pure_comparator_assertions : purity.

Lemma pure_squared_core_distance `{FloatArithmetic} `{StdAlgorithm} p min_pts N_eps :
  pure (squared_core_distance p min_pts N_eps).
Proof. unfold squared_core_distance. auto 10 with purity. Qed.

Lemma pure_Comp lhs rhs : pure (Comp_DataPoint_Ptr_f lhs rhs).
Proof. unfold Comp_DataPoint_Ptr_f. auto 12 with purity. Qed.

#[export] Hint Resolve pure_squared_core_distance pure_Comp : purity.

Lemma pure_set_insert x s : pure (set_insert x s).
Proof. induction s as [|y s IH]; simpl; auto 10 with purity. Qed.

Lemma pure_set_erase x s : pure (set_erase x s).
Proof. induction s as [|y s IH]; simpl; auto 10 with purity. Qed.

#[export] Hint Resolve pure_set_insert pure_set_erase : purity.

(** Running a pure computation first: the continuation starts in the same
    state. *)
Lemma bind_pure {A B} (m : M A) (f : A -> M B) st :
  pure m ->
  bind m f st =
  match fst (m st) with
  | Ok a => f a st
  | AssertionFailed msg => (AssertionFailed msg, st)
  | OutOfRange => (OutOfRange, st)
  | OutOfFuel => (OutOfFuel, st)
  end.
Proof.
  intros Hm. unfold bind. specialize (Hm st).
  destruct (m st) as [[a|msg| |] st1]; simpl in *; subst; reflexivity.
Qed.

(** ** The rules of the weakest-precondition calculus *)

Lemma wp_mret {A} (a : A) Q E st : Q a st -> wp (mret a) Q E st.
Proof. intros HQ. exact HQ. Qed.

Lemma wp_bind {A B} (m : M A) (f : A -> M B) Q E st :
  wp m (fun a st1 => wp (f a) Q E st1) E st -> wp (bind m f) Q E st.
Proof.
  unfold wp, bind. destruct (m st) as [[a|msg| |] st1]; auto.
Qed.

Lemma wp_conseq {A} (m : M A) (Q Q' : A -> State -> Prop) (E E' : State -> Prop) st :
  wp m Q E st ->
  (forall a st', Q a st' -> Q' a st') -> (forall st', E st' -> E' st') ->
  wp m Q' E' st.
Proof.
  unfold wp. destruct (m st) as [[a|msg| |] st1]; auto.
Qed.

Lemma wp_pure {A} (m : M A) Q E st :
  pure m -> (forall a, fst (m st) = Ok a -> Q a st) -> E st -> wp m Q E st.
Proof.
  intros Hp HQ HE. unfold wp. specialize (Hp st).
  destruct (m st) as [[a|msg| |] st1]; simpl in *; subst; auto.
Qed.

Lemma wp_out_of_fuel {A} (Q : A -> State -> Prop) E st :
  E st -> wp (fail (@OutOfFuel)) Q E st.
Proof. intros HE. exact HE. Qed.

Lemma wp_at_index {A} (v : list A) i Q E st :
  (forall x, nth_error v i = Some x -> Q x st) -> E st -> wp (at_index v i) Q E st.
Proof.
  intros HQ HE. unfold at_index. destruct (nth_error v i); [apply HQ|apply HE]; reflexivity.
Qed.

Lemma wp_assert b msg Q E st :
  (b = true -> Q tt st) -> E st -> wp (assert b msg) Q E st.
Proof. unfold wp, assert. destruct b; auto. Qed.

Lemma wp_gets {A} (f : Heap -> A) Q E st : Q (f (heap st)) st -> wp (gets f) Q E st.
Proof. intros HQ. exact HQ. Qed.

Lemma wp_log e Q E st :
  Q tt (mkState (heap st) (e :: trace st)) -> wp (log e) Q E st.
Proof. intros HQ. exact HQ. Qed.

Lemma wp_update p f Q E st :
  Q tt (mkState (upd (heap st) p f) (trace st)) -> wp (update p f) Q E st.
Proof. intros HQ. exact HQ. Qed.

Lemma wp_set_reachability_distance p d Q E st :
  (0 <= d ->
   Q tt (mkState (upd (heap st) p (with_reachability d))
           (EvReach p (_is_processed (heap st p))
              (_reachability_distance (heap st p)) d :: trace st))) ->
  E st ->
  wp (set_reachability_distance p d) Q E st.
Proof.
  intros HQ HE. unfold wp, set_reachability_distance, bind, assert. simpl.
  destruct (Z.leb_spec 0 d); simpl; auto.
Qed.

Lemma wp_processed p b Q E st :
  Q tt (mkState (upd (heap st) p (with_processed b)) (EvProcessed p :: trace st)) ->
  wp (processed p b) Q E st.
Proof. intros HQ. exact HQ. Qed.

Lemma wp_push_back_first v p Q E st :
  Q (v ++ [p])
    (mkState (heap st) (EvEmitFirst p (_reachability_distance (heap st p)) :: trace st)) ->
  wp (push_back_first v p) Q E st.
Proof. intros HQ. exact HQ. Qed.

Lemma wp_push_back_seed v q Q E st :
  Q (v ++ [q])
    (mkState (heap st) (EvEmitSeed q (_reachability_distance (heap st q)) :: trace st)) ->
  wp (push_back_seed v q) Q E st.
Proof. intros HQ. exact HQ. Qed.

(** ** Every run of [optics] moves by steps *)

Lemma upd_same h p f : upd h p f p = f (h p).
Proof. unfold upd. now rewrite Pos.eqb_refl. Qed.

Lemma upd_other h p f a : a <> p -> upd h p f a = h a.
Proof. unfold upd. intros Hne. destruct (Pos.eqb_spec a p); congruence. Qed.

Lemma step_emit_first_at h t p :
  _reachability_distance (h p) = UNDEFINED -> _is_processed (h p) = true ->
  step (mkState h t) (mkState h (EvEmitFirst p UNDEFINED :: t)).
Proof. intros Hr Hp. exact (step_emit_first (mkState h t) p Hr Hp). Qed.

Lemma step_emit_seed_at h t q :
  step (mkState h t) (mkState h (EvEmitSeed q (_reachability_distance (h q)) :: t)).
Proof. exact (step_emit_seed (mkState h t) q). Qed.

Section Safety.
Context `{FloatArithmetic} `{StdAlgorithm}.
Variable h0 : Heap.

Lemma reachable_step st st' : reachable h0 st -> step st st' -> reachable h0 st'.
Proof. intros Hr Hs. eapply steps_step; eassumption. Qed.

Lemma update_seeds_loop_safe N_eps center c_dist v :
  forall seeds st,
    building h0 v st ->
    wp (update_seeds_loop N_eps center c_dist seeds)
       (fun _ st' => building h0 v st') (reachable h0) st.
Proof.
  induction N_eps as [|o rest IH]; intros seeds st Hb; simpl.
  - apply wp_mret. assumption.
  - apply wp_bind, wp_gets.
    destruct (_is_processed (heap st o)) eqn:Hdone; [now apply IH|].
    apply wp_bind, wp_pure; [auto with purity| |apply Hb]. intros d _.
    apply wp_bind, wp_gets.
    assert (Hset : forall new,
      building h0 v (mkState (upd (heap st) o (with_reachability new))
                    (EvReach o (_is_processed (heap st o))
                       (_reachability_distance (heap st o)) new :: trace st))).
    { intros new. destruct Hb as [Hr He]. split; [|exact He].
      rewrite Hdone. eapply reachable_step; [eassumption|]. now constructor. }
    destruct (_ =? UNDEFINED).
    + apply wp_bind, wp_set_reachability_distance; [intros _|apply Hb].
      apply wp_bind, wp_pure; [auto with purity| |apply Hset].
      intros s1 _. apply IH, Hset.
    + destruct (_ <? _); [|now apply IH].
      apply wp_bind, wp_pure; [auto with purity| |apply Hb]. intros s1 _.
      apply wp_bind, wp_set_reachability_distance; [intros _|apply Hb].
      apply wp_bind, wp_pure; [auto with purity| |apply Hset].
      intros s2 _. apply IH, Hset.
Qed.

Lemma update_seeds_safe N_eps center c_dist v seeds st :
  building h0 v st ->
  wp (update_seeds N_eps center c_dist seeds)
     (fun _ st' => building h0 v st') (reachable h0) st.
Proof.
  intros Hb. unfold update_seeds.
  apply wp_bind, wp_assert; [intros _|apply Hb].
  now apply update_seeds_loop_safe.
Qed.

Lemma building_processed v st q :
  building h0 v st ->
  building h0 v (mkState (upd (heap st) q (with_processed true)) (EvProcessed q :: trace st)).
Proof.
  intros [Hr He]. split; [|exact He].
  eapply reachable_step; [eassumption|]. constructor.
Qed.

Lemma expand_loop_safe db eps min_pts :
  forall fuel seeds v st,
    building h0 v st ->
    wp (expand_loop fuel db eps min_pts seeds v)
       (fun v' st' => building h0 v' st') (reachable h0) st.
Proof.
  induction fuel as [|fuel IH]; intros seeds v st Hb;
    destruct seeds as [|q seeds]; simpl;
    try (apply wp_mret; assumption).
  - apply wp_out_of_fuel, Hb.
  - apply wp_bind, wp_pure; [auto with purity| |apply Hb]. intros N_q _.
    apply wp_bind, wp_pure; [auto with purity| |apply Hb].
    intros [core_dist_q N_q'] _.
    apply wp_bind, wp_processed.
    pose proof (building_processed _ _ q Hb) as Hb1.
    apply wp_bind, wp_push_back_seed.
    match goal with |- wp _ _ _ ?s => assert (Hb2 : building h0 (v ++ [q]) s) end.
    { destruct Hb1 as [Hr He]. split; [|cbn in He |- *; now rewrite He].
      eapply reachable_step; [eassumption|]. apply step_emit_seed_at. }
    apply wp_bind. destruct (negb _).
    + eapply wp_conseq; [eapply update_seeds_safe; eassumption| |auto].
      intros s st' Hb3. now apply IH.
    + apply wp_mret. now apply IH.
Qed.

Lemma expand_cluster_order_safe fuel db p eps min_pts v st :
  building h0 v st -> _is_processed (heap st p) = false ->
  wp (expand_cluster_order fuel db p eps min_pts v)
     (fun v' st' => building h0 v' st') (reachable h0) st.
Proof.
  intros Hb Hp. unfold expand_cluster_order.
  apply wp_bind, wp_assert; [intros _|apply Hb].
  apply wp_bind, wp_assert; [intros _|apply Hb].
  apply wp_bind, wp_pure; [auto with purity| |apply Hb]. intros N_eps _.
  apply wp_bind, wp_set_reachability_distance; [intros _|apply Hb].
  rewrite Hp.
  match goal with |- wp _ _ _ ?s => assert (Hb1 : building h0 v s) end.
  { destruct Hb as [Hr He]. split; [|exact He].
    eapply reachable_step; [eassumption|]. now constructor. }
  apply wp_bind, wp_pure; [auto with purity| |apply Hb1].
  intros [core_dist_p N_eps'] _.
  apply wp_bind, wp_processed.
  pose proof (building_processed _ _ p Hb1) as Hb2.
  apply wp_bind, wp_push_back_first.
  match goal with |- wp _ _ _ ?s => assert (Hb3 : building h0 (v ++ [p]) s) end.
  { destruct Hb2 as [Hr He]. split; [|cbn in He |- *; now rewrite He].
    cbn [heap trace] in *. rewrite !upd_same. cbn [with_processed _reachability_distance with_reachability].
    eapply reachable_step; [eassumption|].
    apply step_emit_first_at; rewrite !upd_same; reflexivity. }
  destruct (_ =? UNDEFINED); [apply wp_mret; assumption|].
  apply wp_bind.
  eapply wp_conseq; [eapply update_seeds_safe; eassumption| |auto].
  intros s st' Hb4. now apply expand_loop_safe.
Qed.

Lemma optics_loop_safe fuel db eps min_pts :
  forall it v st,
    building h0 v st ->
    wp (optics_loop fuel db it eps min_pts v)
       (fun v' st' => building h0 v' st') (reachable h0) st.
Proof.
  induction it as [|p it IH]; intros v st Hb; simpl.
  - apply wp_mret. assumption.
  - apply wp_bind, wp_gets.
    destruct (_is_processed (heap st p)) eqn:Hp; [now apply IH|].
    apply wp_bind.
    eapply wp_conseq; [eapply expand_cluster_order_safe; eassumption| |auto].
    intros v' st' Hb'. now apply IH.
Qed.

Lemma optics_safe fuel db eps min_pts :
  wp (optics fuel db eps min_pts)
     (fun v st' => building h0 v st') (reachable h0) (start h0).
Proof.
  assert (Hb : building h0 [] (start h0)) by (split; [constructor|reflexivity]).
  unfold optics.
  apply wp_bind, wp_assert; [intros _|apply Hb].
  apply wp_bind, wp_assert; [intros _|apply Hb].
  now apply optics_loop_safe.
Qed.

End Safety.

(** ** What holds in every state a run can be in *)

Lemma with_processed_true_id o :
  _is_processed o = true -> with_processed true o = o.
Proof. destruct o as [d r b]. simpl. now intros ->. Qed.

Lemma step_sentinel_kept st st' :
  step st st' -> sentinel_kept st -> sentinel_kept st'.
Proof.
  intros Hs [Ha Hq]. destruct Hs as [st o d Ho|st p|st p Hr Hp|st q]; split; simpl.
  - intros p r [Hin|Hin]; [discriminate|].
    destruct (Ha p r Hin) as (-> & Hr & Hp).
    assert (p <> o) by congruence.
    rewrite upd_other by assumption. auto.
  - split; [|assumption]. intros r Hin.
    destruct (Ha o r Hin) as (_ & _ & Hp). congruence.
  - intros q r [Hin|Hin]; [discriminate|].
    destruct (Ha q r Hin) as (-> & Hr & Hp).
    destruct (Pos.eq_dec q p) as [->|Hne].
    + rewrite upd_same. auto.
    + rewrite upd_other by assumption. auto.
  - auto.
  - intros q r [Hin|Hin]; [|now apply Ha].
    injection Hin as <- <-. auto.
  - auto.
  - intros p r [Hin|Hin]; [discriminate|now apply Ha].
  - auto.
Qed.

Lemma steps_sentinel_kept st st' :
  steps st st' -> sentinel_kept st -> sentinel_kept st'.
Proof.
  induction 1 as [|st1 st2 st3 _ IH Hs]; [auto|].
  intros Hk. eapply step_sentinel_kept; eauto.
Qed.

Lemma quiet_app t1 t2 p w o n r :
  quiet (t1 ++ t2) -> In (EvReach p w o n) t1 -> ~ In (EvEmitFirst p r) t2.
Proof.
  induction t1 as [|e t1 IH]; simpl; [tauto|].
  intros [He Hq] [->|Hin]; [|now apply IH].
  intros Hin. apply (He r). apply in_or_app. now right.
Qed.

(** A processed point is never written again. *)
Lemma step_processed_frozen st st' p :
  step st st' -> _is_processed (heap st p) = true -> heap st' p = heap st p.
Proof.
  intros Hs Hp. destruct Hs as [st o d Ho|st q|st q Hr Hq|st q]; simpl; auto.
  - rewrite upd_other; [reflexivity|congruence].
  - destruct (Pos.eq_dec p q) as [->|Hne].
    + rewrite upd_same. now apply with_processed_true_id.
    + now rewrite upd_other.
Qed.

Lemma steps_processed_frozen st st' p :
  steps st st' -> _is_processed (heap st p) = true -> heap st' p = heap st p.
Proof.
  induction 1 as [|st1 st2 st3 _ IH Hs]; [auto|].
  intros Hp. rewrite <- (IH Hp).
  apply step_processed_frozen; [assumption|]. now rewrite (IH Hp).
Qed.

(** The state in which a run of [optics] ends is reachable, and the vector
    it returns lists the emissions of the trace. *)
Lemma optics_run_reachable `{FloatArithmetic} `{StdAlgorithm} fuel db eps min_pts h :
  let out := run (optics fuel db eps min_pts) h in
  steps (start h) (snd out) /\
  forall v, fst out = Ok v -> emitted (trace (snd out)) = v.
Proof.
  pose proof (optics_safe h fuel db eps min_pts) as Hs.
  unfold wp, run in *.
  destruct (optics fuel db eps min_pts (start h)) as [[v|msg| |] st'];
    simpl; (split; [try apply Hs|intros v' Hv; try discriminate]).
  injection Hv as <-. apply Hs.
Qed.

(** C7.  In every run of [optics], a point pushed to the ordering as the
    first point of an expansion is pushed with reachability UNDEFINED, no
    reachability distance is written to it afterwards, and it holds
    UNDEFINED when the run ends; a returned ordering lists exactly the
    emissions, so the point is in it. *)
Theorem first_emission_sentinel `{FloatArithmetic} `{StdAlgorithm} fuel db eps min_pts h :
  forall earlier p r later,
    history (snd (run (optics fuel db eps min_pts) h))
      = earlier ++ EvEmitFirst p r :: later ->
    r = UNDEFINED /\
    (forall w old new, ~ In (EvReach p w old new) later) /\
    _reachability_distance (heap (snd (run (optics fuel db eps min_pts) h)) p)
      = UNDEFINED /\
    (forall v, fst (run (optics fuel db eps min_pts) h) = Ok v -> In p v).
Proof.
  intros earlier p r later Hh.
  destruct (optics_run_reachable fuel db eps min_pts h) as [Hs Hv].
  set (st := snd (run (optics fuel db eps min_pts) h)) in *.
  assert (Hk : sentinel_kept st).
  { eapply steps_sentinel_kept; [exact Hs|]. split; simpl; tauto. }
  assert (Ht : trace st = rev later ++ EvEmitFirst p r :: rev earlier).
  { unfold history in Hh. rewrite <- (rev_involutive (trace st)), Hh.
    rewrite rev_app_distr. simpl. now rewrite <- app_assoc. }
  destruct Hk as [Ha Hq].
  assert (Hin : In (EvEmitFirst p r) (trace st)).
  { rewrite Ht. apply in_or_app. right. now left. }
  destruct (Ha p r Hin) as (-> & Hr & _).
  repeat split; [|assumption|].
  - intros w old new Hw. rewrite Ht in Hq.
    apply (quiet_app _ _ p w old new UNDEFINED Hq); [rewrite <- in_rev; assumption|now left].
  - intros v Hok. rewrite <- (Hv v Hok), Ht.
    clear. induction (rev later) as [|e t IH]; simpl.
    + apply in_or_app. right. now left.
    + destruct e; try assumption; apply in_or_app; now left.
Qed.

Lemma first_emission_sentinel_witness :
  _reachability_distance
    (heap (snd (run (optics 5 [5; 3; 7; 2; 9]%positive 2 2) square_and_far)) 9%positive)
  = UNDEFINED.
Proof.
  refine (proj1 (proj2 (proj2
    (first_emission_sentinel 5 [5; 3; 7; 2; 9]%positive 2 2 square_and_far
       [EvReach 5 false UNDEFINED UNDEFINED; EvProcessed 5;
        EvEmitFirst 5 UNDEFINED;
        EvReach 7 false UNDEFINED 1; EvReach 3 false UNDEFINED 1;
        EvReach 2 false UNDEFINED 2;
        EvProcessed 3; EvEmitSeed 3 1; EvReach 2 false 2 1;
        EvProcessed 2; EvEmitSeed 2 1; EvProcessed 7; EvEmitSeed 7 1;
        EvReach 9 false UNDEFINED UNDEFINED; EvProcessed 9]
       9%positive UNDEFINED [] _)))).
  vm_compute. reflexivity.
Defined.

(** ** Parameter checks at entry *)

(** C9.  Called with a negative [eps] or with [min_pts = 0], both versions
    of [optics] end in an assertion failure on the parameter, in the very
    state in which they were entered (no object changed, nothing recorded),
    and return no ordering. *)
Theorem optics_rejects_invalid_parameters `{FloatArithmetic} `{StdAlgorithm}
  fuel db eps min_pts callback st :
  eps < 0 \/ min_pts = 0%nat ->
  (InvalidParameter (fst (optics fuel db eps min_pts st)) /\
   snd (optics fuel db eps min_pts st) = st) /\
  (InvalidParameter (fst (optics_cb callback fuel db eps min_pts st)) /\
   snd (optics_cb callback fuel db eps min_pts st) = st).
Proof.
  intros Hbad. unfold optics, optics_cb, bind, assert, InvalidParameter.
  destruct (Z.leb_spec 0 eps) as [Heps|Heps]; simpl; [|auto].
  destruct (Nat.ltb_spec 0 min_pts) as [Hmin|Hmin]; simpl; [lia|auto].
Qed.

Lemma optics_rejects_invalid_parameters_witness :
  InvalidParameter (fst (run (optics 2 [1; 2]%positive (-1) 1) two_points)) /\
  InvalidParameter (fst (run (optics 2 [1; 2]%positive 2 0) two_points)).
Proof.
  split.
  - exact (proj1 (proj1 (optics_rejects_invalid_parameters
             2 [1; 2]%positive (-1) 1%nat recording_callback (start two_points)
             (or_introl eq_refl)))).
  - exact (proj1 (proj1 (optics_rejects_invalid_parameters
             2 [1; 2]%positive 2 0%nat recording_callback (start two_points)
             (or_intror eq_refl)))).
Defined.

(** ** The progress callback *)

(** C1 (what the code does).  On two points within [eps] of each other the
    callback version emits point 1 and then point 2, and calls the callback
    with point 1 both times: the call in the loop over the seeds passes the
    start point [p] of the expansion, not the point [q] just emitted.  So
    the points the callback receives are not the points emitted. *)
Theorem callback_receives_start_point :
  fst (run (optics_cb recording_callback 2 [1; 2]%positive 2 1) two_points)
    = Ok [1; 2]%positive /\
  history (snd (run (optics_cb recording_callback 2 [1; 2]%positive 2 1) two_points))
    = [EvReach 1 false UNDEFINED UNDEFINED; EvProcessed 1;
       EvEmitFirst 1 UNDEFINED; EvCallback 1;
       EvReach 2 false UNDEFINED 1; EvProcessed 2;
       EvEmitSeed 2 1; EvCallback 1] /\
  emitted (trace (snd (run (optics_cb recording_callback 2 [1; 2]%positive 2 1)
                         two_points)))
    = [1; 2]%positive /\
  called (trace (snd (run (optics_cb recording_callback 2 [1; 2]%positive 2 1)
                        two_points)))
    = [1; 1]%positive.
Proof. vm_compute. repeat split; reflexivity. Qed.

(** ** The top-k peak finder *)

Lemma firstn_succ_nth_error {A} (l : list A) i e :
  nth_error l i = Some e -> firstn (S i) l = firstn i l ++ [e].
Proof.
  revert i. induction l as [|x l IH]; intros [|i] Hn; simpl in *; try discriminate.
  - now injection Hn as ->.
  - f_equal. now apply IH.
Qed.

Lemma StronglySorted_app_inv {A} (R : A -> A -> Prop) (l1 l2 : list A) :
  StronglySorted R (l1 ++ l2) ->
  StronglySorted R l1 /\ StronglySorted R l2 /\
  (forall x y, In x l1 -> In y l2 -> R x y).
Proof.
  induction l1 as [|a l1 IH]; simpl; intros Hs.
  - repeat split; [constructor|assumption|contradiction].
  - apply StronglySorted_inv in Hs. destruct Hs as [Hs Ha].
    destruct (IH Hs) as (H1 & H2 & H12).
    rewrite Forall_forall in Ha.
    repeat split; [constructor|assumption|].
    + assumption.
    + rewrite Forall_forall. intros x Hx. apply Ha, in_or_app. now left.
    + intros x y [<-|Hx] Hy; [apply Ha, in_or_app; now right|now apply H12].
Qed.

Lemma StronglySorted_snoc {A} (R : A -> A -> Prop) (l : list A) a :
  StronglySorted R l -> (forall x, In x l -> R x a) -> StronglySorted R (l ++ [a]).
Proof.
  induction 1 as [|b l Hs IH Hb]; simpl; intros Ha.
  - constructor; constructor.
  - constructor.
    + apply IH. intros x Hx. apply Ha. now right.
    + rewrite Forall_forall in *. intros x Hx.
      apply in_app_or in Hx. destruct Hx as [Hx|[<-|[]]]; [now apply Hb|].
      apply Ha. now left.
Qed.

Lemma StronglySorted_reverse {A} (R : A -> A -> Prop) (l : list A) :
  StronglySorted R l -> StronglySorted (fun a b => R b a) (rev l).
Proof.
  induction 1 as [|a l Hs IH Ha]; simpl; [constructor|].
  apply StronglySorted_snoc; [assumption|].
  rewrite Forall_forall in Ha. intros x Hx. apply Ha. now apply in_rev.
Qed.

Lemma find_k_loop_spec extrema n_clusters :
  forall i1 n ret,
    (i1 <= length extrema)%nat ->
    find_k_loop extrema i1 n n_clusters ret
    = Ok (ret ++ map (fun e => to_unsigned (MaxIndex e))
                    (firstn (n_clusters - n) (rev (firstn i1 extrema)))).
Proof.
  induction i1 as [|i IH]; intros n ret Hi; simpl find_k_loop.
  - simpl. rewrite firstn_nil. simpl. now rewrite app_nil_r.
  - destruct (Nat.ltb_spec n n_clusters) as [Hlt|Hge].
    + destruct (nth_error extrema i) as [e|] eqn:He.
      * rewrite IH by lia.
        rewrite (firstn_succ_nth_error _ _ _ He), rev_app_distr. simpl rev.
        replace (n_clusters - n)%nat with (S (n_clusters - S n)) by lia.
        simpl. now rewrite <- app_assoc.
      * apply nth_error_None in He. lia.
    + replace (n_clusters - n)%nat with 0%nat by lia.
      simpl. now rewrite app_nil_r.
Qed.

(** C8.  For the paired extrema [extrema] that the persistence library
    yields, [find_k_histogram_peaks] returns the maximum indices of the last
    [k - 1] of them, last one first, and of all of them when there are fewer.
    So it returns at most [k - 1] indices; and when the library yields the
    extrema by ascending persistence, the returned ones come by descending
    persistence and none that is left out is more persistent than one that
    is returned. *)
Theorem find_k_histogram_peaks_top_k paired_extrema reachabilities k :
  let extrema := paired_extrema reachabilities 0 in
  let chosen := firstn (k - 1) (rev extrema) in
  find_k_histogram_peaks paired_extrema reachabilities k
    = Ok (map (fun e => to_unsigned (MaxIndex e)) chosen) /\
  (length chosen <= k - 1)%nat /\
  ((length extrema < k - 1)%nat -> chosen = rev extrema) /\
  (StronglySorted (fun a b => Persistence a <= Persistence b) extrema ->
   StronglySorted (fun a b => Persistence b <= Persistence a) chosen /\
   forall c e, In c chosen -> In e (skipn (k - 1) (rev extrema)) ->
               Persistence e <= Persistence c).
Proof.
  intros extrema chosen. split; [|split; [|split]].
  - unfold find_k_histogram_peaks. fold extrema.
    rewrite find_k_loop_spec by lia. now rewrite firstn_all.
  - apply firstn_le_length.
  - intros Hfew. unfold chosen. apply firstn_all2. rewrite length_rev. lia.
  - intros Hsorted. apply StronglySorted_reverse in Hsorted.
    rewrite <- (firstn_skipn (k - 1) (rev extrema)) in Hsorted.
    apply StronglySorted_app_inv in Hsorted.
    destruct Hsorted as (Hchosen & _ & Hcross).
    split; [exact Hchosen|]. intros c e Hc He. now apply Hcross.
Qed.

Lemma find_k_histogram_peaks_top_k_witness :
  find_k_histogram_peaks
    (fun _ _ => [mkPairedExtrema 0 3 1; mkPairedExtrema 2 5 4; mkPairedExtrema 1 7 9])
    [4; 1; 5; 2; 9; 0; 3; 12] 3
  = Ok [7; 5] /\
  StronglySorted (fun a b => Persistence b <= Persistence a)
    [mkPairedExtrema 1 7 9; mkPairedExtrema 2 5 4].
Proof.
  pose proof (find_k_histogram_peaks_top_k
    (fun _ _ => [mkPairedExtrema 0 3 1; mkPairedExtrema 2 5 4; mkPairedExtrema 1 7 9])
    [4; 1; 5; 2; 9; 0; 3; 12] 3) as (Hrun & _ & _ & Hsorted).
  split; [exact Hrun|].
  apply Hsorted. repeat constructor; simpl; lia.
Defined.

(** ** Cluster extraction *)

Lemma skipn_nth_error {A} (l : list A) j p :
  nth_error l j = Some p -> skipn j l = p :: skipn (S j) l.
Proof.
  revert j. induction l as [|x l IH]; intros [|j] Hn; simpl in *; try discriminate.
  - now injection Hn as ->.
  - now apply IH.
Qed.

Lemma extract_segment_spec result threshold st :
  forall count j outliers clusters cluster_i,
    (j + count <= length result)%nat ->
    extract_segment result threshold j count (outliers :: clusters) cluster_i st
    = (Ok ((outliers
              ++ filter (is_outlier (heap st) threshold) (firstn count (skipn j result)))
             :: clusters,
           cluster_i
             ++ filter (is_inlier (heap st) threshold) (firstn count (skipn j result))),
       st).
Proof.
  induction count as [|count IH]; intros j outliers clusters cluster_i Hj.
  - simpl. now rewrite !app_nil_r.
  - destruct (nth_error result j) as [p|] eqn:Hp;
      [|apply nth_error_None in Hp; lia].
    rewrite (skipn_nth_error _ _ _ Hp).
    simpl. unfold at_index. rewrite Hp.
    unfold bind, mret, reachability_distance, gets, is_inlier, is_outlier. simpl.
    destruct (threshold <? _reachability_distance (heap st p)); simpl.
    + rewrite IH by lia. now rewrite <- app_assoc.
    + rewrite IH by lia. now rewrite <- app_assoc.
Qed.

Lemma lower_idx_spec (done rest : list nat) st :
  (if Nat.eqb (length done) 0 then mret 0%nat
   else at_index (done ++ rest) (length done - 1)) st
  = (Ok (last done 0%nat), st).
Proof.
  destruct done as [|d done] using rev_ind; [reflexivity|].
  rewrite length_app, last_last.
  replace (length done + length [d])%nat with (S (length done)) by (simpl; lia).
  simpl Nat.eqb. unfold at_index.
  rewrite <- app_assoc, nth_error_app2 by lia.
  now replace (S (length done) - 1 - length done)%nat with 0%nat by lia.
Qed.

Lemma upper_idx_spec (done rest : list nat) (n : nat) st :
  (if Nat.eqb (length done) (length (done ++ rest)) then mret n
   else at_index (done ++ rest) (length done)) st
  = (Ok (match rest with [] => n | b :: _ => b end), st).
Proof.
  rewrite length_app. destruct rest as [|b rest].
  - simpl length. rewrite Nat.add_0_r, Nat.eqb_refl. reflexivity.
  - destruct (Nat.eqb_spec (length done) (length done + length (b :: rest)))
      as [E|_]; [simpl in E; lia|].
    unfold at_index. now rewrite nth_error_app2, Nat.sub_diag by lia.
Qed.

Lemma bind_run {A B} (m : M A) (f : A -> M B) st a st' :
  m st = (Ok a, st') -> bind m f st = f a st'.
Proof. unfold bind. now intros ->. Qed.

Lemma extract_clusters_loop_eq result cluster_borders threshold i count ret :
  extract_clusters_loop result cluster_borders threshold i (S count) ret
  = (lower_idx <- (if Nat.eqb i 0 then mret 0%nat
                   else at_index cluster_borders (i - 1)) ;;
     upper_idx <- (if Nat.eqb i (length cluster_borders)
                   then mret (unsigned_int (length result))
                   else at_index cluster_borders i) ;;
     seg <- extract_segment result threshold lower_idx
              (upper_idx - lower_idx) ret [] ;;
     let '(ret', cluster_i) := seg in
     extract_clusters_loop result cluster_borders threshold (S i) count
       (ret' ++ [cluster_i])).
Proof. reflexivity. Qed.

Lemma last_le_length (done rest : list nat) (n : nat) :
  (forall b, In b (done ++ rest) -> (b <= n)%nat) -> (last done 0 <= n)%nat.
Proof.
  intros Hrange. destruct done as [|d done _] using rev_ind; [simpl; lia|].
  rewrite last_last. apply Hrange.
  apply in_or_app. left. apply in_or_app. right. now left.
Qed.

Lemma extract_clusters_loop_spec result threshold st :
  representable (length result) ->
  forall rest done outliers clusters,
    (forall b, In b (done ++ rest) -> (b <= length result)%nat) ->
    extract_clusters_loop result (done ++ rest) threshold
      (length done) (S (length rest)) (outliers :: clusters) st
    = (Ok ((outliers
              ++ filter (is_outlier (heap st) threshold)
                   (concat (segments_from result (last done 0%nat) rest)))
             :: clusters
                  ++ map (filter (is_inlier (heap st) threshold))
                       (segments_from result (last done 0%nat) rest)),
       st).
Proof.
  intros Hsize.
  induction rest as [|b rest IH]; intros done outliers clusters Hrange;
    pose proof (last_le_length _ _ _ Hrange) as Hlow;
    rewrite extract_clusters_loop_eq;
    erewrite bind_run by apply lower_idx_spec;
    erewrite bind_run by apply upper_idx_spec.
  - rewrite unsigned_int_small by assumption.
    erewrite bind_run by (apply extract_segment_spec; lia).
    simpl. now rewrite !app_nil_r.
  - assert (Hb : (b <= length result)%nat).
    { apply Hrange, in_or_app. right. now left. }
    erewrite bind_run by (apply extract_segment_spec; lia).
    cbv beta iota.
    replace (done ++ b :: rest) with ((done ++ [b]) ++ rest)
      by (now rewrite <- app_assoc).
    replace (S (length done)) with (length (done ++ [b]))
      by (rewrite length_app; simpl; lia).
    rewrite <- app_comm_cons.
    rewrite IH.
    + rewrite last_last. simpl.
      rewrite filter_app, <- !app_assoc. reflexivity.
    + intros x Hx. apply Hrange. now rewrite <- app_assoc in Hx.
Qed.

Lemma extract_clusters_spec result cluster_borders outlier_threshold st :
  representable (length result) ->
  (forall b, In b cluster_borders -> (b <= length result)%nat) ->
  extract_clusters result cluster_borders outlier_threshold st
  = (Ok (filter (is_outlier (heap st) (effective_threshold outlier_threshold))
           (concat (segments_from result 0 cluster_borders))
         :: map (filter (is_inlier (heap st) (effective_threshold outlier_threshold)))
              (segments_from result 0 cluster_borders)),
     st).
Proof.
  intros Hsize Hrange. unfold extract_clusters.
  exact (extract_clusters_loop_spec result _ st Hsize cluster_borders [] [] [] Hrange).
Qed.

Lemma concat_segments_from result :
  forall borders lower,
    Sorted le (lower :: borders) ->
    concat (segments_from result lower borders) = skipn lower result.
Proof.
  induction borders as [|b rest IH]; intros lower Hs; simpl.
  - rewrite app_nil_r. apply firstn_all2. rewrite length_skipn. lia.
  - apply Sorted_inv in Hs. destruct Hs as [Hs Hhd].
    apply HdRel_inv in Hhd.
    rewrite (IH b Hs).
    replace (skipn b result) with (skipn (b - lower) (skipn lower result)).
    + apply firstn_skipn.
    + rewrite skipn_skipn. f_equal. lia.
Qed.

Lemma filter_split_Permutation {A} (f : A -> bool) (l : list A) :
  Permutation (filter f l ++ filter (fun x => negb (f x)) l) l.
Proof.
  induction l as [|x l IH]; simpl; [constructor|].
  destruct (f x); simpl.
  - now constructor.
  - rewrite <- Permutation_middle. now constructor.
Qed.

(** The buckets in closed form, for ascending borders inside the ordering. *)
Lemma extract_clusters_buckets result cluster_borders outlier_threshold st :
  representable (length result) ->
  Sorted le cluster_borders ->
  (forall b, In b cluster_borders -> (b <= length result)%nat) ->
  extract_clusters result cluster_borders outlier_threshold st
    = (Ok (filter (is_outlier (heap st) (effective_threshold outlier_threshold)) result
           :: map (filter (is_inlier (heap st) (effective_threshold outlier_threshold)))
                (segments_from result 0 cluster_borders)),
       st) /\
  concat (segments_from result 0 cluster_borders) = result.
Proof.
  intros Hsize Hsorted Hrange.
  assert (Hcat : concat (segments_from result 0 cluster_borders) = result).
  { apply (concat_segments_from result cluster_borders 0%nat).
    constructor; [assumption|].
    destruct cluster_borders; constructor. lia. }
  split; [|exact Hcat].
  rewrite extract_clusters_spec by assumption. now rewrite Hcat.
Qed.

Lemma segments_from_length result borders :
  forall lower, length (segments_from result lower borders) = (length borders + 1)%nat.
Proof.
  induction borders as [|b rest IH]; intros lower; simpl;
    [reflexivity|now rewrite IH].
Qed.

(** C6.  For an ascending border list with indices inside the ordering (an
    ordering whose size [unsigned int] can hold), [extract_clusters] returns [|B| + 2] buckets: first the outlier bucket,
    then one bucket per segment, empty ones included.  The outlier bucket
    holds the points of the ordering above the threshold, the bucket of a
    segment the other points of that segment, and together the buckets are
    a rearrangement of the ordering: each entry of the ordering is in
    exactly one bucket. *)
Theorem extract_clusters_partition result cluster_borders outlier_threshold st :
  representable (length result) ->
  Sorted le cluster_borders ->
  (forall b, In b cluster_borders -> (b <= length result)%nat) ->
  exists outliers clusters,
    extract_clusters result cluster_borders outlier_threshold st
      = (Ok (outliers :: clusters), st) /\
    length (outliers :: clusters) = (length cluster_borders + 2)%nat /\
    length clusters = (length cluster_borders + 1)%nat /\
    concat (segments_from result 0 cluster_borders) = result /\
    outliers
      = filter (is_outlier (heap st) (effective_threshold outlier_threshold)) result /\
    clusters
      = map (filter (is_inlier (heap st) (effective_threshold outlier_threshold)))
          (segments_from result 0 cluster_borders) /\
    Permutation (concat (outliers :: clusters)) result /\
    (NoDup result -> NoDup (concat (outliers :: clusters))).
Proof.
  intros Hsize Hsorted Hrange.
  destruct (extract_clusters_buckets result cluster_borders outlier_threshold st
              Hsize Hsorted Hrange) as [Hrun Hcat].
  assert (Hperm : Permutation
            (concat
               (filter (is_outlier (heap st) (effective_threshold outlier_threshold))
                  result
                :: map (filter (is_inlier (heap st)
                                  (effective_threshold outlier_threshold)))
                     (segments_from result 0 cluster_borders)))
            result).
  { simpl. rewrite concat_filter_map, Hcat. apply filter_split_Permutation. }
  eexists _, _. split; [exact Hrun|].
  repeat split; try reflexivity.
  - simpl. rewrite length_map, segments_from_length. lia.
  - now rewrite length_map, segments_from_length.
  - exact Hcat.
  - exact Hperm.
  - intros Hnd. eapply Permutation_NoDup; [apply Permutation_sym, Hperm|assumption].
Qed.

Lemma extract_clusters_partition_witness :
  fst (extract_clusters [5; 3; 2; 7; 9]%positive [2%nat] 1
         (snd (run (optics 5 [5; 3; 7; 2; 9]%positive 2 2) square_and_far)))
  = Ok [[5; 9]; [3]; [2; 7]]%positive.
Proof.
  destruct (extract_clusters_partition [5; 3; 2; 7; 9]%positive [2%nat] 1
              (snd (run (optics 5 [5; 3; 7; 2; 9]%positive 2 2) square_and_far)))
    as (outliers & clusters & Hrun & _ & _ & _ & -> & -> & _).
  - unfold representable. simpl. lia.
  - repeat constructor.
  - intros b [<-|[]]. simpl. lia.
  - rewrite Hrun. vm_compute. reflexivity.
Defined.

(** C10.  With a threshold strictly between 0 and UNDEFINED (and ascending
    borders inside an ordering whose size [unsigned int] can hold), every
    point of the ordering whose reachability is UNDEFINED is in the outlier
    bucket and in no other bucket. *)
Theorem undefined_points_are_outliers result cluster_borders outlier_threshold st :
  0 < outlier_threshold < UNDEFINED ->
  representable (length result) ->
  Sorted le cluster_borders ->
  (forall b, In b cluster_borders -> (b <= length result)%nat) ->
  exists outliers clusters,
    extract_clusters result cluster_borders outlier_threshold st
      = (Ok (outliers :: clusters), st) /\
    forall p,
      In p result -> _reachability_distance (heap st p) = UNDEFINED ->
      In p outliers /\ forall c, In c clusters -> ~ In p c.
Proof.
  intros Hthr Hsize Hsorted Hrange.
  destruct (extract_clusters_buckets result cluster_borders outlier_threshold st
              Hsize Hsorted Hrange) as [Hrun _].
  eexists _, _. split; [exact Hrun|].
  intros p Hp Hundef.
  assert (Hout : is_outlier (heap st) (effective_threshold outlier_threshold) p = true).
  { unfold is_outlier, effective_threshold. rewrite Hundef.
    destruct (Z.leb_spec outlier_threshold 0); [lia|]. apply Z.ltb_lt. lia. }
  split.
  - apply filter_In. auto.
  - intros c Hc Hin. apply in_map_iff in Hc. destruct Hc as (seg & <- & _).
    apply filter_In in Hin. destruct Hin as [_ Hin].
    unfold is_inlier in Hin. rewrite Hout in Hin. discriminate.
Qed.

Lemma undefined_points_are_outliers_witness :
  exists outliers clusters,
    extract_clusters [5; 3; 2; 7; 9]%positive [2%nat] 1
      (snd (run (optics 5 [5; 3; 7; 2; 9]%positive 2 2) square_and_far))
    = (Ok (outliers :: clusters),
       snd (run (optics 5 [5; 3; 7; 2; 9]%positive 2 2) square_and_far)) /\
    In 9%positive outliers.
Proof.
  destruct (undefined_points_are_outliers [5; 3; 2; 7; 9]%positive [2%nat] 1
              (snd (run (optics 5 [5; 3; 7; 2; 9]%positive 2 2) square_and_far)))
    as (outliers & clusters & Hrun & Hout).
  - unfold UNDEFINED. lia.
  - unfold representable. simpl. lia.
  - repeat constructor.
  - intros b [<-|[]]. simpl. lia.
  - exists outliers, clusters. split; [exact Hrun|].
    apply Hout; [simpl; tauto|vm_compute; reflexivity].
Defined.

(** ** Distances and the core distance *)

Lemma squared_distance_loop_lower `{FloatArithmetic} a_data : forall b_data ret,
  ret <= squared_distance_loop a_data b_data ret.
Proof.
  induction a_data as [|x a IH]; intros [|y b] ret;
    cbn [squared_distance_loop]; try lia.
  specialize (IH b (add_squared_difference ret x y)).
  pose proof (add_squared_difference_lower ret x y). lia.
Qed.


Lemma sqdist_nonneg `{FloatArithmetic} h a b : 0 <= sqdist h a b.
Proof. apply squared_distance_loop_lower. Qed.


Lemma squared_distance_ok `{FloatArithmetic} a b st :
  representable (dim (heap st) a) ->
  dim (heap st) a = dim (heap st) b ->
  squared_distance a b st = (Ok (sqdist (heap st) a b), st).
Proof.
  unfold dim, squared_distance, bind, data, gets, assert. simpl.
  intros Hsmall Hdim. rewrite (unsigned_int_small _ Hsmall), Hdim.
  now rewrite Nat.eqb_refl.
Qed.

Lemma comparator_assertions_ok `{FloatArithmetic} p v st :
  representable (dim (heap st) p) ->
  (forall a, In a v -> dim (heap st) a = dim (heap st) p) ->
  comparator_assertions p v st = (Ok tt, st).
Proof.
  intros Hsmall.
  induction v as [|a v IH]; intros Hdim; simpl; [reflexivity|].
  erewrite bind_run
    by (apply squared_distance_ok; [assumption|symmetry; apply Hdim; now left]).
  apply IH. intros b Hb. apply Hdim. now right.
Qed.

Lemma strict_weak_order_key (key : addr -> Z) :
  strict_weak_order (fun a b => key a <? key b).
Proof.
  repeat split; intros *.
  - apply Z.ltb_irrefl.
  - rewrite !Z.ltb_lt. lia.
  - rewrite !Z.ltb_ge in *. lia.
  - rewrite !Z.ltb_ge in *. lia.
Qed.

Lemma squared_core_distance_few `{FloatArithmetic} `{StdAlgorithm} p min_pts N_eps st :
  (1 <= min_pts)%nat -> (length N_eps <= min_pts)%nat ->
  squared_core_distance p min_pts N_eps st = (Ok (UNDEFINED, N_eps), st).
Proof.
  intros Hmin Hfew. unfold squared_core_distance, bind, assert.
  destruct (Nat.ltb_spec 0 min_pts); [|lia].
  destruct (Nat.ltb_spec min_pts (length N_eps)); [lia|reflexivity].
Qed.

Lemma squared_core_distance_many `{FloatArithmetic} `{StdAlgorithm} p min_pts N_eps st :
  (1 <= min_pts)%nat -> (min_pts < length N_eps)%nat ->
  representable (dim (heap st) p) ->
  (forall a, In a N_eps -> dim (heap st) a = dim (heap st) p) ->
  exists before pivot after,
    squared_core_distance p min_pts N_eps st
      = (Ok (sqdist (heap st) p pivot, before ++ pivot :: after), st) /\
    length before = min_pts /\
    Permutation N_eps (before ++ pivot :: after) /\
    Forall (fun x => sqdist (heap st) p x <= sqdist (heap st) p pivot) before /\
    Forall (fun x => sqdist (heap st) p pivot <= sqdist (heap st) p x) after.
Proof.
  intros Hmin Hmany Hsmall Hdim.
  destruct (nth_element_spec
              (fun a b => sqdist (heap st) p a <? sqdist (heap st) p b)
              min_pts N_eps (strict_weak_order_key _) Hmany)
    as (before & pivot & after & Hnth & Hlen & Hperm & Hb & Ha).
  exists before, pivot, after. repeat split; try assumption.
  - unfold squared_core_distance.
    erewrite bind_run by (unfold assert; destruct (Nat.ltb_spec 0 min_pts);
                          [reflexivity|lia]).
    destruct (Nat.ltb_spec min_pts (length N_eps)); [|lia].
    erewrite bind_run by (now apply comparator_assertions_ok).
    erewrite bind_run by reflexivity.
    cbv zeta. rewrite Hnth.
    erewrite bind_run.
    2:{ unfold at_index. rewrite nth_error_app2, Hlen, Nat.sub_diag by lia.
        reflexivity. }
    erewrite bind_run; [reflexivity|].
    apply squared_distance_ok; [assumption|]. symmetry. apply Hdim.
    apply (Permutation_in _ (Permutation_sym Hperm)), in_or_app. right. now left.
  - eapply Forall_impl; [|exact Hb]. intros x Hx. now apply Z.ltb_ge in Hx.
  - eapply Forall_impl; [|exact Ha]. intros x Hx. now apply Z.ltb_ge in Hx.
Qed.



(** ** The comparison functor and the seed set *)

Lemma precedes_spec h a b :
  precedes h a b = true <->
  _reachability_distance (h a) < _reachability_distance (h b) \/
  (_reachability_distance (h a) = _reachability_distance (h b) /\ (a < b)%positive).
Proof.
  unfold precedes.
  destruct (Z.ltb_spec (_reachability_distance (h a)) (_reachability_distance (h b)));
    [intuition lia|].
  destruct (Z.eqb_spec (_reachability_distance (h a)) (_reachability_distance (h b)));
    destruct (Pos.ltb_spec a b); simpl; intuition (try discriminate; try lia).
Qed.

Lemma precedes_false h a b :
  precedes h a b = false <->
  _reachability_distance (h b) < _reachability_distance (h a) \/
  (_reachability_distance (h a) = _reachability_distance (h b) /\ (b <= a)%positive).
Proof.
  pose proof (precedes_spec h a b) as Hs.
  destruct (precedes h a b).
  - split; [discriminate|]. intros Hf. assert (true = true) as Ht by reflexivity.
    apply Hs in Ht. lia.
  - split; [intros _|reflexivity].
    destruct (Z.lt_trichotomy (_reachability_distance (h a))
                (_reachability_distance (h b))) as [Hlt|[Heq|Hgt]].
    + assert (false = true) by (apply Hs; now left). discriminate.
    + right. split; [assumption|].
      destruct (Pos.ltb_spec a b) as [Hab|Hab]; [|assumption].
      assert (false = true) by (apply Hs; now right). discriminate.
    + now left.
Qed.

Lemma seed_order_irrefl h a : ~ seed_order h a a.
Proof. unfold seed_order. rewrite precedes_spec. lia. Qed.

Lemma seed_order_trans h a b c :
  seed_order h a b -> seed_order h b c -> seed_order h a c.
Proof. unfold seed_order. rewrite !precedes_spec. lia. Qed.

Lemma precedes_total h a b :
  precedes h a b = false -> precedes h b a = false -> a = b.
Proof. rewrite !precedes_false. lia. Qed.

Lemma Comp_ok lhs rhs st :
  dim (heap st) lhs = dim (heap st) rhs ->
  Comp_DataPoint_Ptr_f lhs rhs st = (Ok (precedes (heap st) lhs rhs), st).
Proof.
  unfold dim, Comp_DataPoint_Ptr_f, bind, data, reachability_distance, gets, assert,
    precedes.
  simpl. intros ->. rewrite Nat.eqb_refl.
  destruct (_ <? _); [reflexivity|]. now destruct (_ && _).
Qed.

Lemma StronglySorted_In_ext {A} (R R' : A -> A -> Prop) (l : list A) :
  (forall a b, In a l -> In b l -> R a b -> R' a b) ->
  StronglySorted R l -> StronglySorted R' l.
Proof.
  intros Hext Hs. induction Hs as [|a l Hs IH Ha]; constructor.
  - apply IH. intros x y Hx Hy. apply Hext; now right.
  - rewrite Forall_forall in *. intros x Hx.
    apply Hext; [now left|now right|now apply Ha].
Qed.

Lemma sorted_head_not_in h q seeds :
  StronglySorted (seed_order h) (q :: seeds) -> ~ In q seeds.
Proof.
  intros Hs Hin. apply StronglySorted_inv in Hs. destruct Hs as [_ Hq].
  rewrite Forall_forall in Hq. exact (seed_order_irrefl h q (Hq q Hin)).
Qed.

(** [insert] on a set in order: the result is in order and holds the new
    element and the old ones. *)
Lemma set_insert_ok x st :
  forall s,
    (forall y, In y s -> dim (heap st) y = dim (heap st) x) ->
    StronglySorted (seed_order (heap st)) s ->
    exists s',
      set_insert x s st = (Ok s', st) /\
      StronglySorted (seed_order (heap st)) s' /\
      (forall z, In z s' <-> z = x \/ In z s).
Proof.
  induction s as [|y s IH]; intros Hdim Hs.
  - exists [x]. split; [reflexivity|]. split; [repeat constructor|].
    intros z. simpl. intuition congruence.
  - cbn [set_insert].
    erewrite bind_run by (apply Comp_ok; symmetry; apply Hdim; now left).
    pose proof (StronglySorted_inv Hs) as [Hs' Hy].
    rewrite Forall_forall in Hy.
    destruct (precedes (heap st) x y) eqn:Hxy.
    + exists (x :: y :: s). split; [reflexivity|]. split.
      * constructor; [assumption|]. rewrite Forall_forall.
        intros z [<-|Hz]; [exact Hxy|].
        eapply seed_order_trans; [exact Hxy|now apply Hy].
      * intros z. simpl. intuition congruence.
    + erewrite bind_run by (apply Comp_ok; apply Hdim; now left).
      destruct (precedes (heap st) y x) eqn:Hyx.
      * destruct (IH (fun z Hz => Hdim z (or_intror Hz)) Hs')
          as (s' & Hrun & Hsorted & Hin).
        erewrite bind_run by exact Hrun.
        exists (y :: s'). split; [reflexivity|]. split.
        -- constructor; [assumption|]. rewrite Forall_forall.
           intros z Hz. apply Hin in Hz. destruct Hz as [->|Hz]; [exact Hyx|auto].
        -- intros z. simpl. rewrite Hin. intuition congruence.
      * assert (x = y) as <- by now apply (precedes_total (heap st)).
        exists (x :: s). split; [reflexivity|]. split; [assumption|].
        intros z. simpl. intuition congruence.
Qed.

(** [erase] on a set in order: the result is in order and holds the old
    elements but the erased one. *)
Lemma set_erase_ok x st :
  forall s,
    (forall y, In y s -> dim (heap st) y = dim (heap st) x) ->
    StronglySorted (seed_order (heap st)) s ->
    exists s',
      set_erase x s st = (Ok s', st) /\
      StronglySorted (seed_order (heap st)) s' /\
      (forall z, In z s' <-> In z s /\ z <> x).
Proof.
  induction s as [|y s IH]; intros Hdim Hs.
  - exists []. split; [reflexivity|]. split; [constructor|].
    intros z. simpl. tauto.
  - cbn [set_erase].
    erewrite bind_run by (apply Comp_ok; symmetry; apply Hdim; now left).
    pose proof (StronglySorted_inv Hs) as [Hs' Hy].
    rewrite Forall_forall in Hy.
    destruct (precedes (heap st) x y) eqn:Hxy.
    + exists (y :: s). split; [reflexivity|]. split; [assumption|].
      intros z. split; [|tauto]. intros Hz. split; [assumption|].
      intros ->. destruct Hz as [->|Hz].
      * exact (seed_order_irrefl _ _ Hxy).
      * apply (seed_order_irrefl (heap st) x).
        eapply seed_order_trans; [exact Hxy|now apply Hy].
    + erewrite bind_run by (apply Comp_ok; apply Hdim; now left).
      destruct (precedes (heap st) y x) eqn:Hyx.
      * destruct (IH (fun z Hz => Hdim z (or_intror Hz)) Hs')
          as (s' & Hrun & Hsorted & Hin).
        erewrite bind_run by exact Hrun.
        exists (y :: s'). split; [reflexivity|]. split.
        -- constructor; [assumption|]. rewrite Forall_forall.
           intros z Hz. apply Hin in Hz. apply Hy, Hz.
        -- intros z. simpl. rewrite Hin.
           assert (y <> x) by (intros ->; exact (seed_order_irrefl _ _ Hyx)).
           intuition congruence.
      * assert (x = y) as <- by now apply (precedes_total (heap st)).
        exists s. split; [reflexivity|]. split; [assumption|].
        intros z. simpl. split.
        -- intros Hz. split; [now right|].
           intros ->. exact (seed_order_irrefl _ _ (Hy _ Hz)).
        -- intuition congruence.
Qed.

(** ** Runs on valid input *)

Lemma wp_run_eq {A} (m : M A) Q E st a st' :
  m st = (Ok a, st') -> Q a st' -> wp m Q E st.
Proof. unfold wp. now intros ->. Qed.

Lemma wp_set_reachability_distance_ok p d Q E st :
  0 <= d ->
  Q tt (mkState (upd (heap st) p (with_reachability d))
          (EvReach p (_is_processed (heap st p))
             (_reachability_distance (heap st p)) d :: trace st)) ->
  wp (set_reachability_distance p d) Q E st.
Proof.
  intros Hd HQ. unfold wp, set_reachability_distance, bind, assert. simpl.
  destruct (Z.leb_spec 0 d); [exact HQ|lia].
Qed.

Lemma wp_assert_ok b msg Q E st : b = true -> Q tt st -> wp (assert b msg) Q E st.
Proof. intros -> HQ. exact HQ. Qed.

Lemma upd_reach_data h o d p : _data (upd h o (with_reachability d) p) = _data (h p).
Proof. unfold upd. now destruct (Pos.eqb p o). Qed.

Lemma upd_reach_flag h o d p :
  _is_processed (upd h o (with_reachability d) p) = _is_processed (h p).
Proof. unfold upd. now destruct (Pos.eqb p o). Qed.

Lemma upd_flag_data h o b p : _data (upd h o (with_processed b) p) = _data (h p).
Proof. unfold upd. now destruct (Pos.eqb p o). Qed.

Lemma upd_flag_reach h o b p :
  _reachability_distance (upd h o (with_processed b) p) = _reachability_distance (h p).
Proof. unfold upd. now destruct (Pos.eqb p o). Qed.

Lemma sqdist_data `{FloatArithmetic} h h' a b :
  (forall p, _data (h p) = _data (h' p)) -> sqdist h a b = sqdist h' a b.
Proof. intros Hd. unfold sqdist. now rewrite !Hd. Qed.

Lemma dim_data h h' a :
  (forall p, _data (h p) = _data (h' p)) -> dim h a = dim h' a.
Proof. intros Hd. unfold dim. now rewrite Hd. Qed.

Lemma precedes_reach h h' a b :
  _reachability_distance (h' a) = _reachability_distance (h a) ->
  _reachability_distance (h' b) = _reachability_distance (h b) ->
  precedes h' a b = precedes h a b.
Proof. unfold precedes. now intros -> ->. Qed.

Lemma sorted_after_write h o d s :
  ~ In o s -> StronglySorted (seed_order h) s ->
  StronglySorted (seed_order (upd h o (with_reachability d))) s.
Proof.
  intros Ho. apply StronglySorted_In_ext. intros a b Ha Hb.
  unfold seed_order.
  rewrite (precedes_reach h (upd h o (with_reachability d)) a b); [auto| |];
    rewrite upd_other; congruence.
Qed.

Lemma sorted_after_flag h q b s :
  StronglySorted (seed_order h) s ->
  StronglySorted (seed_order (upd h q (with_processed b))) s.
Proof.
  apply StronglySorted_In_ext. intros x y _ _.
  unfold seed_order.
  rewrite (precedes_reach h (upd h q (with_processed b)) x y);
    auto using upd_flag_reach.
Qed.

Lemma unprocessed_count_write db h o d :
  unprocessed_count db (upd h o (with_reachability d)) = unprocessed_count db h.
Proof.
  unfold unprocessed_count. f_equal. apply filter_ext.
  intros x. now rewrite upd_reach_flag.
Qed.

Lemma unprocessed_count_mark db h q :
  (unprocessed_count db (upd h q (with_processed true)) <= unprocessed_count db h)%nat /\
  (In q db -> _is_processed (h q) = false ->
   (unprocessed_count db (upd h q (with_processed true)) < unprocessed_count db h)%nat).
Proof.
  unfold unprocessed_count. induction db as [|x db [IHle IHlt]]; simpl.
  - split; [lia|contradiction].
  - destruct (Pos.eq_dec x q) as [->|Hne].
    + rewrite upd_same. simpl.
      destruct (_is_processed (h q)) eqn:Hq; simpl.
      * split; [lia|intros _ Hf; discriminate].
      * split; [lia|intros _ _; lia].
    + rewrite upd_other by assumption.
      destruct (_is_processed (h x)); simpl;
        (split; [lia|intros [->|Hin] Hf;
                     [contradiction|specialize (IHlt Hin Hf); lia]]).
Qed.

Lemma get_neighbors_loop_ok `{FloatArithmetic} p e st :
  representable (dim (heap st) p) ->
  forall db acc,
    (forall q, In q db -> dim (heap st) q = dim (heap st) p) ->
    get_neighbors_loop p e db acc st
    = (Ok (acc ++ filter (fun q => sqdist (heap st) p q <=? e) db), st).
Proof.
  intros Hsmall.
  induction db as [|q db IH]; intros acc Hdim; simpl.
  - now rewrite app_nil_r.
  - erewrite bind_run
      by (apply squared_distance_ok; [assumption|symmetry; apply Hdim; now left]).
    rewrite IH by (intros x Hx; apply Hdim; now right).
    destruct (_ <=? e); [now rewrite <- app_assoc|reflexivity].
Qed.

Lemma get_neighbors_ok `{FloatArithmetic} p eps db st :
  0 <= eps ->
  representable (dim (heap st) p) ->
  (forall q, In q db -> dim (heap st) q = dim (heap st) p) ->
  get_neighbors p eps db st
  = (Ok (filter (fun q => sqdist (heap st) p q <=? multiply eps eps) db), st).
Proof.
  intros Heps Hsmall Hdim. unfold get_neighbors.
  erewrite bind_run
    by (unfold assert; destruct (Z.leb_spec 0 eps); [reflexivity|lia]).
  now rewrite get_neighbors_loop_ok.
Qed.

Section Valid.
Context `{FloatArithmetic} `{StdAlgorithm}.
Variables (db : DataVector) (eps : real) (min_pts : nat) (h0 : Heap).
Hypothesis Heps : 0 <= eps.
Hypothesis Hmin : (1 <= min_pts)%nat.
Hypothesis Hdim : forall a b, In a db -> In b db -> dim h0 a = dim h0 b.
Hypothesis Hsmall : forall a, In a db -> representable (dim h0 a).
Hypothesis Hdist : forall a b, In a db -> In b db -> sqdist h0 a b < UNDEFINED.

Lemma inv_dim budget pending seeds ord st a b :
  inv db h0 budget pending seeds ord st -> In a db -> In b db ->
  dim (heap st) a = dim (heap st) b.
Proof.
  intros Hi Ha Hb.
  rewrite !(dim_data (heap st) h0) by apply (inv_data Hi). auto.
Qed.

Lemma inv_small budget pending seeds ord st a :
  inv db h0 budget pending seeds ord st -> In a db ->
  representable (dim (heap st) a).
Proof.
  intros Hi Ha.
  rewrite (dim_data (heap st) h0) by apply (inv_data Hi). auto.
Qed.

Lemma inv_sqdist budget pending seeds ord st a b :
  inv db h0 budget pending seeds ord st -> In a db -> In b db ->
  finite (sqdist (heap st) a b).
Proof.
  intros Hi Ha Hb. split; [apply sqdist_nonneg|].
  rewrite (sqdist_data (heap st) h0) by apply (inv_data Hi). auto.
Qed.

Lemma inv_weaken budget budget' pending seeds ord st :
  (budget <= budget')%nat ->
  inv db h0 budget pending seeds ord st -> inv db h0 budget' pending seeds ord st.
Proof.
  intros Hle Hi. destruct Hi. constructor; auto. lia.
Qed.

Lemma inv_write_insert budget pending seeds ord st o d s_mid seeds1 :
  inv db h0 budget pending seeds ord st ->
  In o db -> _is_processed (heap st o) = false -> finite d ->
  (_reachability_distance (heap st o) = UNDEFINED \/
   d < _reachability_distance (heap st o)) ->
  (forall z, In z s_mid <-> In z seeds /\ z <> o) ->
  StronglySorted (seed_order (upd (heap st) o (with_reachability d))) seeds1 ->
  (forall z, In z seeds1 <-> z = o \/ In z s_mid) ->
  inv db h0 budget pending seeds1 ord (wrote st o d).
Proof.
  intros Hi Ho Hflag Hd Hold Hmid Hsorted Hin1.
  destruct Hi as [Hdata Hmono Hnodup Hord Hcover Hbudget Hsort Hseeds Hknown Hrange Hlegal].
  constructor; cbn [wrote heap trace].
  - intros p. now rewrite upd_reach_data.
  - intros p Hp. rewrite upd_reach_flag. auto.
  - assumption.
  - intros x. rewrite upd_reach_flag. apply Hord.
  - intros x Hx. rewrite upd_reach_flag. auto.
  - now rewrite unprocessed_count_write.
  - assumption.
  - intros s Hs. rewrite upd_reach_flag. apply Hin1 in Hs.
    destruct Hs as [->|Hs].
    + rewrite upd_same. cbn. unfold finite in Hd. repeat split; [assumption..|lia].
    + apply Hmid in Hs. destruct Hs as [Hs Hne].
      rewrite upd_other by assumption. now apply Hseeds.
  - intros Hfresh x Hx. rewrite upd_reach_flag. intros Hxf Hxr.
    apply Hin1. destruct (Pos.eq_dec x o) as [->|Hne]; [now left|right].
    apply Hmid. split; [|assumption].
    rewrite upd_other in Hxr by assumption. auto.
  - intros Hfresh x Hx. rewrite upd_reach_flag. intros Hxf.
    destruct (Pos.eq_dec x o) as [->|Hne].
    + rewrite upd_same. now right.
    + rewrite upd_other by assumption. auto.
  - intros Hfresh. constructor; [|auto].
    cbn. split; [assumption|].
    destruct (Hrange Hfresh o Ho Hflag) as [Hu|Hf]; [auto|].
    destruct Hold as [Hu|Hlt]; [auto|]. right. right. auto.
Qed.

Lemma inv_start_write budget pending ord st p :
  inv db h0 budget pending [] ord st ->
  In p db -> _is_processed (heap st p) = false ->
  inv db h0 budget pending [] ord (wrote st p UNDEFINED).
Proof.
  intros Hi Hp Hflag.
  destruct Hi as [Hdata Hmono Hnodup Hord Hcover Hbudget Hsort Hseeds Hknown Hrange Hlegal].
  constructor; cbn [wrote heap trace].
  - intros x. now rewrite upd_reach_data.
  - intros x Hx. rewrite upd_reach_flag. auto.
  - assumption.
  - intros x. rewrite upd_reach_flag. apply Hord.
  - intros x Hx. rewrite upd_reach_flag. auto.
  - now rewrite unprocessed_count_write.
  - constructor.
  - intros s [].
  - intros Hfresh x Hx. rewrite upd_reach_flag. intros Hxf Hxr.
    destruct (Pos.eq_dec x p) as [->|Hne].
    + rewrite upd_same in Hxr. now cbn in Hxr.
    + rewrite upd_other in Hxr by assumption. eauto.
  - intros Hfresh x Hx. rewrite upd_reach_flag. intros Hxf.
    destruct (Pos.eq_dec x p) as [->|Hne].
    + rewrite upd_same. now left.
    + rewrite upd_other by assumption. auto.
  - intros Hfresh. constructor; [|auto].
    cbn. split; [assumption|]. left. split; [|reflexivity].
    destruct (Z.eq_dec (_reachability_distance (heap st p)) UNDEFINED) as [E|E];
      [assumption|].
    destruct (Hknown Hfresh p Hp Hflag E).
Qed.

Lemma inv_emit budget pending pending' seeds seeds' ord st q e :
  inv db h0 budget pending seeds ord st ->
  In q db -> _is_processed (heap st q) = false ->
  StronglySorted (seed_order (heap st)) seeds' ->
  (forall z, In z seeds' <-> In z seeds /\ z <> q) ->
  (forall x, In x pending -> x = q \/ In x pending') ->
  monotone_write e ->
  inv db h0 (budget - 1) pending' seeds' (ord ++ [q]) (marked st q e).
Proof.
  intros Hi Hq Hflag Hsorted' Hin' Hpend He.
  destruct Hi as [Hdata Hmono Hnodup Hord Hcover Hbudget Hsort Hseeds Hknown Hrange Hlegal].
  assert (Hflag' : forall x,
            _is_processed (upd (heap st) q (with_processed true) x)
            = if Pos.eqb x q then true else _is_processed (heap st x)).
  { intros x. unfold upd. now destruct (Pos.eqb x q). }
  constructor; cbn [marked heap trace].
  - intros p. now rewrite upd_flag_data.
  - intros p Hp. rewrite Hflag'. destruct (Pos.eqb p q); auto.
  - apply (Permutation_NoDup (Permutation_cons_append ord q)).
    constructor; [|assumption]. intros Hin. apply Hord in Hin.
    destruct Hin as (_ & Hin & _). congruence.
  - intros x. rewrite in_app_iff, Hflag', Hord. simpl.
    destruct (Pos.eqb_spec x q) as [->|Hne].
    + split; [intros _|auto]. repeat split; [assumption|].
      destruct (_is_processed (h0 q)) eqn:E; [|reflexivity].
      rewrite (Hmono q E) in Hflag. discriminate.
    + split; [intros [Hx|[Hx|[]]]; [assumption|congruence]|auto].
  - intros x Hx. rewrite Hflag'. destruct (Pos.eqb_spec x q) as [->|Hne]; [auto|].
    destruct (Hcover x Hx) as [Hd|Hp]; [auto|].
    destruct (Hpend x Hp); [contradiction|auto].
  - pose proof (proj2 (unprocessed_count_mark db (heap st) q) Hq Hflag). lia.
  - now apply sorted_after_flag.
  - intros s Hs. apply Hin' in Hs. destruct Hs as [Hs Hne].
    rewrite Hflag', upd_flag_reach.
    destruct (Pos.eqb_spec s q); [contradiction|auto].
  - intros Hfresh x Hx. rewrite Hflag', upd_flag_reach.
    destruct (Pos.eqb_spec x q) as [->|Hne]; [discriminate|].
    intros Hxf Hxr. apply Hin'. auto.
  - intros Hfresh x Hx. rewrite Hflag', upd_flag_reach.
    destruct (Pos.eqb_spec x q) as [->|Hne]; [discriminate|auto].
  - intros Hfresh. repeat constructor; auto.
Qed.

Lemma update_seeds_loop_valid budget pending ord center c_dist :
  In center db -> finite c_dist ->
  forall N_eps seeds st,
    (forall o, In o N_eps -> In o db) ->
    inv db h0 budget pending seeds ord st ->
    wp (update_seeds_loop N_eps center c_dist seeds)
       (fun seeds' st' => inv db h0 budget pending seeds' ord st') (fun _ => False) st.
Proof.
  intros Hcenter Hc. induction N_eps as [|o rest IH]; intros seeds st HN Hi; simpl.
  - apply wp_mret. assumption.
  - assert (Ho : In o db) by (apply HN; now left).
    assert (Hrest : forall x, In x rest -> In x db) by (intros x Hx; apply HN; now right).
    apply wp_bind, wp_gets.
    destruct (_is_processed (heap st o)) eqn:Hflag; [now apply IH|].
    apply wp_bind.
    eapply wp_run_eq;
      [apply squared_distance_ok;
       [now apply (inv_small _ _ _ _ _ _ Hi)|now apply (inv_dim _ _ _ _ _ _ _ Hi)]|].
    apply wp_bind, wp_gets.
    pose proof (inv_sqdist _ _ _ _ _ center o Hi Hcenter Ho) as Hd.
    set (d := sqdist (heap st) center o) in *.
    assert (Hnew : finite (Z.max c_dist d)) by (unfold finite in *; lia).
    assert (Hdims : forall d' s, (forall y, In y s -> In y db) ->
              forall y, In y s ->
                dim (heap (wrote st o d')) y = dim (heap (wrote st o d')) o).
    { intros d' s Hs y Hy. cbn [wrote heap].
      rewrite !(dim_data (upd (heap st) o (with_reachability d')) (heap st))
        by (intros p; apply upd_reach_data).
      apply (inv_dim _ _ _ _ _ _ _ Hi); auto. }
    destruct (Z.eqb_spec (_reachability_distance (heap st o)) UNDEFINED) as [Hr|Hr].
    + assert (Hnot : ~ In o seeds).
      { intros Hin. now destruct (inv_seeds Hi o Hin) as (_ & _ & Hne). }
      apply wp_bind, wp_set_reachability_distance_ok; [apply Hnew|].
      fold (wrote st o (Z.max c_dist d)).
      destruct (set_insert_ok o (wrote st o (Z.max c_dist d)) seeds)
        as (s1 & Hrun & Hs1 & Hin1).
      { apply Hdims. intros y Hy. now destruct (inv_seeds Hi y Hy). }
      { apply sorted_after_write; [assumption|apply (inv_sorted Hi)]. }
      apply wp_bind. eapply wp_run_eq; [exact Hrun|].
      apply IH; [assumption|].
      eapply (inv_write_insert _ _ seeds _ _ _ _ seeds); eauto.
      intros z. split; [intros Hz; split; [assumption|congruence]|tauto].
    + destruct (Z.ltb_spec (Z.max c_dist d) (_reachability_distance (heap st o)))
        as [Hlt|Hge]; [|now apply IH].
      destruct (set_erase_ok o st seeds) as (s1 & Hrun1 & Hs1 & Hin1).
      { intros y Hy. apply (inv_dim _ _ _ _ _ _ _ Hi); [|assumption].
        now destruct (inv_seeds Hi y Hy). }
      { apply (inv_sorted Hi). }
      apply wp_bind. eapply wp_run_eq; [exact Hrun1|].
      apply wp_bind, wp_set_reachability_distance_ok; [apply Hnew|].
      fold (wrote st o (Z.max c_dist d)).
      destruct (set_insert_ok o (wrote st o (Z.max c_dist d)) s1)
        as (s2 & Hrun2 & Hs2 & Hin2).
      { apply Hdims. intros y Hy. apply Hin1 in Hy.
        now destruct (inv_seeds Hi y (proj1 Hy)). }
      { apply sorted_after_write; [|assumption]. intros Hin.
        apply Hin1 in Hin. now destruct Hin. }
      apply wp_bind. eapply wp_run_eq; [exact Hrun2|].
      apply IH; [assumption|].
      eapply (inv_write_insert _ _ seeds _ _ _ _ s1); eauto.
Qed.

Lemma update_seeds_valid budget pending ord center c_dist N_eps seeds st :
  In center db -> finite c_dist ->
  (forall o, In o N_eps -> In o db) ->
  inv db h0 budget pending seeds ord st ->
  wp (update_seeds N_eps center c_dist seeds)
     (fun seeds' st' => inv db h0 budget pending seeds' ord st') (fun _ => False) st.
Proof.
  intros Hcenter Hc HN Hi. unfold update_seeds.
  apply wp_bind, wp_assert_ok.
  - destruct (Z.eqb_spec c_dist UNDEFINED); [|reflexivity].
    unfold finite in Hc. lia.
  - now apply update_seeds_loop_valid.
Qed.

(** The neighbourhood and the core distance of a point of [db], in a state
    of the run: both are computed without failure, the neighbours (also
    after their rearrangement) are entries of [db], and the core distance is
    UNDEFINED or finite. *)
Lemma neighbourhood_valid budget pending seeds ord st q :
  inv db h0 budget pending seeds ord st -> In q db ->
  exists N_q core_dist_q N_q',
    get_neighbors q eps db st = (Ok N_q, st) /\
    squared_core_distance q min_pts N_q st = (Ok (core_dist_q, N_q'), st) /\
    (forall o, In o N_q' -> In o db) /\
    (core_dist_q = UNDEFINED \/ finite core_dist_q).
Proof.
  intros Hi Hq.
  set (N_q := filter (fun x => sqdist (heap st) q x <=? multiply eps eps) db).
  assert (Hsub : forall o, In o N_q -> In o db).
  { intros o Ho. apply filter_In in Ho. tauto. }
  assert (HN : get_neighbors q eps db st = (Ok N_q, st)).
  { apply get_neighbors_ok; [assumption|now apply (inv_small _ _ _ _ _ _ Hi)|].
    intros x Hx. now apply (inv_dim _ _ _ _ _ _ _ Hi). }
  assert (HdimN : forall a, In a N_q -> dim (heap st) a = dim (heap st) q).
  { intros a Ha. apply (inv_dim _ _ _ _ _ _ _ Hi); auto. }
  destruct (Nat.le_gt_cases (length N_q) min_pts) as [Hfew|Hmany].
  - exists N_q, UNDEFINED, N_q.
    rewrite squared_core_distance_few by assumption. auto.
  - destruct (squared_core_distance_many q min_pts N_q st Hmin Hmany
                (inv_small _ _ _ _ _ _ Hi Hq) HdimN)
      as (before & pivot & after & Hrun & _ & Hperm & _).
    exists N_q, (sqdist (heap st) q pivot), (before ++ pivot :: after).
    repeat split; try assumption.
    + intros o Ho. apply Hsub. apply (Permutation_in _ (Permutation_sym Hperm) Ho).
    + right. apply (inv_sqdist _ _ _ _ _ _ _ Hi Hq). apply Hsub.
      apply (Permutation_in _ (Permutation_sym Hperm)), in_or_app. right. now left.
Qed.

Lemma expand_loop_valid pending :
  forall fuel budget seeds ord st,
    (budget <= fuel)%nat ->
    inv db h0 budget pending seeds ord st ->
    wp (expand_loop fuel db eps min_pts seeds ord)
       (fun ord' st' => inv db h0 budget pending [] ord' st') (fun _ => False) st.
Proof.
  induction fuel as [|fuel IH]; intros budget seeds ord st Hfuel Hi;
    destruct seeds as [|q seeds]; cbn [expand_loop];
    try (apply wp_mret; assumption).
  - exfalso.
    destruct (inv_seeds Hi q (or_introl eq_refl)) as (Hq & Hflag & _).
    pose proof (proj2 (unprocessed_count_mark db (heap st) q) Hq Hflag).
    pose proof (inv_budget Hi). lia.
  - destruct (inv_seeds Hi q (or_introl eq_refl)) as (Hq & Hflag & Hreach).
    destruct (neighbourhood_valid _ _ _ _ _ q Hi Hq)
      as (N_q & core_dist_q & N_q' & HN & Hcore & Hsub & Hcd).
    apply wp_bind. eapply wp_run_eq; [exact HN|].
    apply wp_bind. eapply wp_run_eq; [exact Hcore|]. cbv beta iota.
    apply wp_bind, wp_processed. apply wp_bind, wp_push_back_seed.
    cbn [heap trace].
    match goal with
    | |- wp _ _ _ (mkState _ (?e :: _)) => fold (marked st q e); set (ev := e)
    end.
    assert (Hi' : inv db h0 (budget - 1) pending seeds (ord ++ [q]) (marked st q ev)).
    { pose proof (inv_sorted Hi) as Hs.
      eapply inv_emit; eauto.
      - now apply StronglySorted_inv in Hs.
      - intros z. simpl. pose proof (sorted_head_not_in _ _ _ Hs).
        split; [intros Hz; split; [auto|congruence]|intros [[->|Hz] Hne]; tauto].
      - exact I. }
    assert (Hbudget : (budget - 1 <= fuel)%nat) by lia.
    apply wp_bind.
    destruct (Z.eqb_spec core_dist_q UNDEFINED) as [->|Hne]; cbn [negb].
    + apply wp_mret.
      eapply wp_conseq; [apply (IH _ _ _ _ Hbudget Hi')| |auto].
      intros ord' st' Hi''. eapply inv_weaken; [|exact Hi'']. lia.
    + destruct Hcd as [Hcd|Hcd]; [contradiction|].
      eapply wp_conseq; [apply update_seeds_valid; eauto| |auto].
      intros seeds' st1 Hi1.
      eapply wp_conseq; [apply (IH _ _ _ _ Hbudget Hi1)| |auto].
      intros ord' st' Hi''. eapply inv_weaken; [|exact Hi'']. lia.
Qed.

Lemma expand_cluster_order_valid fuel budget pending ord st p :
  (budget <= fuel)%nat ->
  inv db h0 budget (p :: pending) [] ord st ->
  In p db -> _is_processed (heap st p) = false ->
  wp (expand_cluster_order fuel db p eps min_pts ord)
     (fun ord' st' => inv db h0 budget pending [] ord' st') (fun _ => False) st.
Proof.
  intros Hfuel Hi Hp Hflag. unfold expand_cluster_order.
  apply wp_bind, wp_assert_ok; [now apply Z.leb_le|].
  apply wp_bind, wp_assert_ok; [now apply Nat.ltb_lt|].
  pose proof (inv_start_write _ _ _ _ p Hi Hp Hflag) as Hi1.
  assert (Hflag1 : _is_processed (heap (wrote st p UNDEFINED) p) = false).
  { cbn [wrote heap]. now rewrite upd_reach_flag. }
  destruct (neighbourhood_valid _ _ _ _ _ p Hi Hp)
    as (N_eps & _ & _ & HN & _).
  destruct (neighbourhood_valid _ _ _ _ _ p Hi1 Hp)
    as (N_eps1 & core_dist_p & N_eps' & HN1 & Hcore & Hsub & Hcd).
  assert (N_eps1 = N_eps) as ->.
  { rewrite get_neighbors_ok in HN, HN1;
      try assumption;
      try (eapply inv_small; eauto);
      try (intros x Hx; eapply inv_dim; eauto).
    injection HN as <-. injection HN1 as <-.
    apply filter_ext. intros x. cbn [wrote heap].
    now rewrite (sqdist_data _ (heap st)) by (intros y; apply upd_reach_data). }
  apply wp_bind. eapply wp_run_eq; [exact HN|].
  apply wp_bind, wp_set_reachability_distance_ok; [unfold UNDEFINED; lia|].
  fold (wrote st p UNDEFINED).
  apply wp_bind. eapply wp_run_eq; [exact Hcore|]. cbv beta iota.
  apply wp_bind, wp_processed. apply wp_bind, wp_push_back_first.
  cbn [heap trace].
  match goal with
  | |- wp _ _ _ (mkState _ (?e :: _)) =>
      fold (marked (wrote st p UNDEFINED) p e); set (ev := e)
  end.
  assert (Hi2 : inv db h0 (budget - 1) pending [] (ord ++ [p])
                  (marked (wrote st p UNDEFINED) p ev)).
  { eapply inv_emit; eauto.
    - constructor.
    - intros z. simpl. tauto.
    - intros x [->|Hx]; auto.
    - exact I. }
  assert (Hbudget : (budget - 1 <= fuel)%nat) by lia.
  destruct (Z.eqb_spec core_dist_p UNDEFINED) as [->|Hne].
  - apply wp_mret. eapply inv_weaken; [|exact Hi2]. lia.
  - destruct Hcd as [Hcd|Hcd]; [contradiction|].
    apply wp_bind.
    eapply wp_conseq; [apply update_seeds_valid; eauto| |auto].
    intros seeds' st1 Hi3.
    eapply wp_conseq; [apply (expand_loop_valid _ _ _ _ _ _ Hbudget Hi3)| |auto].
    intros ord' st' Hi4. eapply inv_weaken; [|exact Hi4]. lia.
Qed.

Lemma optics_loop_valid fuel budget :
  (budget <= fuel)%nat ->
  forall it ord st,
    (forall p, In p it -> In p db) ->
    inv db h0 budget it [] ord st ->
    wp (optics_loop fuel db it eps min_pts ord)
       (fun ord' st' => inv db h0 budget [] [] ord' st') (fun _ => False) st.
Proof.
  intros Hfuel. induction it as [|p it IH]; intros ord st Hsub Hi; simpl.
  - apply wp_mret. assumption.
  - assert (Hp : In p db) by (apply Hsub; now left).
    assert (Hit : forall x, In x it -> In x db) by (intros x Hx; apply Hsub; now right).
    apply wp_bind, wp_gets.
    destruct (_is_processed (heap st p)) eqn:Hflag.
    + apply IH; [assumption|].
      destruct Hi. constructor; auto.
      intros x Hx. destruct (inv_cover0 x Hx) as [Hd|[->|Hin]]; auto.
    + apply wp_bind.
      eapply wp_conseq; [apply expand_cluster_order_valid; eauto| |auto].
      intros ord' st' Hi'. now apply IH.
Qed.

Lemma inv_start :
  inv db h0 (length db) db [] [] (start h0).
Proof.
  constructor; cbn [start heap trace]; auto.
  - constructor.
  - intros x. split; [intros []|]. intros (_ & Ht & Hf). congruence.
  - apply filter_length_le_all.
  - constructor.
  - intros s [].
  - intros Hfresh x Hx Hf Hr. now apply Hfresh in Hf.
Qed.

(** A run on valid input with enough fuel returns, in a state that
    satisfies the invariant with nothing pending and no seeds. *)
Lemma optics_valid fuel :
  (length db <= fuel)%nat ->
  exists ord st',
    run (optics fuel db eps min_pts) h0 = (Ok ord, st') /\
    inv db h0 (length db) [] [] ord st'.
Proof.
  intros Hfuel.
  assert (Hwp : wp (optics fuel db eps min_pts)
                  (fun ord' st' => inv db h0 (length db) [] [] ord' st')
                  (fun _ => False) (start h0)).
  { unfold optics.
    apply wp_bind, wp_assert_ok; [now apply Z.leb_le|].
    apply wp_bind, wp_assert_ok; [now apply Nat.ltb_lt|].
    apply optics_loop_valid; auto using inv_start. }
  unfold wp, run in *.
  destruct (optics fuel db eps min_pts (start h0)) as [[ord|msg| |] st'];
    try contradiction.
  eauto.
Qed.

End Valid.

(** ** Runs from the initial point state *)

Lemma wp_get_neighbors_loop_sub `{FloatArithmetic} p e st :
  forall db acc,
    wp (get_neighbors_loop p e db acc)
       (fun N st' => st' = st /\ forall x, In x N -> In x acc \/ In x db)
       (fun st' => st' = st) st.
Proof.
  induction db as [|q db IH]; intros acc; simpl.
  - apply wp_mret. auto.
  - apply wp_bind, wp_pure; [auto with purity| |reflexivity]. intros d _.
    eapply wp_conseq; [apply IH| |auto].
    intros N st' [-> HN]. split; [reflexivity|].
    intros x Hx. destruct (HN x Hx) as [Ha|Hd]; [|auto].
    destruct (d <=? e); [|auto].
    apply in_app_or in Ha. destruct Ha as [Ha|[<-|[]]]; auto.
Qed.

Lemma wp_get_neighbors_sub `{FloatArithmetic} p eps db st :
  wp (get_neighbors p eps db)
     (fun N st' => st' = st /\ forall x, In x N -> In x db)
     (fun st' => st' = st) st.
Proof.
  unfold get_neighbors. apply wp_bind, wp_assert; [intros _|reflexivity].
  eapply wp_conseq; [apply wp_get_neighbors_loop_sub| |auto].
  intros N st' [-> HN]. split; [reflexivity|].
  intros x Hx. destruct (HN x Hx) as [[]|Hd]. exact Hd.
Qed.

Lemma wp_squared_distance `{FloatArithmetic} a b (Q : real -> State -> Prop) E st :
  Q (sqdist (heap st) a b) st -> E st -> wp (squared_distance a b) Q E st.
Proof.
  intros HQ HE. unfold wp, squared_distance, sqdist, bind, data, gets, assert in *.
  simpl. destruct (Nat.eqb _ _); assumption.
Qed.

Lemma wp_Comp lhs rhs (Q : bool -> State -> Prop) E st :
  Q (precedes (heap st) lhs rhs) st -> E st ->
  wp (Comp_DataPoint_Ptr_f lhs rhs) Q E st.
Proof.
  unfold wp, Comp_DataPoint_Ptr_f, precedes, bind, data, reachability_distance,
    gets, assert.
  simpl. intros HQ HE. destruct (Nat.eqb _ _); [|assumption].
  destruct (_ <? _); [assumption|]. destruct (_ && _); assumption.
Qed.

(** The core distance is UNDEFINED or the squared distance to one of the
    neighbours, which come back rearranged. *)
Lemma wp_squared_core_distance_value `{FloatArithmetic} `{StdAlgorithm}
  p min_pts N_eps st :
  wp (squared_core_distance p min_pts N_eps)
     (fun r st' => st' = st /\
                   (forall x, In x (snd r) -> In x N_eps) /\
                   (fst r = UNDEFINED \/
                    exists x, In x N_eps /\ fst r = sqdist (heap st) p x))
     (fun st' => st' = st) st.
Proof.
  unfold squared_core_distance. apply wp_bind, wp_assert; [intros _|reflexivity].
  destruct (Nat.ltb_spec min_pts (length N_eps)) as [Hmany|Hfew];
    [|apply wp_mret; auto].
  apply wp_bind, wp_pure; [auto with purity| |reflexivity]. intros _ _.
  apply wp_bind, wp_gets.
  destruct (nth_element_spec
              (fun a b => sqdist (heap st) p a <? sqdist (heap st) p b)
              min_pts N_eps (strict_weak_order_key _) Hmany)
    as (before & pivot & after & Hnth & _ & Hperm & _).
  apply wp_bind, wp_at_index; [intros x Hx|reflexivity].
  apply wp_bind, wp_squared_distance; [|reflexivity].
  apply wp_mret. split; [reflexivity|]. cbn [fst snd]. rewrite Hnth in *.
  split.
  - intros y Hy. exact (Permutation_in _ (Permutation_sym Hperm) Hy).
  - right. exists x. split; [|reflexivity].
    apply nth_error_In in Hx.
    exact (Permutation_in _ (Permutation_sym Hperm) Hx).
Qed.

(** [insert] on any list of seeds: the result holds the new element and the
    old ones, and nothing else. *)
Lemma wp_set_insert_holds x st :
  forall s,
    wp (set_insert x s)
       (fun s' st' => st' = st /\ In x s' /\
                      (forall z, In z s -> In z s') /\
                      (forall z, In z s' -> z = x \/ In z s))
       (fun st' => st' = st) st.
Proof.
  induction s as [|y s IH]; cbn [set_insert].
  - apply wp_mret. split; [reflexivity|]. split; [now left|].
    split; [intros z []|]. intros z [<-|[]]. now left.
  - apply wp_bind, wp_Comp; [|reflexivity].
    destruct (precedes (heap st) x y) eqn:Hxy.
    + apply wp_mret. split; [reflexivity|]. split; [now left|].
      split; [intros z Hz; now right|]. intros z [<-|Hz]; auto.
    + apply wp_bind, wp_Comp; [|reflexivity].
      destruct (precedes (heap st) y x) eqn:Hyx.
      * apply wp_bind. eapply wp_conseq; [apply IH| |auto].
        intros r st' (-> & Hx & Hsup & Hsub). apply wp_mret.
        split; [reflexivity|]. split; [now right|]. split.
        -- intros z [<-|Hz]; [now left|right; auto].
        -- intros z [<-|Hz]; [right; now left|].
           destruct (Hsub z Hz); [now left|right; now right].
      * apply wp_mret. split; [reflexivity|].
        assert (x = y) as <- by now apply (precedes_total (heap st)).
        split; [now left|]. split; auto.
Qed.

(** [erase] on any list of seeds: the result holds old elements only, among
    them every one but the erased. *)
Lemma wp_set_erase_keeps x st :
  forall s,
    wp (set_erase x s)
       (fun s' st' => st' = st /\
                      (forall z, In z s' -> In z s) /\
                      (forall z, In z s -> z <> x -> In z s'))
       (fun st' => st' = st) st.
Proof.
  induction s as [|y s IH]; cbn [set_erase].
  - apply wp_mret. auto.
  - apply wp_bind, wp_Comp; [|reflexivity].
    destruct (precedes (heap st) x y) eqn:Hxy; [apply wp_mret; auto|].
    apply wp_bind, wp_Comp; [|reflexivity].
    destruct (precedes (heap st) y x) eqn:Hyx.
    + apply wp_bind. eapply wp_conseq; [apply IH| |auto].
      intros r st' (-> & Hsub & Hkeep). apply wp_mret.
      split; [reflexivity|]. split.
      * intros z [<-|Hz]; [now left|right; auto].
      * intros z [<-|Hz] Hne; [now left|right; auto].
    + apply wp_mret. split; [reflexivity|].
      assert (x = y) as <- by now apply (precedes_total (heap st)).
      split; [intros z Hz; now right|].
      intros z [<-|Hz] Hne; [contradiction|assumption].
Qed.

Section Improving.
Context `{FloatArithmetic} `{StdAlgorithm}.
Variables (db : DataVector) (h0 : Heap).
Hypothesis Hdist : forall a b, In a db -> In b db -> sqdist h0 a b < UNDEFINED.

Lemma improving_sqdist seeds st a b :
  improving db h0 seeds st -> In a db -> In b db -> finite (sqdist (heap st) a b).
Proof.
  intros Hi Ha Hb. split; [apply sqdist_nonneg|].
  rewrite (sqdist_data (heap st) h0) by apply (imp_data Hi). auto.
Qed.

Lemma improving_write_insert seeds st o d seeds1 :
  improving db h0 seeds st ->
  In o db -> _is_processed (heap st o) = false -> finite d ->
  (_reachability_distance (heap st o) = UNDEFINED \/
   d < _reachability_distance (heap st o)) ->
  In o seeds1 ->
  (forall z, In z seeds -> z <> o -> In z seeds1) ->
  (forall z, In z seeds1 -> z = o \/ In z seeds) ->
  improving db h0 seeds1 (wrote st o d).
Proof.
  intros Hi Ho Hflag Hd Hold Hin Hsup Hsub.
  destruct Hi as [Hdata Hseeds Hknown Hrange Hlegal].
  constructor; cbn [wrote heap trace].
  - intros p. now rewrite upd_reach_data.
  - intros s Hs. destruct (Hsub s Hs) as [->|Hs']; auto.
  - intros x Hx. rewrite upd_reach_flag. intros Hxf Hxr.
    destruct (Pos.eq_dec x o) as [->|Hne]; [assumption|].
    rewrite upd_other in Hxr by assumption. auto.
  - intros x Hx. rewrite upd_reach_flag. intros Hxf.
    destruct (Pos.eq_dec x o) as [->|Hne].
    + rewrite upd_same. now right.
    + rewrite upd_other by assumption. auto.
  - constructor; [|assumption].
    cbn. split; [assumption|].
    destruct (Hrange o Ho Hflag) as [Hu|Hf]; [auto|].
    destruct Hold as [Hu|Hlt]; [auto|]. right. right. auto.
Qed.

Lemma improving_start_write st p :
  improving db h0 [] st ->
  In p db -> _is_processed (heap st p) = false ->
  improving db h0 [] (wrote st p UNDEFINED).
Proof.
  intros Hi Hp Hflag.
  destruct Hi as [Hdata Hseeds Hknown Hrange Hlegal].
  constructor; cbn [wrote heap trace].
  - intros x. now rewrite upd_reach_data.
  - intros s [].
  - intros x Hx. rewrite upd_reach_flag. intros Hxf Hxr.
    destruct (Pos.eq_dec x p) as [->|Hne].
    + rewrite upd_same in Hxr. now cbn in Hxr.
    + rewrite upd_other in Hxr by assumption. eauto.
  - intros x Hx. rewrite upd_reach_flag. intros Hxf.
    destruct (Pos.eq_dec x p) as [->|Hne].
    + rewrite upd_same. now left.
    + rewrite upd_other by assumption. auto.
  - constructor; [|assumption].
    cbn. split; [assumption|]. left. split; [|reflexivity].
    destruct (Z.eq_dec (_reachability_distance (heap st p)) UNDEFINED) as [E|E];
      [assumption|].
    destruct (Hknown p Hp Hflag E).
Qed.

Lemma improving_marked seeds seeds' st q e :
  improving db h0 seeds st ->
  (forall z, In z seeds -> z <> q -> In z seeds') ->
  (forall z, In z seeds' -> In z db) ->
  monotone_write e ->
  improving db h0 seeds' (marked st q e).
Proof.
  intros Hi Hkeep Hsub He.
  destruct Hi as [Hdata Hseeds Hknown Hrange Hlegal].
  assert (Hflag' : forall x,
            _is_processed (upd (heap st) q (with_processed true) x)
            = if Pos.eqb x q then true else _is_processed (heap st x)).
  { intros x. unfold upd. now destruct (Pos.eqb x q). }
  constructor; cbn [marked heap trace].
  - intros p. now rewrite upd_flag_data.
  - assumption.
  - intros x Hx. rewrite Hflag', upd_flag_reach.
    destruct (Pos.eqb_spec x q) as [->|Hne]; [discriminate|].
    intros Hxf Hxr. auto.
  - intros x Hx. rewrite Hflag', upd_flag_reach.
    destruct (Pos.eqb_spec x q) as [->|Hne]; [discriminate|auto].
  - repeat constructor; auto.
Qed.

Lemma update_seeds_loop_improving center c_dist :
  In center db -> finite c_dist ->
  forall N_eps seeds st,
    (forall o, In o N_eps -> In o db) ->
    improving db h0 seeds st ->
    wp (update_seeds_loop N_eps center c_dist seeds)
       (fun seeds' st' => improving db h0 seeds' st')
       (fun st' => Forall monotone_write (trace st')) st.
Proof.
  intros Hcenter Hc. induction N_eps as [|o rest IH]; intros seeds st HN Hi; simpl.
  - apply wp_mret. assumption.
  - assert (Ho : In o db) by (apply HN; now left).
    assert (Hrest : forall x, In x rest -> In x db) by (intros x Hx; apply HN; now right).
    pose proof (imp_legal Hi) as Hl.
    apply wp_bind, wp_gets.
    destruct (_is_processed (heap st o)) eqn:Hflag; [now apply IH|].
    apply wp_bind, wp_squared_distance; [|exact Hl].
    apply wp_bind, wp_gets.
    pose proof (improving_sqdist _ _ center o Hi Hcenter Ho) as Hd.
    set (d := sqdist (heap st) center o) in *.
    assert (Hnew : finite (Z.max c_dist d)) by (unfold finite in *; lia).
    assert (Hwrite : (_reachability_distance (heap st o) = UNDEFINED \/
                      Z.max c_dist d < _reachability_distance (heap st o)) ->
                     forall seeds1,
                       In o seeds1 ->
                       (forall z, In z seeds -> z <> o -> In z seeds1) ->
                       (forall z, In z seeds1 -> z = o \/ In z seeds) ->
                       improving db h0 seeds1 (wrote st o (Z.max c_dist d))).
    { intros Hold seeds1 H1 H2 H3. now apply (improving_write_insert seeds). }
    destruct (Z.eqb_spec (_reachability_distance (heap st o)) UNDEFINED) as [Hr|Hr].
    + apply wp_bind, wp_set_reachability_distance; [intros _|exact Hl].
      fold (wrote st o (Z.max c_dist d)).
      apply wp_bind.
      eapply wp_conseq; [apply wp_set_insert_holds| |].
      * intros s1 st' (-> & Hin & Hsup & Hsub). apply IH; [assumption|].
        apply Hwrite; auto.
      * intros st' ->.
        apply (imp_legal (Hwrite (or_introl Hr) (o :: seeds)
                            (or_introl eq_refl)
                            (fun z Hz _ => or_intror Hz)
                            (fun z Hz => match Hz with
                                         | or_introl E => or_introl (eq_sym E)
                                         | or_intror Hz' => or_intror Hz'
                                         end))).
    + destruct (Z.ltb_spec (Z.max c_dist d) (_reachability_distance (heap st o)))
        as [Hlt|Hge]; [|now apply IH].
      apply wp_bind.
      eapply wp_conseq; [apply wp_set_erase_keeps| |intros st' ->; exact Hl].
      intros s1 st' (-> & Hsub1 & Hkeep1).
      apply wp_bind, wp_set_reachability_distance; [intros _|exact Hl].
      fold (wrote st o (Z.max c_dist d)).
      apply wp_bind.
      eapply wp_conseq; [apply wp_set_insert_holds| |].
      * intros s2 st' (-> & Hin & Hsup & Hsub2). apply IH; [assumption|].
        apply Hwrite; auto.
        intros z Hz. destruct (Hsub2 z Hz); auto.
      * intros st' ->.
        apply (imp_legal (Hwrite (or_intror Hlt) (o :: seeds)
                            (or_introl eq_refl)
                            (fun z Hz _ => or_intror Hz)
                            (fun z Hz => match Hz with
                                         | or_introl E => or_introl (eq_sym E)
                                         | or_intror Hz' => or_intror Hz'
                                         end))).
Qed.

Lemma update_seeds_improving center c_dist N_eps seeds st :
  In center db -> finite c_dist ->
  (forall o, In o N_eps -> In o db) ->
  improving db h0 seeds st ->
  wp (update_seeds N_eps center c_dist seeds)
     (fun seeds' st' => improving db h0 seeds' st')
     (fun st' => Forall monotone_write (trace st')) st.
Proof.
  intros Hcenter Hc HN Hi. unfold update_seeds.
  apply wp_bind, wp_assert; [intros _|apply (imp_legal Hi)].
  now apply update_seeds_loop_improving.
Qed.

Lemma expand_loop_improving eps min_pts :
  forall fuel seeds v st,
    improving db h0 seeds st ->
    wp (expand_loop fuel db eps min_pts seeds v)
       (fun _ st' => improving db h0 [] st')
       (fun st' => Forall monotone_write (trace st')) st.
Proof.
  induction fuel as [|fuel IH]; intros seeds v st Hi;
    destruct seeds as [|q seeds]; cbn [expand_loop];
    try (apply wp_mret; assumption); try exact (imp_legal Hi).
  pose proof (imp_legal Hi) as Hl.
  assert (Hq : In q db) by (apply (imp_seeds Hi); now left).
  apply wp_bind.
  eapply wp_conseq; [apply wp_get_neighbors_sub| |intros st' ->; exact Hl].
  intros N_q st' [-> HN].
  apply wp_bind.
  eapply wp_conseq; [apply wp_squared_core_distance_value| |intros st' ->; exact Hl].
  intros [core_dist_q N_q'] st' (-> & HN' & Hcd). cbn [fst snd] in HN', Hcd.
  apply wp_bind, wp_processed. apply wp_bind, wp_push_back_seed.
  cbn [heap trace].
  match goal with
  | |- wp _ _ _ (mkState _ (?e :: _)) => fold (marked st q e); set (ev := e)
  end.
  assert (Hi' : improving db h0 seeds (marked st q ev)).
  { apply (improving_marked (q :: seeds)); [exact Hi| | |exact I].
    - intros z [->|Hz] Hne; [contradiction|assumption].
    - intros z Hz. apply (imp_seeds Hi). now right. }
  apply wp_bind.
  destruct (Z.eqb_spec core_dist_q UNDEFINED) as [->|Hne]; cbn [negb].
  - apply wp_mret. now apply IH.
  - destruct Hcd as [Hcd|(x & Hx & ->)]; [contradiction|].
    eapply wp_conseq; [apply update_seeds_improving| |auto].
    + assumption.
    + apply (improving_sqdist _ _ q x Hi); auto.
    + auto.
    + exact Hi'.
    + intros seeds' st1 Hi1. now apply IH.
Qed.

Lemma expand_cluster_order_improving fuel p eps min_pts v st :
  In p db -> _is_processed (heap st p) = false ->
  improving db h0 [] st ->
  wp (expand_cluster_order fuel db p eps min_pts v)
     (fun _ st' => improving db h0 [] st')
     (fun st' => Forall monotone_write (trace st')) st.
Proof.
  intros Hp Hflag Hi. pose proof (imp_legal Hi) as Hl.
  unfold expand_cluster_order.
  apply wp_bind, wp_assert; [intros _|exact Hl].
  apply wp_bind, wp_assert; [intros _|exact Hl].
  apply wp_bind.
  eapply wp_conseq; [apply wp_get_neighbors_sub| |intros st' ->; exact Hl].
  intros N_eps st' [-> HN].
  apply wp_bind, wp_set_reachability_distance; [intros _|exact Hl].
  fold (wrote st p UNDEFINED).
  pose proof (improving_start_write st p Hi Hp Hflag) as Hi1.
  pose proof (imp_legal Hi1) as Hl1.
  apply wp_bind.
  eapply wp_conseq; [apply wp_squared_core_distance_value| |intros st' ->; exact Hl1].
  intros [core_dist_p N_eps'] st' (-> & HN' & Hcd). cbn [fst snd] in HN', Hcd.
  apply wp_bind, wp_processed. apply wp_bind, wp_push_back_first.
  cbn [heap trace].
  match goal with
  | |- wp _ _ _ (mkState _ (?e :: _)) =>
      fold (marked (wrote st p UNDEFINED) p e); set (ev := e)
  end.
  assert (Hi2 : improving db h0 [] (marked (wrote st p UNDEFINED) p ev)).
  { apply (improving_marked []); [exact Hi1| | |exact I]; intros z []. }
  destruct (Z.eqb_spec core_dist_p UNDEFINED) as [->|Hne];
    [apply wp_mret; exact Hi2|].
  destruct Hcd as [Hcd|(x & Hx & ->)]; [contradiction|].
  apply wp_bind.
  eapply wp_conseq; [apply update_seeds_improving| |auto].
  - assumption.
  - apply (improving_sqdist _ _ p x Hi1); auto.
  - auto.
  - exact Hi2.
  - intros seeds st1 Hi3. now apply expand_loop_improving.
Qed.

Lemma optics_loop_improving fuel eps min_pts :
  forall it v st,
    (forall p, In p it -> In p db) ->
    improving db h0 [] st ->
    wp (optics_loop fuel db it eps min_pts v)
       (fun _ st' => improving db h0 [] st')
       (fun st' => Forall monotone_write (trace st')) st.
Proof.
  induction it as [|p it IH]; intros v st Hsub Hi; simpl.
  - apply wp_mret. assumption.
  - assert (Hp : In p db) by (apply Hsub; now left).
    assert (Hit : forall x, In x it -> In x db) by (intros x Hx; apply Hsub; now right).
    apply wp_bind, wp_gets.
    destruct (_is_processed (heap st p)) eqn:Hflag; [now apply IH|].
    apply wp_bind.
    eapply wp_conseq; [now apply expand_cluster_order_improving| |auto].
    intros v' st' Hi'. now apply IH.
Qed.

(** Every call of the setter in a run from fresh points is a
    [monotone_write], however the run ends. *)
Lemma optics_improving fuel eps min_pts :
  fresh_entry db h0 ->
  Forall monotone_write (trace (snd (run (optics fuel db eps min_pts) h0))).
Proof.
  intros Hfresh.
  assert (Hi : improving db h0 [] (start h0)).
  { constructor; cbn [start heap trace].
    - intros p. reflexivity.
    - intros s [].
    - intros x Hx Hf Hr. now apply Hfresh in Hf.
    - intros x Hx Hf. left. now apply Hfresh.
    - constructor. }
  assert (Hwp : wp (optics fuel db eps min_pts)
                  (fun _ st' => Forall monotone_write (trace st'))
                  (fun st' => Forall monotone_write (trace st')) (start h0)).
  { unfold optics.
    apply wp_bind, wp_assert; [intros _|apply (imp_legal Hi)].
    apply wp_bind, wp_assert; [intros _|apply (imp_legal Hi)].
    eapply wp_conseq; [now apply optics_loop_improving| |auto].
    intros v st' Hi'. apply (imp_legal Hi'). }
  unfold wp, run in *.
  destruct (optics fuel db eps min_pts (start h0)) as [[v|msg| |] st']; exact Hwp.
Qed.

End Improving.

(** ** Coverage and monotone improvement *)

(** On valid input, whatever the processed flags at entry, the ordering is
    a rearrangement of the points of [db] that are unprocessed at entry. *)
Lemma optics_orders_unprocessed `{FloatArithmetic} `{StdAlgorithm} fuel db eps min_pts h :
  0 <= eps -> (1 <= min_pts)%nat ->
  NoDup db ->
  (forall a b, In a db -> In b db -> dim h a = dim h b) ->
  (forall a, In a db -> representable (dim h a)) ->
  (forall a b, In a db -> In b db -> sqdist h a b < UNDEFINED) ->
  (length db <= fuel)%nat ->
  exists ord,
    fst (run (optics fuel db eps min_pts) h) = Ok ord /\
    NoDup ord /\
    Permutation ord (filter (fun p => negb (_is_processed (h p))) db).
Proof.
  intros Heps Hmin Hnodup Hdim Hsmall Hdist Hfuel.
  destruct (optics_valid db eps min_pts h Heps Hmin Hdim Hsmall Hdist fuel Hfuel)
    as (ord & st' & Hrun & Hi).
  exists ord. rewrite Hrun. split; [reflexivity|]. split; [apply (inv_nodup Hi)|].
  apply NoDup_Permutation;
    [apply (inv_nodup Hi)|now apply NoDup_filter|].
  intros x. rewrite (inv_ord Hi), filter_In. split.
  - intros (Hx & _ & Hf). now rewrite Hf.
  - intros (Hx & Hf). apply negb_true_iff in Hf. repeat split; [assumption| |assumption].
    destruct (inv_cover Hi x Hx) as [Hd|[]]. assumption.
Qed.

(** C3 (amended).  For a non-negative [eps], [min_pts >= 1] and a [db] of
    distinct points, all unprocessed at entry, of one dimensionality (which
    [unsigned int] can hold), the squared distances that [squared_distance]
    computes between them being below UNDEFINED, and with enough fuel for
    the loop over the seeds: [optics] returns an ordering that is a
    rearrangement of [db]; it has the length of [db] and each point of [db]
    occurs in it exactly once. *)
Theorem optics_total_coverage `{FloatArithmetic} `{StdAlgorithm} fuel db eps min_pts h :
  0 <= eps -> (1 <= min_pts)%nat ->
  NoDup db ->
  (forall p, In p db -> _is_processed (h p) = false) ->
  (forall a b, In a db -> In b db -> dim h a = dim h b) ->
  (forall a, In a db -> representable (dim h a)) ->
  (forall a b, In a db -> In b db -> sqdist h a b < UNDEFINED) ->
  (length db <= fuel)%nat ->
  exists ord,
    fst (run (optics fuel db eps min_pts) h) = Ok ord /\
    length ord = length db /\
    Permutation ord db /\
    NoDup ord /\
    (forall p, In p db -> count_occ Pos.eq_dec ord p = 1%nat).
Proof.
  intros Heps Hmin Hnodup Hfresh Hdim Hsmall Hdist Hfuel.
  destruct (optics_orders_unprocessed fuel db eps min_pts h
              Heps Hmin Hnodup Hdim Hsmall Hdist Hfuel)
    as (ord & Hrun & Hnd & Hperm).
  rewrite filter_all in Hperm.
  2:{ rewrite Forall_forall. intros p Hp. now rewrite (Hfresh p Hp). }
  exists ord. repeat split; try assumption.
  - now apply Permutation_length.
  - intros p Hp. apply NoDup_count_occ'; [assumption|].
    apply (Permutation_in _ (Permutation_sym Hperm) Hp).
Qed.

Lemma optics_total_coverage_witness :
  exists ord,
    fst (run (optics 5 [5; 3; 7; 2; 9]%positive 2 2) square_and_far) = Ok ord /\
    Permutation ord [5; 3; 7; 2; 9]%positive.
Proof.
  destruct (optics_total_coverage 5 [5; 3; 7; 2; 9]%positive 2 2 square_and_far)
    as (ord & Hrun & _ & Hperm & _).
  - lia.
  - lia.
  - repeat constructor; simpl; intuition discriminate.
  - intros p Hp. in_cases Hp; reflexivity.
  - intros a b Ha Hb. in_cases Ha; in_cases Hb; reflexivity.
  - intros a Ha. in_cases Ha; vm_compute; reflexivity.
  - intros a b Ha Hb. in_cases Ha; in_cases Hb; vm_compute; reflexivity.
  - simpl. lia.
  - exists ord. split; assumption.
Defined.

(** C3 (as stated) fails: a non-negative [eps], [min_pts >= 1] and
    unprocessed points do not make the ordering a rearrangement of [db].
    For a [db] that stores a point twice the ordering is shorter than [db].
    For points of different dimensionality, or of a dimensionality that
    [unsigned int] cannot hold, the run ends in the assertion of
    [squared_distance] and returns no ordering.  And when a squared distance
    equals UNDEFINED the ordering is longer than [db]: the expansion of the
    first point puts the third into the seeds at that distance; when the
    second point is expanded, [update_seeds] takes the third, being at
    UNDEFINED, for a point that is not in the seeds, writes its smaller
    distance without erasing it and inserts it a second time, in front of
    the fourth; so the third point is pushed twice. *)
Lemma optics_coverage_needs_more :
  fst (run (optics 3 [1; 2; 1]%positive 2 1) two_points) = Ok [1; 2]%positive /\
  fst (run (optics 2 [1; 2]%positive 2 1) mixed_dimensions)
    = AssertionFailed DimensionMismatch /\
  fst (run (optics 1 [1]%positive 1 1) wide_points)
    = AssertionFailed DimensionMismatch /\
  sqdist sentinel_distance 1 3 = UNDEFINED /\
  fst (run (optics 4 [1; 2; 3; 4]%positive UNDEFINED 1) sentinel_distance)
    = Ok [1; 2; 3; 4; 3]%positive.
Proof.
  split; [vm_compute; reflexivity|].
  split; [vm_compute; reflexivity|].
  split; [|split; vm_compute; reflexivity].
  unfold run, optics, bind, assert.
  change (0 <=? 1) with true. change (0 <? 1)%nat with true. cbv iota.
  cbn [optics_loop]. unfold bind at 1. unfold is_processed, gets at 1.
  cbn [heap start wide_points new_point _is_processed].
  unfold expand_cluster_order, bind, assert.
  change (0 <=? 1) with true. change (0 <? 1)%nat with true. cbv iota.
  unfold get_neighbors, bind, assert.
  change (0 <=? 1) with true. cbv iota.
  cbn [get_neighbors_loop]. unfold bind.
  unfold squared_distance, bind, data, gets, assert.
  cbn [heap start wide_points new_point _data].
  rewrite repeat_length. unfold unsigned_int. rewrite Z2Nat.id by lia.
  rewrite Z.mod_same by lia. change (Z.to_nat 0) with 0%nat.
  destruct (Z.to_nat (2 ^ 32)) eqn:E; [lia|]. reflexivity.
Qed.

(** C5 (amended).  In every run of [optics], however it ends, in which
    every unprocessed point of [db] enters at reachability UNDEFINED and the
    squared distances that [squared_distance] computes between points of
    [db] are below UNDEFINED: every call of the reachability setter
    addresses an unprocessed point and either writes UNDEFINED over
    UNDEFINED, or replaces UNDEFINED by a finite distance, or replaces a
    finite distance by a strictly smaller one. *)
Theorem reachability_only_improves `{FloatArithmetic} `{StdAlgorithm} fuel db eps min_pts h :
  fresh_entry db h ->
  (forall a b, In a db -> In b db -> sqdist h a b < UNDEFINED) ->
  Forall monotone_write (history (snd (run (optics fuel db eps min_pts) h))).
Proof.
  intros Hfresh Hdist. unfold history. apply Forall_rev.
  now apply optics_improving.
Qed.

Lemma reachability_only_improves_witness :
  Forall monotone_write
    (history (snd (run (optics 5 [5; 3; 7; 2; 9]%positive 2 2) square_and_far))).
Proof.
  apply reachability_only_improves.
  - intros p Hp _. in_cases Hp; reflexivity.
  - intros a b Ha Hb. in_cases Ha; in_cases Hb; vm_compute; reflexivity.
Defined.

(** C5 (as stated) fails.  A point that enters the run unprocessed with a
    finite reachability distance has it replaced by UNDEFINED when it starts
    an expansion.  And a squared distance that is not below UNDEFINED is
    written as it is: the reachability distance goes from UNDEFINED to a
    value that is not finite.  In a run from fresh points the start point of
    an expansion is written too, UNDEFINED over UNDEFINED. *)
Lemma reachability_is_raised_or_not_finite :
  (history (snd (run (optics 1 [1]%positive 1 1) stale_point))
     = [EvReach 1 false 5 UNDEFINED; EvProcessed 1; EvEmitFirst 1 UNDEFINED] /\
   ~ monotone_write (EvReach 1 false 5 UNDEFINED)) /\
  (exists new,
     In (EvReach 2 false UNDEFINED new)
        (history (snd (run (optics 2 [1; 2]%positive UNDEFINED 1)
                         overflowing_distance))) /\
     UNDEFINED < new /\
     ~ monotone_write (EvReach 2 false UNDEFINED new)) /\
  In (EvReach 1 false UNDEFINED UNDEFINED)
     (history (snd (run (optics 2 [1; 2]%positive 2 1) two_points))).
Proof.
  split; [split; [vm_compute; reflexivity|]|split].
  - unfold monotone_write, finite, UNDEFINED. lia.
  - exists (2 ^ 128). split; [vm_compute; tauto|].
    unfold monotone_write, finite, UNDEFINED. lia.
  - vm_compute. tauto.
Qed.

(** ** No reset of the point store *)

Lemma optics_loop_all_processed `{FloatArithmetic} `{StdAlgorithm} fuel db eps min_pts :
  forall it v st,
    (forall p, In p it -> _is_processed (heap st p) = true) ->
    optics_loop fuel db it eps min_pts v st = (Ok v, st).
Proof.
  induction it as [|p it IH]; intros v st Hall; simpl; [reflexivity|].
  unfold bind, is_processed, gets. simpl.
  rewrite (Hall p) by now left.
  apply IH. intros q Hq. apply Hall. now right.
Qed.

(** C4 (amended).  [optics] does not reset the point store.  An object that
    is processed at entry is the same object when the run ends, whatever
    the run does.  And when every point of [db] is processed at entry, as
    after a completed run, [optics] (with valid parameters) returns the
    empty ordering and changes nothing. *)
Theorem optics_keeps_entry_state `{FloatArithmetic} `{StdAlgorithm} fuel db eps min_pts h :
  (forall p, _is_processed (h p) = true ->
     heap (snd (run (optics fuel db eps min_pts) h)) p = h p) /\
  (0 <= eps -> (1 <= min_pts)%nat ->
   (forall p, In p db -> _is_processed (h p) = true) ->
   run (optics fuel db eps min_pts) h = (Ok [], start h)).
Proof.
  split.
  - intros p Hp.
    destruct (optics_run_reachable fuel db eps min_pts h) as [Hs _].
    now apply (steps_processed_frozen _ _ p Hs).
  - intros Heps Hmin Hall. unfold run, optics, bind, assert.
    destruct (Z.leb_spec 0 eps); [|lia].
    destruct (Nat.ltb_spec 0 min_pts); [|lia].
    now apply optics_loop_all_processed.
Qed.

Lemma optics_keeps_entry_state_witness :
  run (optics 2 [1; 2]%positive 2 1) two_points_after_run
    = (Ok [], start two_points_after_run).
Proof.
  apply (proj2 (optics_keeps_entry_state 2 [1; 2]%positive 2 1
                  two_points_after_run)).
  - lia.
  - lia.
  - intros p [<-|[<-|[]]]; vm_compute; reflexivity.
Defined.

(** C4 (as stated) fails: a second run on the points of a first run does
    not behave like a fresh run.  The first run orders both points; the
    second finds them processed, with the reachability distances of the
    first run, and returns nothing. *)
Lemma rerun_is_not_a_fresh_run :
  fst (run (optics 2 [1; 2]%positive 2 1) two_points) = Ok [1; 2]%positive /\
  fst (run (optics 2 [1; 2]%positive 2 1) two_points_after_run) = Ok [] /\
  fst (run (optics 2 [1; 2]%positive 2 1) two_points_after_run)
    <> fst (run (optics 2 [1; 2]%positive 2 1) two_points) /\
  _is_processed (two_points_after_run 1%positive) = true /\
  _reachability_distance (two_points_after_run 2%positive) = 1.
Proof.
  assert (H1 : fst (run (optics 2 [1; 2]%positive 2 1) two_points)
               = Ok [1; 2]%positive) by (vm_compute; reflexivity).
  assert (H2 : fst (run (optics 2 [1; 2]%positive 2 1) two_points_after_run)
               = Ok []) by (vm_compute; reflexivity).
  repeat split; try assumption; try (vm_compute; reflexivity).
  rewrite H1, H2. discriminate.
Qed.

(** * Further properties of the code *)

(** ** [squared_distance] *)

Lemma squared_distance_loop_sym `{FloatArithmetic} a_data : forall b_data ret,
  squared_distance_loop a_data b_data ret = squared_distance_loop b_data a_data ret.
Proof.
  induction a_data as [|x a IH]; intros [|y b] ret;
    cbn [squared_distance_loop]; try reflexivity.
  rewrite IH. f_equal. apply add_squared_difference_sym.
Qed.

Lemma sqdist_sym `{FloatArithmetic} h a b : sqdist h a b = sqdist h b a.
Proof. apply squared_distance_loop_sym. Qed.

Lemma squared_distance_mismatch `{FloatArithmetic} a b st :
  representable (dim (heap st) a) -> dim (heap st) a <> dim (heap st) b ->
  squared_distance a b st = (AssertionFailed DimensionMismatch, st).
Proof.
  unfold dim, squared_distance, bind, data, gets, assert. simpl.
  intros Hsmall Hdim. rewrite (unsigned_int_small _ Hsmall).
  destruct (Nat.eqb_spec (length (_data (heap st a))) (length (_data (heap st b))));
    [contradiction|reflexivity].
Qed.



(** ** [get_neighbors] *)

Lemma get_neighbors_loop_run `{FloatArithmetic} p e st :
  representable (dim (heap st) p) ->
  forall db acc,
    get_neighbors_loop p e db acc st
    = (if forallb (fun q => Nat.eqb (dim (heap st) q) (dim (heap st) p)) db
       then Ok (acc ++ filter (fun q => sqdist (heap st) p q <=? e) db)
       else AssertionFailed DimensionMismatch,
       st).
Proof.
  intros Hsmall. induction db as [|q db IH]; intros acc; simpl.
  - now rewrite app_nil_r.
  - destruct (Nat.eqb_spec (dim (heap st) q) (dim (heap st) p)) as [E|E]; simpl.
    + erewrite bind_run by (apply squared_distance_ok; [assumption|now symmetry]).
      rewrite IH. destruct (forallb _ db); [|reflexivity].
      destruct (_ <=? e); [now rewrite <- app_assoc|reflexivity].
    + unfold bind. rewrite squared_distance_mismatch; [reflexivity|assumption|congruence].
Qed.



(** X3.  Being a neighbour is symmetric: for two points [p] and [q] of a
    dataset of one dimensionality, [q] is in the neighbourhood of [p] exactly
    when [p] is in the neighbourhood of [q]. *)
Theorem neighborhood_symmetric `{FloatArithmetic} p q eps db st :
  0 <= eps -> In p db -> In q db ->
  (forall a, In a db -> representable (dim (heap st) a)) ->
  (forall a b, In a db -> In b db -> dim (heap st) a = dim (heap st) b) ->
  exists N_p N_q,
    get_neighbors p eps db st = (Ok N_p, st) /\
    get_neighbors q eps db st = (Ok N_q, st) /\
    (In q N_p <-> In p N_q).
Proof.
  intros Heps Hp Hq Hsmall Hdim. eexists _, _.
  split; [apply get_neighbors_ok; auto|].
  split; [apply get_neighbors_ok; auto|].
  rewrite !filter_In, (sqdist_sym _ q p). tauto.
Qed.

Lemma neighborhood_symmetric_witness :
  exists N_p N_q,
    get_neighbors 3 1 [5; 3; 7; 2; 9]%positive (start square_and_far)
      = (Ok N_p, start square_and_far) /\
    get_neighbors 2 1 [5; 3; 7; 2; 9]%positive (start square_and_far)
      = (Ok N_q, start square_and_far) /\
    In 2%positive N_p /\ In 3%positive N_q.
Proof.
  destruct (neighborhood_symmetric 3 2 1 [5; 3; 7; 2; 9]%positive
              (start square_and_far)) as (N_p & N_q & Hp & Hq & Hiff).
  - lia.
  - simpl. tauto.
  - simpl. tauto.
  - intros a Ha. in_cases Ha; vm_compute; reflexivity.
  - intros a b Ha Hb. in_cases Ha; in_cases Hb; reflexivity.
  - exists N_p, N_q. split; [exact Hp|]. split; [exact Hq|].
    assert (Hin : In 2%positive N_p).
    { vm_compute in Hp. injection Hp as <-. simpl. tauto. }
    split; [exact Hin|]. now apply Hiff.
Defined.

(** X4.  The neighbourhood grows with the radius: for [0 <= eps <= eps'],
    every point [get_neighbors] returns for [eps] it also returns for
    [eps']. *)
Theorem neighborhood_grows_with_eps `{FloatArithmetic} p eps eps' db st :
  0 <= eps <= eps' ->
  representable (dim (heap st) p) ->
  (forall q, In q db -> dim (heap st) q = dim (heap st) p) ->
  exists N_eps N_eps',
    get_neighbors p eps db st = (Ok N_eps, st) /\
    get_neighbors p eps' db st = (Ok N_eps', st) /\
    (forall q, In q N_eps -> In q N_eps') /\
    (length N_eps <= length N_eps')%nat.
Proof.
  intros Heps Hsmall Hdim. eexists _, _.
  split; [apply get_neighbors_ok; auto; lia|].
  split; [apply get_neighbors_ok; auto; lia|].
  assert (Himp : forall q, (sqdist (heap st) p q <=? multiply eps eps) = true ->
                           (sqdist (heap st) p q <=? multiply eps' eps') = true).
  { intros q. rewrite !Z.leb_le.
    pose proof (multiply_monotone eps eps' Heps). lia. }
  split.
  - intros q. rewrite !filter_In. intros [Hq Hle]. auto.
  - clear Hdim. induction db as [|x db IH]; simpl; [lia|].
    destruct (sqdist (heap st) p x <=? multiply eps eps) eqn:E.
    + rewrite (Himp x E). simpl. lia.
    + destruct (_ <=? multiply eps' eps'); simpl; lia.
Qed.

Lemma neighborhood_grows_with_eps_witness :
  exists N_eps N_eps',
    get_neighbors 5 1 [5; 3; 7; 2; 9]%positive (start square_and_far)
      = (Ok N_eps, start square_and_far) /\
    get_neighbors 5 2 [5; 3; 7; 2; 9]%positive (start square_and_far)
      = (Ok N_eps', start square_and_far) /\
    (length N_eps <= length N_eps')%nat.
Proof.
  destruct (neighborhood_grows_with_eps 5 1 2 [5; 3; 7; 2; 9]%positive
              (start square_and_far)) as (N & N' & H1 & H2 & _ & Hlen).
  - lia.
  - vm_compute. reflexivity.
  - intros q Hq. in_cases Hq; reflexivity.
  - exists N, N'. auto.
Defined.

(** X5.  [get_neighbors] ends in an assertion failure, in the state in which
    it was called, when [eps] is negative and when [db] holds a point whose
    dimensionality differs from that of [p]; it returns a vector only for a
    non-negative [eps] and a [db] of the dimensionality of [p]. *)
Theorem get_neighbors_aborts `{FloatArithmetic} p eps db st :
  representable (dim (heap st) p) ->
  (eps < 0 ->
   get_neighbors p eps db st = (AssertionFailed "eps must not be negative", st)) /\
  (0 <= eps ->
   (exists q, In q db /\ dim (heap st) q <> dim (heap st) p) ->
   get_neighbors p eps db st = (AssertionFailed DimensionMismatch, st)) /\
  (forall N_eps,
     fst (get_neighbors p eps db st) = Ok N_eps ->
     0 <= eps /\ forall q, In q db -> dim (heap st) q = dim (heap st) p).
Proof.
  intros Hsmall. unfold get_neighbors, bind, assert.
  destruct (Z.leb_spec 0 eps) as [Heps|Heps].
  - rewrite get_neighbors_loop_run by assumption.
    destruct (forallb _ db) eqn:Hall.
    + rewrite forallb_forall in Hall.
      split; [lia|]. split.
      * intros _ (q & Hq & Hne). apply Hall in Hq.
        now apply Nat.eqb_eq in Hq.
      * intros N_eps _. split; [assumption|].
        intros q Hq. now apply Nat.eqb_eq, Hall.
    + split; [lia|]. split; [reflexivity|]. intros N_eps Hok. discriminate.
  - split; [reflexivity|]. split; [lia|]. intros N_eps Hok. discriminate.
Qed.

Lemma get_neighbors_aborts_witness :
  get_neighbors 1 1 [1; 2]%positive (start mixed_dimensions)
    = (AssertionFailed DimensionMismatch, start mixed_dimensions) /\
  get_neighbors 1 (-1) [1; 2]%positive (start mixed_dimensions)
    = (AssertionFailed "eps must not be negative", start mixed_dimensions).
Proof.
  destruct (get_neighbors_aborts 1 1 [1; 2]%positive (start mixed_dimensions))
    as (_ & Hdim & _); [vm_compute; reflexivity|].
  destruct (get_neighbors_aborts 1 (-1) [1; 2]%positive (start mixed_dimensions))
    as (Heps & _); [vm_compute; reflexivity|].
  split.
  - apply Hdim; [lia|]. exists 2%positive. split; [simpl; tauto|].
    vm_compute. discriminate.
  - apply Heps. lia.
Defined.

(** ** [Comp_DataPoint_Ptr_f] *)

(** X6.  On points of one dimensionality the comparison functor of the seed
    set is a strict total order: no point is less than itself, the relation
    is asymmetric and transitive, and of two different points one is less
    than the other.  The calls return and leave the state as it is. *)
Theorem Comp_DataPoint_Ptr_f_strict_total_order a b c st :
  dim (heap st) a = dim (heap st) b ->
  dim (heap st) b = dim (heap st) c ->
  exists ab ba bc ac,
    Comp_DataPoint_Ptr_f a b st = (Ok ab, st) /\
    Comp_DataPoint_Ptr_f b a st = (Ok ba, st) /\
    Comp_DataPoint_Ptr_f b c st = (Ok bc, st) /\
    Comp_DataPoint_Ptr_f a c st = (Ok ac, st) /\
    Comp_DataPoint_Ptr_f a a st = (Ok false, st) /\
    (ab = true -> ba = false) /\
    (ab = true -> bc = true -> ac = true) /\
    (a <> b -> ab = true \/ ba = true).
Proof.
  intros Hab Hbc.
  exists (precedes (heap st) a b), (precedes (heap st) b a),
         (precedes (heap st) b c), (precedes (heap st) a c).
  rewrite !Comp_ok by congruence.
  repeat split.
  - f_equal. f_equal. apply not_true_is_false. apply seed_order_irrefl.
  - rewrite precedes_spec, precedes_false. lia.
  - apply seed_order_trans.
  - intros Hne.
    destruct (precedes (heap st) a b) eqn:E1; [now left|].
    destruct (precedes (heap st) b a) eqn:E2; [now right|].
    destruct Hne. now apply (precedes_total (heap st)).
Qed.

Lemma Comp_DataPoint_Ptr_f_strict_total_order_witness :
  Comp_DataPoint_Ptr_f 1 2 (start two_points) = (Ok true, start two_points) /\
  Comp_DataPoint_Ptr_f 2 1 (start two_points) = (Ok false, start two_points).
Proof.
  destruct (Comp_DataPoint_Ptr_f_strict_total_order 1 2 2 (start two_points))
    as (ab & ba & _ & _ & Hab & Hba & _ & _ & _ & Hasym & _);
    [reflexivity|reflexivity|].
  assert (ab = true) as ->.
  { vm_compute in Hab. now injection Hab as <-. }
  rewrite (Hasym eq_refl) in Hba. split; assumption.
Defined.

(** ** The core distance *)

Lemma filter_filter_implied {A} (f g : A -> bool) (l : list A) :
  (forall x, f x = true -> g x = true) -> filter f (filter g l) = filter f l.
Proof.
  intros Hfg. induction l as [|x l IH]; simpl; [reflexivity|].
  destruct (g x) eqn:Hg; simpl.
  - destruct (f x); now rewrite IH.
  - destruct (f x) eqn:Hf; [rewrite (Hfg x Hf) in Hg; discriminate|assumption].
Qed.

Lemma filter_length_implied {A} (f g : A -> bool) (l : list A) :
  (forall x, f x = true -> g x = true) ->
  (length (filter f l) <= length (filter g l))%nat.
Proof.
  intros Hfg. induction l as [|x l IH]; simpl; [lia|].
  destruct (f x) eqn:Hf.
  - rewrite (Hfg x Hf). simpl. lia.
  - destruct (g x); simpl; lia.
Qed.

(** In a vector partitioned around a pivot, more elements than stand before
    the pivot have a key of at most the pivot's key, and at most that many
    have a smaller key. *)
Lemma partition_counts (key : addr -> Z) (N before after : list addr) pivot :
  Permutation N (before ++ pivot :: after) ->
  Forall (fun x => key x <= key pivot) before ->
  Forall (fun x => key pivot <= key x) after ->
  (length before < length (filter (fun x => Z.leb (key x) (key pivot)) N))%nat /\
  (length (filter (fun x => Z.ltb (key x) (key pivot)) N) <= length before)%nat.
Proof.
  intros HP Hb Ha.
  rewrite !(filter_length_Permutation _ HP), !filter_app, !length_app.
  split.
  - rewrite (filter_all _ before).
    + simpl. rewrite Z.leb_refl. simpl. lia.
    + eapply Forall_impl; [|exact Hb]. intros x Hx. now apply Z.leb_le.
  - rewrite (filter_none _ (pivot :: after)).
    + simpl.
      pose proof (filter_length_le_all (fun x => Z.ltb (key x) (key pivot)) before).
      lia.
    + constructor; [apply Z.ltb_irrefl|].
      eapply Forall_impl; [|exact Ha]. intros x Hx. now apply Z.ltb_ge.
Qed.

(** X7.  The core distance of [p], computed from the neighbourhood that
    [get_neighbors] returns: it is UNDEFINED when the neighbourhood has at
    most [min_pts] points; otherwise it lies between 0 and the computed
    product [eps*eps] and is the smallest computed squared distance around
    [p] that holds more than [min_pts] points of [db]: more than [min_pts]
    points of [db] lie within it, and at most [min_pts] lie strictly closer
    to [p]. *)
Theorem core_distance_smallest_radius `{FloatArithmetic} `{StdAlgorithm} p eps min_pts db st :
  0 <= eps -> (1 <= min_pts)%nat ->
  representable (dim (heap st) p) ->
  (forall q, In q db -> dim (heap st) q = dim (heap st) p) ->
  exists N_eps cd N_eps',
    get_neighbors p eps db st = (Ok N_eps, st) /\
    squared_core_distance p min_pts N_eps st = (Ok (cd, N_eps'), st) /\
    Permutation N_eps N_eps' /\
    (((length N_eps <= min_pts)%nat /\ cd = UNDEFINED) \/
     ((min_pts < length N_eps)%nat /\ 0 <= cd <= multiply eps eps /\
      (min_pts < length (filter (fun q => Z.leb (sqdist (heap st) p q) cd) db))%nat /\
      (length (filter (fun q => Z.ltb (sqdist (heap st) p q) cd) db) <= min_pts)%nat)).
Proof.
  intros Heps Hmin Hsmall Hdim.
  set (N := filter (fun q => sqdist (heap st) p q <=? multiply eps eps) db).
  assert (HdimN : forall a, In a N -> dim (heap st) a = dim (heap st) p).
  { intros a Ha. apply Hdim. apply filter_In in Ha. tauto. }
  assert (HN : get_neighbors p eps db st = (Ok N, st)) by now apply get_neighbors_ok.
  destruct (Nat.le_gt_cases (length N) min_pts) as [Hfew|Hmany].
  - exists N, UNDEFINED, N.
    rewrite squared_core_distance_few by assumption.
    split; [exact HN|]. split; [reflexivity|]. split; [apply Permutation_refl|].
    left. auto.
  - destruct (squared_core_distance_many p min_pts N st Hmin Hmany Hsmall HdimN)
      as (before & pivot & after & Hrun & Hlen & Hperm & Hb & Ha).
    exists N, (sqdist (heap st) p pivot), (before ++ pivot :: after).
    split; [exact HN|]. split; [exact Hrun|]. split; [exact Hperm|]. right.
    assert (Hle : sqdist (heap st) p pivot <= multiply eps eps).
    { assert (Hin : In pivot N).
      { apply (Permutation_in _ (Permutation_sym Hperm)), in_or_app. right. now left. }
      apply filter_In in Hin. now apply Z.leb_le. }
    destruct (partition_counts (sqdist (heap st) p) N before after pivot Hperm Hb Ha)
      as [Hc1 Hc2].
    split; [assumption|]. split; [split; [apply sqdist_nonneg|assumption]|].
    split.
    + rewrite <- (filter_filter_implied _
                   (fun q => sqdist (heap st) p q <=? multiply eps eps)).
      * fold N. lia.
      * intros x. rewrite !Z.leb_le. lia.
    + rewrite <- (filter_filter_implied _
                   (fun q => sqdist (heap st) p q <=? multiply eps eps)).
      * fold N. lia.
      * intros x. rewrite Z.ltb_lt, Z.leb_le. lia.
Qed.

Lemma core_distance_smallest_radius_witness :
  exists N_eps N_eps',
    get_neighbors 5 2 [5; 3; 7; 2; 9]%positive (start square_and_far)
      = (Ok N_eps, start square_and_far) /\
    squared_core_distance 5 3 N_eps (start square_and_far)
      = (Ok (2, N_eps'), start square_and_far).
Proof.
  destruct (core_distance_smallest_radius 5 2 3 [5; 3; 7; 2; 9]%positive
              (start square_and_far))
    as (N_eps & cd & N_eps' & HN & Hcd & _).
  - lia.
  - lia.
  - vm_compute. reflexivity.
  - intros q Hq. in_cases Hq; reflexivity.
  - exists N_eps, N_eps'. split; [exact HN|].
    assert (cd = 2) as <-; [|exact Hcd].
    vm_compute in HN. injection HN as <-.
    vm_compute in Hcd. now injection Hcd as <- _.
Defined.

(** X8.  The core distance grows with [min_pts]: on the same neighbourhood,
    a larger [min_pts] that still leaves the core distance defined gives a
    core distance that is at least as large. *)
Theorem core_distance_monotone `{FloatArithmetic} `{StdAlgorithm} p min_pts min_pts' N_eps st :
  (1 <= min_pts <= min_pts')%nat -> (min_pts' < length N_eps)%nat ->
  representable (dim (heap st) p) ->
  (forall a, In a N_eps -> dim (heap st) a = dim (heap st) p) ->
  exists cd cd' N1 N2,
    squared_core_distance p min_pts N_eps st = (Ok (cd, N1), st) /\
    squared_core_distance p min_pts' N_eps st = (Ok (cd', N2), st) /\
    cd <= cd'.
Proof.
  intros Hmin Hmany Hsmall Hdim.
  destruct (squared_core_distance_many p min_pts N_eps st) as
    (b1 & pv1 & a1 & Hrun1 & Hlen1 & Hperm1 & Hb1 & Ha1); try assumption; try lia.
  destruct (squared_core_distance_many p min_pts' N_eps st) as
    (b2 & pv2 & a2 & Hrun2 & Hlen2 & Hperm2 & Hb2 & Ha2); try assumption; try lia.
  eexists _, _, _, _. split; [exact Hrun1|]. split; [exact Hrun2|].
  destruct (partition_counts (sqdist (heap st) p) N_eps b1 a1 pv1 Hperm1 Hb1 Ha1)
    as [_ Hbelow].
  destruct (partition_counts (sqdist (heap st) p) N_eps b2 a2 pv2 Hperm2 Hb2 Ha2)
    as [Hwithin _].
  destruct (Z.le_gt_cases (sqdist (heap st) p pv1) (sqdist (heap st) p pv2))
    as [Hle|Hgt]; [assumption|exfalso].
  pose proof (filter_length_implied
                (fun x => Z.leb (sqdist (heap st) p x) (sqdist (heap st) p pv2))
                (fun x => Z.ltb (sqdist (heap st) p x) (sqdist (heap st) p pv1))
                N_eps) as Himp.
  assert ((length (filter (fun x => Z.leb (sqdist (heap st) p x) (sqdist (heap st) p pv2)) N_eps)
           <= length (filter (fun x => Z.ltb (sqdist (heap st) p x) (sqdist (heap st) p pv1)) N_eps))%nat).
  { apply Himp. intros x. rewrite Z.leb_le, Z.ltb_lt. lia. }
  lia.
Qed.

Lemma core_distance_monotone_witness :
  exists cd cd' N1 N2,
    squared_core_distance 5 1 [5; 3; 7; 2]%positive (start square_and_far)
      = (Ok (cd, N1), start square_and_far) /\
    squared_core_distance 5 3 [5; 3; 7; 2]%positive (start square_and_far)
      = (Ok (cd', N2), start square_and_far) /\
    cd <= cd'.
Proof.
  apply (core_distance_monotone 5 1 3 [5; 3; 7; 2]%positive (start square_and_far)).
  - lia.
  - simpl. lia.
  - vm_compute. reflexivity.
  - intros a Ha. in_cases Ha; reflexivity.
Defined.

(** ** Expansions that start at a point that is no core object *)

Lemma set_reachability_distance_run p d st :
  0 <= d -> set_reachability_distance p d st = (Ok tt, wrote st p d).
Proof.
  intros Hd. unfold set_reachability_distance, bind, assert.
  destruct (Z.leb_spec 0 d); [reflexivity|lia].
Qed.

Lemma assert_run b msg st : b = true -> assert b msg st = (Ok tt, st).
Proof. now intros ->. Qed.

(** An expansion that starts at a point with at most [min_pts] neighbours
    pushes that point and ends. *)
Lemma expand_cluster_order_non_core `{FloatArithmetic} `{StdAlgorithm} fuel db p eps min_pts ord st :
  0 <= eps -> (1 <= min_pts)%nat ->
  representable (dim (heap st) p) ->
  (forall q, In q db -> dim (heap st) q = dim (heap st) p) ->
  (length (filter (fun q => Z.leb (sqdist (heap st) p q) (multiply eps eps)) db) <= min_pts)%nat ->
  expand_cluster_order fuel db p eps min_pts ord st
  = (Ok (ord ++ [p]), marked (wrote st p UNDEFINED) p (EvEmitFirst p UNDEFINED)).
Proof.
  intros Heps Hmin Hsmall Hdim Hfew. unfold expand_cluster_order.
  erewrite bind_run by (apply assert_run; now apply Z.leb_le).
  erewrite bind_run by (apply assert_run; now apply Nat.ltb_lt).
  erewrite bind_run by (now apply get_neighbors_ok).
  erewrite bind_run by (apply set_reachability_distance_run; unfold UNDEFINED; lia).
  erewrite bind_run by (now apply squared_core_distance_few).
  cbv beta iota.
  erewrite bind_run by reflexivity.
  erewrite bind_run by reflexivity.
  rewrite Z.eqb_refl. unfold mret, marked, wrote. cbn [heap trace].
  now rewrite !upd_same.
Qed.

(** X9.  When the start point [p] of an expansion has at most [min_pts]
    neighbours in [db] (itself included; a neighbour is a point whose
    computed squared distance is at most the computed product [eps*eps]) it
    is no core object: the expansion
    pushes [p] alone, leaves [p] processed with reachability UNDEFINED and
    its coordinates, and touches no other object. *)
Theorem expand_cluster_order_stops_at_non_core `{FloatArithmetic} `{StdAlgorithm}
  fuel db p eps min_pts ord st :
  0 <= eps -> (1 <= min_pts)%nat ->
  representable (dim (heap st) p) ->
  (forall q, In q db -> dim (heap st) q = dim (heap st) p) ->
  (length (filter (fun q => Z.leb (sqdist (heap st) p q) (multiply eps eps)) db) <= min_pts)%nat ->
  exists st',
    expand_cluster_order fuel db p eps min_pts ord st = (Ok (ord ++ [p]), st') /\
    heap st' p = mkDataPoint (_data (heap st p)) UNDEFINED true /\
    (forall x, x <> p -> heap st' x = heap st x) /\
    history st'
    = history st
        ++ [EvReach p (_is_processed (heap st p))
              (_reachability_distance (heap st p)) UNDEFINED;
            EvProcessed p; EvEmitFirst p UNDEFINED].
Proof.
  intros Heps Hmin Hsmall Hdim Hfew. eexists.
  split; [now apply expand_cluster_order_non_core|].
  unfold marked, wrote, history. cbn [heap trace]. repeat split.
  - now rewrite !upd_same.
  - intros x Hx. now rewrite !upd_other.
  - simpl. now rewrite <- !app_assoc.
Qed.

Lemma expand_cluster_order_stops_at_non_core_witness :
  fst (expand_cluster_order 5 [5; 3; 7; 2; 9]%positive 9 2 2 [] (start square_and_far))
  = Ok [9%positive].
Proof.
  destruct (expand_cluster_order_stops_at_non_core
              5 [5; 3; 7; 2; 9]%positive 9 2 2 [] (start square_and_far))
    as (st' & Hrun & _).
  - lia.
  - lia.
  - vm_compute. reflexivity.
  - intros q Hq. in_cases Hq; reflexivity.
  - vm_compute. lia.
  - now rewrite Hrun.
Defined.

Lemma optics_loop_no_core `{FloatArithmetic} `{StdAlgorithm} fuel db eps min_pts h :
  0 <= eps -> (1 <= min_pts)%nat ->
  (forall a b, In a db -> In b db -> dim h a = dim h b) ->
  (forall a, In a db -> representable (dim h a)) ->
  (forall p, In p db ->
     (length (filter (fun q => Z.leb (sqdist h p q) (multiply eps eps)) db) <= min_pts)%nat) ->
  forall it ord st,
    NoDup it -> (forall x, In x it -> In x db) ->
    (forall x, _data (heap st x) = _data (h x)) ->
    (forall x, In x it -> _is_processed (heap st x) = false) ->
    exists st',
      optics_loop fuel db it eps min_pts ord st = (Ok (ord ++ it), st') /\
      (forall x, In x it -> heap st' x = mkDataPoint (_data (h x)) UNDEFINED true) /\
      (forall x, ~ In x it -> heap st' x = heap st x).
Proof.
  intros Heps Hmin Hdim Hsmall Hfew.
  induction it as [|p it IH]; intros ord st Hnd Hsub Hdata Hflag.
  - exists st. simpl. rewrite app_nil_r.
    split; [reflexivity|]. split; [intros x []|auto].
  - apply NoDup_cons_iff in Hnd. destruct Hnd as [Hp Hnd].
    assert (Hpdb : In p db) by (apply Hsub; now left).
    cbn [optics_loop].
    erewrite bind_run by reflexivity.
    rewrite (Hflag p) by now left.
    erewrite bind_run.
    2:{ apply expand_cluster_order_non_core; try assumption.
        - rewrite (dim_data (heap st) h) by assumption. auto.
        - intros q Hq. rewrite !(dim_data (heap st) h) by assumption. auto.
        - erewrite filter_ext; [apply (Hfew p Hpdb)|].
          intros q. now rewrite (sqdist_data (heap st) h) by assumption. }
    destruct (IH (ord ++ [p])
                (marked (wrote st p UNDEFINED) p (EvEmitFirst p UNDEFINED)))
      as (st' & Hrun & Hin & Hout); try assumption.
    + intros x Hx. apply Hsub. now right.
    + intros x. unfold marked, wrote. cbn [heap].
      now rewrite upd_flag_data, upd_reach_data.
    + intros x Hx. unfold marked, wrote. cbn [heap].
      assert (x <> p) by congruence.
      rewrite !upd_other by assumption. apply Hflag. now right.
    + exists st'. rewrite Hrun, <- app_assoc. split; [reflexivity|]. split.
      * intros x [<-|Hx]; [|now apply Hin].
        rewrite (Hout p Hp). unfold marked, wrote. cbn [heap].
        rewrite !upd_same. unfold with_processed, with_reachability.
        cbn [_data _reachability_distance _is_processed]. now rewrite Hdata.
      * intros x Hx. simpl in Hx.
        rewrite Hout by tauto. unfold marked, wrote. cbn [heap].
        rewrite !upd_other by (intros ->; tauto). reflexivity.
Qed.

(** X10.  A dataset without core objects comes back in storage order: when
    every point of [db] has at most [min_pts] neighbours in [db] (as is the
    case when [min_pts] is at least the size of [db]), [optics] returns [db]
    itself, for every amount of fuel, every point of [db] ends processed at
    reachability UNDEFINED, and no other object is touched. *)
Theorem optics_without_core_objects `{FloatArithmetic} `{StdAlgorithm} fuel db eps min_pts h :
  0 <= eps -> (1 <= min_pts)%nat ->
  NoDup db ->
  (forall p, In p db -> _is_processed (h p) = false) ->
  (forall a b, In a db -> In b db -> dim h a = dim h b) ->
  (forall a, In a db -> representable (dim h a)) ->
  ((length db <= min_pts)%nat \/
   forall p, In p db ->
     (length (filter (fun q => Z.leb (sqdist h p q) (multiply eps eps)) db) <= min_pts)%nat) ->
  exists st',
    run (optics fuel db eps min_pts) h = (Ok db, st') /\
    (forall p, In p db -> heap st' p = mkDataPoint (_data (h p)) UNDEFINED true) /\
    (forall p, ~ In p db -> heap st' p = h p).
Proof.
  intros Heps Hmin Hnd Hflag Hdim Hsmall Hfew.
  assert (Hfew' : forall p, In p db ->
            (length (filter (fun q => Z.leb (sqdist h p q) (multiply eps eps)) db) <= min_pts)%nat).
  { destruct Hfew as [Hlen|Hfew]; [|assumption].
    intros p _.
    pose proof (filter_length_le_all (fun q => sqdist h p q <=? multiply eps eps) db). lia. }
  unfold run, optics.
  erewrite bind_run by (apply assert_run; now apply Z.leb_le).
  erewrite bind_run by (apply assert_run; now apply Nat.ltb_lt).
  destruct (optics_loop_no_core fuel db eps min_pts h Heps Hmin Hdim Hsmall Hfew'
              db [] (start h)) as (st' & Hrun & Hin & Hout); auto.
  exists st'. auto.
Qed.

Lemma optics_without_core_objects_witness :
  fst (run (optics 0 [5; 3; 7; 2; 9]%positive 2 5) square_and_far)
  = Ok [5; 3; 7; 2; 9]%positive.
Proof.
  destruct (optics_without_core_objects 0 [5; 3; 7; 2; 9]%positive 2 5 square_and_far)
    as (st' & Hrun & _).
  - lia.
  - lia.
  - repeat constructor; simpl; intuition discriminate.
  - intros p Hp. in_cases Hp; reflexivity.
  - intros a b Ha Hb. in_cases Ha; in_cases Hb; reflexivity.
  - intros a Ha. in_cases Ha; vm_compute; reflexivity.
  - left. simpl. lia.
  - now rewrite Hrun.
Defined.

(** ** What no run does *)

Lemma step_conservative st st' :
  step st st' ->
  (forall p, _data (heap st' p) = _data (heap st p)) /\
  (forall p, _is_processed (heap st p) = true -> _is_processed (heap st' p) = true) /\
  (Forall setter_on_unprocessed (trace st) ->
   Forall setter_on_unprocessed (trace st')).
Proof.
  intros Hs. destruct Hs as [st o d Ho|st q|st q Hr Hq|st q]; cbn [heap trace].
  - split; [intros p; apply upd_reach_data|].
    split; [intros p; now rewrite upd_reach_flag|].
    intros Ht. constructor; [reflexivity|assumption].
  - split; [intros p; apply upd_flag_data|]. split.
    + intros p Hp. unfold upd. destruct (Pos.eqb p q); [reflexivity|assumption].
    + intros Ht. constructor; [exact I|assumption].
  - split; [reflexivity|]. split; [auto|].
    intros Ht. constructor; [exact I|assumption].
  - split; [reflexivity|]. split; [auto|].
    intros Ht. constructor; [exact I|assumption].
Qed.

Lemma steps_conservative st st' :
  steps st st' ->
  (forall p, _data (heap st' p) = _data (heap st p)) /\
  (forall p, _is_processed (heap st p) = true -> _is_processed (heap st' p) = true) /\
  (Forall setter_on_unprocessed (trace st) ->
   Forall setter_on_unprocessed (trace st')).
Proof.
  induction 1 as [|st1 st2 st3 _ (IHd & IHf & IHt) Hs]; [auto|].
  destruct (step_conservative _ _ Hs) as (Hd & Hf & Ht).
  split; [intros p; now rewrite Hd|]. split; auto.
Qed.

(** X11.  No run of [optics], whatever its input and however it ends,
    changes the coordinates of a point or clears a processed flag, and every
    call of the reachability setter addresses a point that is unprocessed at
    that moment. *)
Theorem optics_conservative `{FloatArithmetic} `{StdAlgorithm} fuel db eps min_pts h :
  (forall p, _data (heap (snd (run (optics fuel db eps min_pts) h)) p) = _data (h p)) /\
  (forall p, _is_processed (h p) = true ->
     _is_processed (heap (snd (run (optics fuel db eps min_pts) h)) p) = true) /\
  Forall setter_on_unprocessed
    (history (snd (run (optics fuel db eps min_pts) h))).
Proof.
  destruct (optics_run_reachable fuel db eps min_pts h) as [Hs _].
  destruct (steps_conservative _ _ Hs) as (Hd & Hf & Ht).
  split; [exact Hd|]. split; [exact Hf|].
  unfold history. apply Forall_rev. apply Ht. constructor.
Qed.

(** ** Cluster extraction without a threshold *)

(** X12.  With an outlier threshold of 0 or less no point is an outlier: for
    ascending borders inside an ordering whose reachability distances are at
    most UNDEFINED, the outlier bucket is empty and the other buckets are the
    segments between the borders, unfiltered, so that their concatenation is
    the ordering. *)
Theorem extract_clusters_without_threshold result cluster_borders outlier_threshold st :
  outlier_threshold <= 0 ->
  representable (length result) ->
  Sorted le cluster_borders ->
  (forall b, In b cluster_borders -> (b <= length result)%nat) ->
  (forall p, In p result -> _reachability_distance (heap st p) <= UNDEFINED) ->
  exists clusters,
    extract_clusters result cluster_borders outlier_threshold st
      = (Ok ([] :: clusters), st) /\
    clusters = segments_from result 0 cluster_borders /\
    concat clusters = result.
Proof.
  intros Hthr Hsize Hsorted Hrange Hreach.
  destruct (extract_clusters_buckets result cluster_borders outlier_threshold st
              Hsize Hsorted Hrange) as [Hrun Hcat].
  exists (segments_from result 0 cluster_borders).
  split; [|split; [reflexivity|exact Hcat]].
  rewrite Hrun. unfold effective_threshold.
  destruct (Z.leb_spec outlier_threshold 0) as [_|Hgt]; [|lia].
  assert (Hin : forall p, In p result -> is_outlier (heap st) UNDEFINED p = false).
  { intros p Hp. unfold is_outlier. apply Z.ltb_ge. auto. }
  rewrite filter_none by (rewrite Forall_forall; exact Hin).
  assert (Hmap : map (filter (is_inlier (heap st) UNDEFINED))
                   (segments_from result 0 cluster_borders)
                 = segments_from result 0 cluster_borders).
  { rewrite <- (map_id (segments_from result 0 cluster_borders)) at 2.
    apply map_ext_in. intros seg Hseg. apply filter_all.
    rewrite Forall_forall. intros p Hp. unfold is_inlier. rewrite Hin; [reflexivity|].
    rewrite <- Hcat. apply in_concat. eauto. }
  now rewrite Hmap.
Qed.

Lemma extract_clusters_without_threshold_witness :
  extract_clusters [5; 3; 2; 7; 9]%positive [2%nat] 0
    (snd (run (optics 5 [5; 3; 7; 2; 9]%positive 2 2) square_and_far))
  = (Ok [[]; [5; 3]; [2; 7; 9]]%positive,
     snd (run (optics 5 [5; 3; 7; 2; 9]%positive 2 2) square_and_far)).
Proof.
  destruct (extract_clusters_without_threshold [5; 3; 2; 7; 9]%positive [2%nat] 0
              (snd (run (optics 5 [5; 3; 7; 2; 9]%positive 2 2) square_and_far)))
    as (clusters & Hrun & -> & _).
  - lia.
  - unfold representable. simpl. lia.
  - repeat constructor.
  - intros b [<-|[]]. simpl. lia.
  - intros p Hp. in_cases Hp; vm_compute; discriminate.
  - exact Hrun.
Defined.

(** ** Properties that every run keeps *)

(** A property of states is kept by every run of [optics] if it is kept by
    a call of the reachability setter on an unprocessed point with a
    non-negative distance, and by marking a point processed and pushing it
    with the reachability distance it holds. *)
Section Preservation.
Context `{FloatArithmetic} `{StdAlgorithm}.
Variable P : State -> Prop.
Hypothesis P_write :
  forall st o d, P st -> _is_processed (heap st o) = false -> 0 <= d ->
                 P (wrote st o d).
Hypothesis P_mark :
  forall st q e, P st ->
    e = EvEmitFirst q (_reachability_distance (heap st q)) \/
    e = EvEmitSeed q (_reachability_distance (heap st q)) ->
    P (marked st q e).

Lemma update_seeds_loop_keeps N_eps center c_dist :
  forall seeds st,
    P st ->
    wp (update_seeds_loop N_eps center c_dist seeds) (fun _ st' => P st') P st.
Proof.
  induction N_eps as [|o rest IH]; intros seeds st Hf; simpl.
  - apply wp_mret. assumption.
  - apply wp_bind, wp_gets.
    destruct (_is_processed (heap st o)) eqn:Hdone; [now apply IH|].
    apply wp_bind, wp_pure; [auto with purity| |apply Hf]. intros d _.
    apply wp_bind, wp_gets.
    pose proof (fun new => P_write st o new Hf Hdone) as Hset.
    unfold wrote in Hset.
    destruct (_ =? UNDEFINED).
    + apply wp_bind, wp_set_reachability_distance; [intros Hd|apply Hf].
      apply wp_bind, wp_pure; [auto with purity| |now apply Hset].
      intros s1 _. apply IH. now apply Hset.
    + destruct (_ <? _); [|now apply IH].
      apply wp_bind, wp_pure; [auto with purity| |apply Hf]. intros s1 _.
      apply wp_bind, wp_set_reachability_distance; [intros Hd|apply Hf].
      apply wp_bind, wp_pure; [auto with purity| |now apply Hset].
      intros s2 _. apply IH. now apply Hset.
Qed.

Lemma update_seeds_keeps N_eps center c_dist seeds st :
  P st ->
  wp (update_seeds N_eps center c_dist seeds) (fun _ st' => P st') P st.
Proof.
  intros Hf. unfold update_seeds.
  apply wp_bind, wp_assert; [intros _|apply Hf].
  now apply update_seeds_loop_keeps.
Qed.

Lemma expand_loop_keeps db eps min_pts :
  forall fuel seeds v st,
    P st ->
    wp (expand_loop fuel db eps min_pts seeds v) (fun _ st' => P st') P st.
Proof.
  induction fuel as [|fuel IH]; intros seeds v st Hf;
    destruct seeds as [|q seeds]; simpl;
    try (apply wp_mret; assumption).
  - apply wp_bind, wp_pure; [auto with purity| |apply Hf]. intros N_q _.
    apply wp_bind, wp_pure; [auto with purity| |apply Hf].
    intros [core_dist_q N_q'] _.
    apply wp_bind, wp_processed. apply wp_bind, wp_push_back_seed.
    cbn [heap trace].
    match goal with |- wp _ _ _ ?s => assert (Hf1 : P s) end.
    { rewrite upd_flag_reach. apply (P_mark st q); auto. }
    apply wp_bind. destruct (negb _).
    + eapply wp_conseq; [eapply update_seeds_keeps; eassumption| |auto].
      intros s st' Hf2. now apply IH.
    + apply wp_mret. now apply IH.
Qed.

Lemma expand_cluster_order_keeps fuel db p eps min_pts v st :
  P st -> _is_processed (heap st p) = false ->
  wp (expand_cluster_order fuel db p eps min_pts v) (fun _ st' => P st') P st.
Proof.
  intros Hf Hp. unfold expand_cluster_order.
  apply wp_bind, wp_assert; [intros _|apply Hf].
  apply wp_bind, wp_assert; [intros _|apply Hf].
  apply wp_bind, wp_pure; [auto with purity| |apply Hf]. intros N_eps _.
  apply wp_bind, wp_set_reachability_distance; [intros Hd|apply Hf].
  fold (wrote st p UNDEFINED).
  pose proof (P_write st p UNDEFINED Hf Hp Hd) as Hf1.
  apply wp_bind, wp_pure; [auto with purity| |apply Hf1].
  intros [core_dist_p N_eps'] _.
  apply wp_bind, wp_processed. apply wp_bind, wp_push_back_first.
  cbn [heap trace].
  match goal with |- wp _ _ _ ?s => assert (Hf2 : P s) end.
  { rewrite upd_flag_reach. apply (P_mark (wrote st p UNDEFINED) p); auto. }
  destruct (_ =? UNDEFINED); [apply wp_mret; assumption|].
  apply wp_bind.
  eapply wp_conseq; [eapply update_seeds_keeps; eassumption| |auto].
  intros s st' Hf3. now apply expand_loop_keeps.
Qed.

Lemma optics_loop_keeps fuel db eps min_pts :
  forall it v st,
    P st ->
    wp (optics_loop fuel db it eps min_pts v) (fun _ st' => P st') P st.
Proof.
  induction it as [|p it IH]; intros v st Hf; simpl.
  - apply wp_mret. assumption.
  - apply wp_bind, wp_gets.
    destruct (_is_processed (heap st p)) eqn:Hp; [now apply IH|].
    apply wp_bind.
    eapply wp_conseq; [eapply expand_cluster_order_keeps; eassumption| |auto].
    intros v' st' Hf'. now apply IH.
Qed.

Lemma optics_keeps fuel db eps min_pts h :
  P (start h) -> P (snd (run (optics fuel db eps min_pts) h)).
Proof.
  intros Hf.
  assert (Hwp : wp (optics fuel db eps min_pts) (fun _ st' => P st') P (start h)).
  { unfold optics.
    apply wp_bind, wp_assert; [intros _|apply Hf].
    apply wp_bind, wp_assert; [intros _|apply Hf].
    now apply optics_loop_keeps. }
  unfold wp, run in *.
  destruct (optics fuel db eps min_pts (start h)) as [[v|msg| |] st']; exact Hwp.
Qed.

End Preservation.

(** ** The reachability distance pushed with a point is final *)

Lemma emissions_final_write st o d :
  emissions_final st -> _is_processed (heap st o) = false ->
  emissions_final (wrote st o d).
Proof.
  intros Hf Ho q r Hin. cbn [wrote heap trace] in *.
  assert (Hin' : In (EvEmitFirst q r) (trace st) \/ In (EvEmitSeed q r) (trace st)).
  { destruct Hin as [[Hin|Hin]|[Hin|Hin]]; try discriminate; auto. }
  destruct (Hf q r Hin') as [Hr Hp].
  assert (q <> o) by congruence.
  now rewrite upd_other.
Qed.

Lemma emissions_final_mark st q e :
  emissions_final st ->
  e = EvEmitFirst q (_reachability_distance (heap st q)) \/
  e = EvEmitSeed q (_reachability_distance (heap st q)) ->
  emissions_final (marked st q e).
Proof.
  intros Hf He x r Hin. cbn [marked heap trace] in *.
  assert (Hcases : (x = q /\ r = _reachability_distance (heap st q)) \/
                   In (EvEmitFirst x r) (trace st) \/ In (EvEmitSeed x r) (trace st)).
  { destruct He as [->| ->];
      destruct Hin as [[Hin|[Hin|Hin]]|[Hin|[Hin|Hin]]];
      try discriminate; auto; injection Hin as -> ->; auto. }
  destruct Hcases as [[-> ->]|Hold].
  - rewrite upd_same. auto.
  - destruct (Hf x r Hold) as [Hr Hp].
    destruct (Pos.eq_dec x q) as [->|Hne].
    + rewrite upd_same. auto.
    + now rewrite upd_other.
Qed.

Lemma optics_final `{FloatArithmetic} `{StdAlgorithm} fuel db eps min_pts h :
  emissions_final (snd (run (optics fuel db eps min_pts) h)).
Proof.
  apply (optics_keeps emissions_final).
  - intros st o d Hf Ho _. now apply emissions_final_write.
  - exact emissions_final_mark.
  - intros q r [[]|[]].
Qed.

Lemma emitted_event t p :
  In p (emitted t) ->
  exists r, In (EvEmitFirst p r) t \/ In (EvEmitSeed p r) t.
Proof.
  induction t as [|e t IH]; simpl; [intros []|].
  assert (Hold : In p (emitted t) ->
            exists r, (e = EvEmitFirst p r \/ In (EvEmitFirst p r) t) \/
                      (e = EvEmitSeed p r \/ In (EvEmitSeed p r) t)).
  { intros Hin. destruct (IH Hin) as (r & [Hr|Hr]); exists r; auto. }
  destruct e; try exact Hold; intros Hin; apply in_app_or in Hin;
    (destruct Hin as [Hin|[<-|[]]]; [now apply Hold|]); eexists; eauto.
Qed.

(** X13.  In every run of [optics], whatever its input and however it ends,
    the reachability distance a point is pushed to the ordering with is the
    one the point holds when the run ends, and the point is processed then.
    So the reachability plot read from the points after the run is the plot
    of the values at emission; every point of a returned ordering was pushed
    by such an event. *)
Theorem emitted_reachability_is_final `{FloatArithmetic} `{StdAlgorithm} fuel db eps min_pts h :
  (forall q r,
     In (EvEmitFirst q r) (history (snd (run (optics fuel db eps min_pts) h))) \/
     In (EvEmitSeed q r) (history (snd (run (optics fuel db eps min_pts) h))) ->
     _reachability_distance (heap (snd (run (optics fuel db eps min_pts) h)) q) = r /\
     _is_processed (heap (snd (run (optics fuel db eps min_pts) h)) q) = true) /\
  (forall ord q,
     fst (run (optics fuel db eps min_pts) h) = Ok ord -> In q ord ->
     _is_processed (heap (snd (run (optics fuel db eps min_pts) h)) q) = true /\
     (In (EvEmitFirst q (_reachability_distance
                           (heap (snd (run (optics fuel db eps min_pts) h)) q)))
         (history (snd (run (optics fuel db eps min_pts) h))) \/
      In (EvEmitSeed q (_reachability_distance
                          (heap (snd (run (optics fuel db eps min_pts) h)) q)))
         (history (snd (run (optics fuel db eps min_pts) h))))).
Proof.
  pose proof (optics_final fuel db eps min_pts h) as Hf.
  destruct (optics_run_reachable fuel db eps min_pts h) as [_ Hv].
  set (st := snd (run (optics fuel db eps min_pts) h)) in *.
  unfold history. split.
  - intros q r Hin. apply Hf. now rewrite <- !in_rev in Hin.
  - intros ord q Hok Hq. rewrite <- (Hv ord Hok) in Hq.
    destruct (emitted_event _ _ Hq) as (r & Hr).
    destruct (Hf q r Hr) as [<- Hp]. split; [exact Hp|].
    now rewrite <- !in_rev.
Qed.

(** ** The effect of [update_seeds] *)

Lemma improved_bound c d r :
  Z.max c d < UNDEFINED ->
  improved c d r <= Z.max c d /\ improved c d r <> UNDEFINED.
Proof.
  intros Hnew. unfold improved. destruct (Z.eqb_spec r UNDEFINED); lia.
Qed.

Lemma improved_idem c d r :
  Z.max c d < UNDEFINED -> improved c d (improved c d r) = improved c d r.
Proof.
  intros Hnew. destruct (improved_bound c d r Hnew) as [Hle Hne].
  unfold improved at 1. destruct (Z.eqb_spec (improved c d r) UNDEFINED); lia.
Qed.

Lemma seeds_updated_cons `{FloatArithmetic} h h1 o rest center c :
  _is_processed (h o) = false ->
  Z.max c (sqdist h center o) < UNDEFINED ->
  (forall x, h1 x = if Pos.eqb x o
                    then with_reachability
                           (improved c (sqdist h center o) (_reachability_distance (h o)))
                           (h o)
                    else h x) ->
  forall x, seeds_updated h1 rest center c x = seeds_updated h (o :: rest) center c x.
Proof.
  intros Hflag Hnew H1 x.
  assert (Hdata : forall y, _data (h1 y) = _data (h y)).
  { intros y. rewrite H1. destruct (Pos.eqb_spec y o) as [->|_]; reflexivity. }
  unfold seeds_updated. rewrite (sqdist_data h1 h) by exact Hdata.
  rewrite (H1 x). simpl existsb.
  destruct (Pos.eqb_spec x o) as [->|Hne]; [|reflexivity].
  unfold with_reachability. cbn [_data _reachability_distance _is_processed].
  rewrite Hflag, improved_idem by assumption. cbn [negb andb orb].
  destruct (existsb (Pos.eqb o) rest); reflexivity.
Qed.

Lemma becomes_seed_cons `{FloatArithmetic} h h1 o rest center c x :
  _is_processed (h o) = false ->
  Z.max c (sqdist h center o) < UNDEFINED ->
  (forall y, h1 y = if Pos.eqb y o
                    then with_reachability
                           (improved c (sqdist h center o) (_reachability_distance (h o)))
                           (h o)
                    else h y) ->
  becomes_seed h (o :: rest) center c x <->
  (x = o /\ (_reachability_distance (h o) = UNDEFINED \/
             Z.max c (sqdist h center o) < _reachability_distance (h o))) \/
  becomes_seed h1 rest center c x.
Proof.
  intros Hflag Hnew H1.
  assert (Hdata : forall y, _data (h1 y) = _data (h y)).
  { intros y. rewrite H1. destruct (Pos.eqb_spec y o) as [->|_]; reflexivity. }
  unfold becomes_seed. rewrite (sqdist_data h1 h) by exact Hdata.
  rewrite (H1 x). simpl In.
  destruct (Pos.eqb_spec x o) as [->|Hne].
  - unfold with_reachability. cbn [_data _reachability_distance _is_processed].
    destruct (improved_bound c (sqdist h center o) (_reachability_distance (h o)) Hnew)
      as [Hle Hne].
    split.
    + intros (_ & _ & Hc). left. auto.
    + intros [[_ Hc]|(Hin & Hf & Hc)]; [auto|exfalso; lia].
  - split.
    + intros ([E|Hin] & Hf & Hc); [congruence|right; auto].
    + intros [[E _]|(Hin & Hf & Hc)]; [congruence|auto].
Qed.

Lemma with_reachability_same o : with_reachability (_reachability_distance o) o = o.
Proof. now destruct o. Qed.

Lemma update_seeds_loop_effect `{FloatArithmetic} center c_dist :
  finite c_dist ->
  forall N_eps seeds st,
    representable (dim (heap st) center) ->
    (forall o, In o N_eps -> dim (heap st) o = dim (heap st) center) ->
    (forall s, In s seeds -> dim (heap st) s = dim (heap st) center) ->
    (forall o, In o N_eps -> sqdist (heap st) center o < UNDEFINED) ->
    StronglySorted (seed_order (heap st)) seeds ->
    (forall s, In s seeds -> _reachability_distance (heap st s) <> UNDEFINED) ->
    exists seeds' st',
      update_seeds_loop N_eps center c_dist seeds st = (Ok seeds', st') /\
      (forall x, heap st' x = seeds_updated (heap st) N_eps center c_dist x) /\
      StronglySorted (seed_order (heap st')) seeds' /\
      (forall s, In s seeds' -> _reachability_distance (heap st' s) <> UNDEFINED) /\
      (forall x, In x seeds' <->
                 In x seeds \/ becomes_seed (heap st) N_eps center c_dist x).
Proof.
  intros Hc.
  induction N_eps as [|o rest IH];
    intros seeds st Hsmall HdimN HdimS Hdist Hsorted Hseeds.
  - exists seeds, st. split; [reflexivity|]. split.
    + intros x. unfold seeds_updated. simpl. now rewrite andb_false_r.
    + split; [assumption|]. split; [assumption|].
      intros x. unfold becomes_seed. simpl. tauto.
  - assert (Ho : dim (heap st) o = dim (heap st) center) by (apply HdimN; now left).
    assert (HdimR : forall x, In x rest -> dim (heap st) x = dim (heap st) center)
      by (intros x Hx; apply HdimN; now right).
    assert (HdistR : forall x, In x rest -> sqdist (heap st) center x < UNDEFINED)
      by (intros x Hx; apply Hdist; now right).
    cbn [update_seeds_loop]. erewrite bind_run by reflexivity.
    destruct (_is_processed (heap st o)) eqn:Hflag.
    + destruct (IH seeds st) as (seeds' & st' & Hrun & Hheap & Hs' & Hr' & Hin');
        try assumption.
      exists seeds', st'. split; [exact Hrun|]. split.
      * intros x. rewrite Hheap. unfold seeds_updated. simpl existsb.
        destruct (Pos.eqb_spec x o) as [->|Hne]; [|reflexivity].
        now rewrite Hflag.
      * split; [assumption|]. split; [assumption|].
        intros x. rewrite Hin'. unfold becomes_seed. simpl.
        split; (intros [Hx|(Hx & Hf & Hcond)]; [now left|right]); [auto|].
        destruct Hx as [<-|Hx]; [congruence|auto].
    + pose proof (sqdist_nonneg (heap st) center o) as Hd0.
      pose proof (Hdist o (or_introl eq_refl)) as Hd1.
      set (d := sqdist (heap st) center o) in *.
      set (r := _reachability_distance (heap st o)).
      assert (Hnew : finite (Z.max c_dist d)) by (unfold finite in *; lia).
      assert (Htail : forall s1 st1,
                (forall x, heap st1 x
                           = if Pos.eqb x o
                             then with_reachability (improved c_dist d r) (heap st o)
                             else heap st x) ->
                StronglySorted (seed_order (heap st1)) s1 ->
                (forall x, In x s1 <->
                           In x seeds \/
                           (x = o /\ (r = UNDEFINED \/ Z.max c_dist d < r))) ->
                exists seeds' st',
                  update_seeds_loop rest center c_dist s1 st1 = (Ok seeds', st') /\
                  (forall x, heap st' x
                             = seeds_updated (heap st) (o :: rest) center c_dist x) /\
                  StronglySorted (seed_order (heap st')) seeds' /\
                  (forall s, In s seeds' ->
                             _reachability_distance (heap st' s) <> UNDEFINED) /\
                  (forall x, In x seeds' <->
                             In x seeds \/
                             becomes_seed (heap st) (o :: rest) center c_dist x)).
      { intros s1 st1 H1 Hs1 Hin1.
        assert (Hdata : forall y, _data (heap st1 y) = _data (heap st y)).
        { intros y. rewrite H1. destruct (Pos.eqb_spec y o) as [->|_]; reflexivity. }
        destruct (improved_bound c_dist d r (proj2 Hnew)) as [Hle Hne].
        destruct (IH s1 st1) as (seeds' & st' & Hrun & Hheap & Hs' & Hr' & Hin').
        - now rewrite (dim_data (heap st1) (heap st)) by exact Hdata.
        - intros x Hx. rewrite !(dim_data (heap st1) (heap st)) by exact Hdata. auto.
        - intros x Hx. rewrite !(dim_data (heap st1) (heap st)) by exact Hdata.
          apply Hin1 in Hx. destruct Hx as [Hx|[-> _]]; auto.
        - intros x Hx. rewrite (sqdist_data (heap st1) (heap st)) by exact Hdata. auto.
        - exact Hs1.
        - intros x Hx. rewrite H1. destruct (Pos.eqb_spec x o) as [->|Hxo].
          + exact Hne.
          + apply Hin1 in Hx. destruct Hx as [Hx|[-> _]]; [auto|contradiction].
        - exists seeds', st'. split; [exact Hrun|]. split.
          + intros x. rewrite Hheap.
            apply seeds_updated_cons; [assumption|apply Hnew|exact H1].
          + split; [assumption|]. split; [assumption|].
            intros x. rewrite Hin', Hin1.
            rewrite (becomes_seed_cons (heap st) (heap st1) o rest center c_dist x
                       Hflag (proj2 Hnew) H1).
            fold d r. tauto. }
      erewrite bind_run by (apply squared_distance_ok; [assumption|now symmetry]).
      erewrite bind_run by reflexivity.
      fold d r.
      assert (Hdims1 : forall new s, (forall y, In y s -> In y seeds) ->
                forall y, In y s ->
                  dim (heap (wrote st o new)) y = dim (heap (wrote st o new)) o).
      { intros new s Hs y Hy. cbn [wrote heap].
        rewrite !(dim_data (upd (heap st) o (with_reachability new)) (heap st))
          by (intros z; apply upd_reach_data).
        rewrite Ho. auto. }
      destruct (Z.eqb_spec r UNDEFINED) as [Hr|Hr].
      * erewrite bind_run by (apply set_reachability_distance_run; apply Hnew).
        destruct (set_insert_ok o (wrote st o (Z.max c_dist d)) seeds)
          as (s1 & Hrun1 & Hs1 & Hin1).
        { apply Hdims1. auto. }
        { apply sorted_after_write; [|assumption].
          intros Hin. now apply (Hseeds o Hin). }
        erewrite bind_run by exact Hrun1.
        apply Htail; [|exact Hs1|].
        -- intros x. cbn [wrote heap]. unfold upd, improved.
           rewrite Hr, Z.eqb_refl.
           destruct (Pos.eqb_spec x o) as [->|_]; reflexivity.
        -- intros x. rewrite Hin1. intuition.
      * destruct (Z.ltb_spec (Z.max c_dist d) r) as [Hlt|Hge].
        -- destruct (set_erase_ok o st seeds) as (s0 & Hrun0 & Hs0 & Hin0).
           { intros y Hy. rewrite Ho. auto. }
           { assumption. }
           erewrite bind_run by exact Hrun0.
           erewrite bind_run by (apply set_reachability_distance_run; apply Hnew).
           destruct (set_insert_ok o (wrote st o (Z.max c_dist d)) s0)
             as (s1 & Hrun1 & Hs1 & Hin1).
           { apply Hdims1. intros y Hy. now apply Hin0 in Hy. }
           { apply sorted_after_write; [|assumption].
             intros Hin. apply Hin0 in Hin. now destruct Hin. }
           erewrite bind_run by exact Hrun1.
           apply Htail; [|exact Hs1|].
           ++ intros x. cbn [wrote heap]. unfold upd, improved.
              destruct (Z.eqb_spec r UNDEFINED); [contradiction|].
              rewrite Z.min_r by lia.
              destruct (Pos.eqb_spec x o) as [->|_]; reflexivity.
           ++ intros x. rewrite Hin1, Hin0.
              destruct (Pos.eq_dec x o); intuition.
        -- apply Htail; [|exact Hsorted|].
           ++ intros x. unfold improved.
              destruct (Z.eqb_spec r UNDEFINED); [contradiction|].
              rewrite Z.min_l by lia.
              destruct (Pos.eqb_spec x o) as [->|_]; [|reflexivity].
              unfold r. now rewrite with_reachability_same.
           ++ intros x. intuition lia.
Qed.

(** X14.  What [update_seeds] does, for a finite core distance, a centre and
    neighbours of one dimensionality at computed squared distances below
    UNDEFINED,
    and a seed set that is in the order of its functor and holds no point at
    UNDEFINED.  Each unprocessed neighbour [o] gets the reachability distance
    [max (c_dist, d(center, o))] if it was at UNDEFINED or if that is smaller
    than its distance so far; nothing else is written: processed points,
    points outside the neighbourhood, coordinates and flags stay as they
    are.  The seeds afterwards are the seeds before plus the neighbours that
    were written, again in the order of the functor for the new distances,
    and none is at UNDEFINED. *)
Theorem update_seeds_effect `{FloatArithmetic} N_eps center c_dist seeds st :
  finite c_dist ->
  representable (dim (heap st) center) ->
  (forall o, In o N_eps -> dim (heap st) o = dim (heap st) center) ->
  (forall s, In s seeds -> dim (heap st) s = dim (heap st) center) ->
  (forall o, In o N_eps -> sqdist (heap st) center o < UNDEFINED) ->
  StronglySorted (seed_order (heap st)) seeds ->
  (forall s, In s seeds -> _reachability_distance (heap st s) <> UNDEFINED) ->
  exists seeds' st',
    update_seeds N_eps center c_dist seeds st = (Ok seeds', st') /\
    (forall x, heap st' x = seeds_updated (heap st) N_eps center c_dist x) /\
    StronglySorted (seed_order (heap st')) seeds' /\
    (forall s, In s seeds' -> _reachability_distance (heap st' s) <> UNDEFINED) /\
    (forall x, In x seeds' <->
               In x seeds \/ becomes_seed (heap st) N_eps center c_dist x).
Proof.
  intros Hc Hsmall HdimN HdimS Hdist Hsorted Hseeds. unfold update_seeds.
  erewrite bind_run.
  2:{ apply assert_run. destruct (Z.eqb_spec c_dist UNDEFINED); [|reflexivity].
      unfold finite in Hc. lia. }
  now apply update_seeds_loop_effect.
Qed.

Lemma update_seeds_effect_witness :
  exists st',
    update_seeds [5; 3; 7; 2]%positive 5 1 [] (start square_and_far)
      = (Ok [3; 5; 7; 2]%positive, st') /\
    _reachability_distance (heap st' 2%positive) = 2 /\
    heap st' 9%positive = square_and_far 9%positive.
Proof.
  destruct (update_seeds_effect [5; 3; 7; 2]%positive 5 1 [] (start square_and_far))
    as (seeds' & st' & Hrun & Hheap & _).
  - unfold finite, UNDEFINED. lia.
  - vm_compute. reflexivity.
  - intros o Ho. in_cases Ho; reflexivity.
  - intros s [].
  - intros o Ho. in_cases Ho; vm_compute; reflexivity.
  - constructor.
  - intros s [].
  - exists st'. split; [|split].
    + rewrite Hrun. f_equal. f_equal.
      vm_compute in Hrun. now injection Hrun as <- _.
    + rewrite Hheap. vm_compute. reflexivity.
    + rewrite Hheap. vm_compute. reflexivity.
Defined.

(** ** The callback version does what the plain version does *)

Lemma sim_mret {A} (a : A) : simulates (mret a) (mret a).
Proof. intros st. reflexivity. Qed.

Lemma sim_fail {A} r : simulates (@fail A r) (@fail A r).
Proof. intros st. reflexivity. Qed.

Lemma sim_assert b msg : simulates (assert b msg) (assert b msg).
Proof. intros st. unfold assert. now destruct b. Qed.

Lemma sim_gets {A} (f : Heap -> A) : simulates (gets f) (gets f).
Proof. intros st. reflexivity. Qed.

Lemma sim_update p f : simulates (update p f) (update p f).
Proof. intros st. reflexivity. Qed.

Lemma sim_log e : is_callback e = false -> simulates (log e) (log e).
Proof.
  intros He st. unfold log, erase, without_callbacks. simpl. now rewrite He.
Qed.

Lemma sim_bind {A B} (m m' : M A) (f f' : A -> M B) :
  simulates m m' -> (forall a, simulates (f a) (f' a)) ->
  simulates (bind m f) (bind m' f').
Proof.
  intros Hm Hf st. unfold bind. rewrite Hm.
  destruct (m' st) as [[a|msg| |] st1]; simpl; [apply Hf|reflexivity..].
Qed.

Lemma sim_if {A} (b : bool) (m1 m1' m2 m2' : M A) :
  simulates m1 m1' -> simulates m2 m2' ->
  simulates (if b then m1 else m2) (if b then m1' else m2').
Proof. now destruct b. Qed.

Lemma sim_at_index {A} (v : list A) i : simulates (at_index v i) (at_index v i).
Proof. unfold at_index. destruct (nth_error v i); intros st; reflexivity. Qed.

(** A call of the recording callback is invisible after erasure. *)
Lemma sim_callback {A} (m m' : M A) p :
  simulates m m' -> simulates m (recording_callback p ;;; m').
Proof.
  intros Hm st. exact (Hm (mkState (heap st) (EvCallback p :: trace st))).
Qed.

#[export] Hint Resolve sim_mret sim_fail sim_assert sim_gets sim_update sim_bind
  sim_if sim_at_index : simulation.

Lemma sim_reachability_distance p :
  simulates (reachability_distance p) (reachability_distance p).
Proof. unfold reachability_distance. auto with simulation. Qed.

Lemma sim_is_processed p : simulates (is_processed p) (is_processed p).
Proof. unfold is_processed. auto with simulation. Qed.

Lemma sim_data p : simulates (data p) (data p).
Proof. unfold data. auto with simulation. Qed.

#[export] Hint Resolve sim_reachability_distance sim_is_processed sim_data : simulation.

Lemma sim_set_reachability_distance p d :
  simulates (set_reachability_distance p d) (set_reachability_distance p d).
Proof.
  unfold set_reachability_distance.
  repeat (apply sim_bind; [auto with simulation|intros ?]).
  now apply sim_log.
Qed.

Lemma sim_processed p b : simulates (processed p b) (processed p b).
Proof.
  unfold processed. apply sim_bind; [auto with simulation|intros _].
  now apply sim_log.
Qed.

Lemma sim_push_back_first v p : simulates (push_back_first v p) (push_back_first v p).
Proof.
  unfold push_back_first. apply sim_bind; [auto with simulation|intros r].
  apply sim_bind; [now apply sim_log|auto with simulation].
Qed.

Lemma sim_push_back_seed v q : simulates (push_back_seed v q) (push_back_seed v q).
Proof.
  unfold push_back_seed. apply sim_bind; [auto with simulation|intros r].
  apply sim_bind; [now apply sim_log|auto with simulation].
Qed.

Lemma sim_squared_distance `{FloatArithmetic} a b : simulates (squared_distance a b) (squared_distance a b).
Proof. unfold squared_distance. auto 10 with simulation. Qed.

#[export] Hint Resolve sim_set_reachability_distance sim_processed
  sim_push_back_first sim_push_back_seed sim_squared_distance : simulation.

Lemma sim_get_neighbors_loop `{FloatArithmetic} p e db :
  forall acc, simulates (get_neighbors_loop p e db acc) (get_neighbors_loop p e db acc).
Proof. induction db as [|q db IH]; intros acc; simpl; auto with simulation. Qed.

Lemma sim_get_neighbors `{FloatArithmetic} p eps db :
  simulates (get_neighbors p eps db) (get_neighbors p eps db).
Proof. unfold get_neighbors. auto using sim_get_neighbors_loop with simulation. Qed.

Lemma sim_comparator_assertions `{FloatArithmetic} p v :
  simulates (comparator_assertions p v) (comparator_assertions p v).
Proof. induction v as [|a v IH]; simpl; auto with simulation. Qed.

#[export] Hint Resolve sim_get_neighbors sim_comparator_assertions : simulation.

Lemma sim_squared_core_distance `{FloatArithmetic} `{StdAlgorithm} p min_pts N_eps :
  simulates (squared_core_distance p min_pts N_eps)
            (squared_core_distance p min_pts N_eps).
Proof. unfold squared_core_distance. auto 10 with simulation. Qed.

Lemma sim_Comp lhs rhs :
  simulates (Comp_DataPoint_Ptr_f lhs rhs) (Comp_DataPoint_Ptr_f lhs rhs).
Proof. unfold Comp_DataPoint_Ptr_f. auto 12 with simulation. Qed.

#[export] Hint Resolve sim_squared_core_distance sim_Comp : simulation.

Lemma sim_set_insert x s : simulates (set_insert x s) (set_insert x s).
Proof. induction s as [|y s IH]; simpl; auto 10 with simulation. Qed.

Lemma sim_set_erase x s : simulates (set_erase x s) (set_erase x s).
Proof. induction s as [|y s IH]; simpl; auto 10 with simulation. Qed.

#[export] Hint Resolve sim_set_insert sim_set_erase : simulation.

Lemma sim_update_seeds_loop `{FloatArithmetic} N_eps center c_dist :
  forall seeds,
    simulates (update_seeds_loop N_eps center c_dist seeds)
              (update_seeds_loop N_eps center c_dist seeds).
Proof.
  induction N_eps as [|o rest IH]; intros seeds; simpl; auto 20 with simulation.
Qed.

Lemma sim_update_seeds `{FloatArithmetic} N_eps center c_dist seeds :
  simulates (update_seeds N_eps center c_dist seeds)
            (update_seeds N_eps center c_dist seeds).
Proof. unfold update_seeds. auto using sim_update_seeds_loop with simulation. Qed.

#[export] Hint Resolve sim_update_seeds : simulation.

Section Simulation.
Context `{FloatArithmetic} `{StdAlgorithm}.

Lemma sim_expand_loop db p eps min_pts :
  forall fuel seeds v,
    simulates (expand_loop fuel db eps min_pts seeds v)
              (expand_loop_cb recording_callback fuel db p eps min_pts seeds v).
Proof.
  induction fuel as [|fuel IH]; intros seeds v;
    destruct seeds as [|q seeds]; simpl; auto with simulation.
  apply sim_bind; [auto with simulation|intros N_q].
  apply sim_bind; [auto with simulation|intros [core_dist_q N_q']].
  apply sim_bind; [auto with simulation|intros _].
  apply sim_bind; [auto with simulation|intros v'].
  apply sim_callback.
  apply sim_bind; [auto with simulation|intros s]. apply IH.
Qed.

Lemma sim_expand_cluster_order fuel db p eps min_pts v :
  simulates (expand_cluster_order fuel db p eps min_pts v)
            (expand_cluster_order_cb recording_callback fuel db p eps min_pts v).
Proof.
  unfold expand_cluster_order, expand_cluster_order_cb.
  apply sim_bind; [auto with simulation|intros _].
  apply sim_bind; [auto with simulation|intros _].
  apply sim_bind; [auto with simulation|intros N_eps].
  apply sim_bind; [auto with simulation|intros _].
  apply sim_bind; [auto with simulation|intros [core_dist_p N_eps']].
  apply sim_bind; [auto with simulation|intros _].
  apply sim_bind; [auto with simulation|intros v'].
  apply sim_callback.
  apply sim_if; [auto with simulation|].
  apply sim_bind; [auto with simulation|intros s]. apply sim_expand_loop.
Qed.

Lemma sim_optics_loop fuel db eps min_pts :
  forall it v,
    simulates (optics_loop fuel db it eps min_pts v)
              (optics_loop_cb recording_callback fuel db it eps min_pts v).
Proof.
  induction it as [|p it IH]; intros v; simpl; [auto with simulation|].
  apply sim_bind; [auto with simulation|intros done].
  apply sim_if; [apply IH|].
  apply sim_bind; [apply sim_expand_cluster_order|intros v']. apply IH.
Qed.

Lemma sim_optics fuel db eps min_pts :
  simulates (optics fuel db eps min_pts)
            (optics_cb recording_callback fuel db eps min_pts).
Proof.
  unfold optics, optics_cb.
  apply sim_bind; [auto with simulation|intros _].
  apply sim_bind; [auto with simulation|intros _].
  apply sim_optics_loop.
Qed.

End Simulation.

(** X15.  The callback version of [optics], run with a callback that does
    nothing but record its calls, does what the plain version does: on every
    input and for every amount of fuel both return the same (the same
    ordering, or the same failure), leave the same heap, and record the same
    mutator calls in the same order. *)
Theorem callback_version_agrees `{FloatArithmetic} `{StdAlgorithm} fuel db eps min_pts h :
  fst (run (optics_cb recording_callback fuel db eps min_pts) h)
    = fst (run (optics fuel db eps min_pts) h) /\
  heap (snd (run (optics_cb recording_callback fuel db eps min_pts) h))
    = heap (snd (run (optics fuel db eps min_pts) h)) /\
  without_callbacks
    (history (snd (run (optics_cb recording_callback fuel db eps min_pts) h)))
    = history (snd (run (optics fuel db eps min_pts) h)).
Proof.
  pose proof (sim_optics fuel db eps min_pts (start h)) as Hsim.
  unfold run. change (erase (start h)) with (start h) in Hsim.
  rewrite Hsim. simpl. repeat split.
  unfold history, without_callbacks. simpl.
  clear. induction (trace _) as [|e t IH]; simpl; [reflexivity|].
  rewrite filter_app, IH. simpl. destruct (negb (is_callback e)); simpl.
  - reflexivity.
  - now rewrite app_nil_r.
Qed.

(** ** What the callback is called with *)

(** [update_seeds] records calls of the reachability setter and nothing
    else: a property of traces that such records do not affect is kept. *)
Lemma update_seeds_loop_trace `{FloatArithmetic} (P : list Event -> Prop) N_eps center c_dist :
  (forall t o w old new, P t -> P (EvReach o w old new :: t)) ->
  forall seeds st,
    P (trace st) ->
    wp (update_seeds_loop N_eps center c_dist seeds)
       (fun _ st' => P (trace st')) (fun st' => P (trace st')) st.
Proof.
  intros HP. induction N_eps as [|o rest IH]; intros seeds st Ht; simpl.
  - apply wp_mret. assumption.
  - apply wp_bind, wp_gets.
    destruct (_is_processed (heap st o)); [now apply IH|].
    apply wp_bind, wp_pure; [auto with purity| |apply Ht]. intros d _.
    apply wp_bind, wp_gets.
    destruct (_ =? UNDEFINED).
    + apply wp_bind, wp_set_reachability_distance; [intros _|apply Ht].
      apply wp_bind, wp_pure; [auto with purity| |now apply HP].
      intros s1 _. apply IH. now apply HP.
    + destruct (_ <? _); [|now apply IH].
      apply wp_bind, wp_pure; [auto with purity| |apply Ht]. intros s1 _.
      apply wp_bind, wp_set_reachability_distance; [intros _|apply Ht].
      apply wp_bind, wp_pure; [auto with purity| |now apply HP].
      intros s2 _. apply IH. now apply HP.
Qed.

Lemma update_seeds_trace `{FloatArithmetic} (P : list Event -> Prop) N_eps center c_dist seeds st :
  (forall t o w old new, P t -> P (EvReach o w old new :: t)) ->
  P (trace st) ->
  wp (update_seeds N_eps center c_dist seeds)
     (fun _ st' => P (trace st')) (fun st' => P (trace st')) st.
Proof.
  intros HP Ht. unfold update_seeds.
  apply wp_bind, wp_assert; [intros _|apply Ht].
  now apply update_seeds_loop_trace.
Qed.

Section Calls.
Context `{FloatArithmetic} `{StdAlgorithm}.

Lemma expanding_write p t o w old new :
  expanding p t -> expanding p (EvReach o w old new :: t).
Proof. intros Ht. exact Ht. Qed.

Lemma expand_loop_cb_calls db p eps min_pts :
  forall fuel seeds v st,
    expanding p (trace st) ->
    wp (expand_loop_cb recording_callback fuel db p eps min_pts seeds v)
       (fun _ st' => calls_follow_start_points (trace st'))
       (fun st' => calls_follow_start_points (trace st')) st.
Proof.
  induction fuel as [|fuel IH]; intros seeds v st He;
    destruct seeds as [|q seeds]; simpl;
    try (apply wp_mret; apply He).
  - apply wp_out_of_fuel, He.
  - apply wp_bind, wp_pure; [auto with purity| |apply He]. intros N_q _.
    apply wp_bind, wp_pure; [auto with purity| |apply He].
    intros [core_dist_q N_q'] _.
    apply wp_bind, wp_processed. apply wp_bind, wp_push_back_seed.
    apply wp_bind, wp_log. cbn [heap trace].
    match goal with |- wp _ _ _ ?s => assert (He1 : expanding p (trace s)) end.
    { destruct He as [[Hc Hl] Hs]. unfold expanding, calls_follow_start_points.
      cbn [trace called start_points emitted current_start].
      rewrite Hs, Hc, !length_app, Hl. auto. }
    apply wp_bind. destruct (negb _).
    + eapply wp_conseq;
        [apply (update_seeds_trace (expanding p));
         [apply expanding_write|exact He1]| |intros st' Hst'; apply Hst'].
      intros s st' He2. now apply IH.
    + apply wp_mret. now apply IH.
Qed.

Lemma expand_cluster_order_cb_calls fuel db p eps min_pts v st :
  calls_follow_start_points (trace st) ->
  wp (expand_cluster_order_cb recording_callback fuel db p eps min_pts v)
     (fun _ st' => calls_follow_start_points (trace st'))
     (fun st' => calls_follow_start_points (trace st')) st.
Proof.
  intros Hc. unfold expand_cluster_order_cb.
  apply wp_bind, wp_assert; [intros _|apply Hc].
  apply wp_bind, wp_assert; [intros _|apply Hc].
  apply wp_bind, wp_pure; [auto with purity| |apply Hc]. intros N_eps _.
  apply wp_bind, wp_set_reachability_distance; [intros _|apply Hc].
  apply wp_bind, wp_pure; [auto with purity| |apply Hc].
  intros [core_dist_p N_eps'] _.
  apply wp_bind, wp_processed. apply wp_bind, wp_push_back_first.
  apply wp_bind, wp_log. cbn [heap trace].
  match goal with |- wp _ _ _ ?s => assert (He1 : expanding p (trace s)) end.
  { destruct Hc as [Hc Hl]. unfold expanding, calls_follow_start_points.
    cbn [trace called start_points emitted current_start].
    rewrite Hc, !length_app, Hl. auto. }
  destruct (_ =? UNDEFINED); [apply wp_mret; apply He1|].
  apply wp_bind.
  eapply wp_conseq;
    [apply (update_seeds_trace (expanding p));
     [apply expanding_write|exact He1]| |intros st' Hst'; apply Hst'].
  intros s st' He2. now apply expand_loop_cb_calls.
Qed.

Lemma optics_loop_cb_calls fuel db eps min_pts :
  forall it v st,
    calls_follow_start_points (trace st) ->
    wp (optics_loop_cb recording_callback fuel db it eps min_pts v)
       (fun _ st' => calls_follow_start_points (trace st'))
       (fun st' => calls_follow_start_points (trace st')) st.
Proof.
  induction it as [|p it IH]; intros v st Hc; simpl.
  - apply wp_mret. assumption.
  - apply wp_bind, wp_gets.
    destruct (_is_processed (heap st p)); [now apply IH|].
    apply wp_bind.
    eapply wp_conseq; [now apply expand_cluster_order_cb_calls| |auto].
    intros v' st' Hc'. now apply IH.
Qed.

Lemma optics_cb_calls fuel db eps min_pts h :
  calls_follow_start_points
    (trace (snd (run (optics_cb recording_callback fuel db eps min_pts) h))).
Proof.
  assert (Hc : calls_follow_start_points (trace (start h))) by (split; reflexivity).
  assert (Hwp : wp (optics_cb recording_callback fuel db eps min_pts)
                  (fun _ st' => calls_follow_start_points (trace st'))
                  (fun st' => calls_follow_start_points (trace st')) (start h)).
  { unfold optics_cb.
    apply wp_bind, wp_assert; [intros _|apply Hc].
    apply wp_bind, wp_assert; [intros _|apply Hc].
    now apply optics_loop_cb_calls. }
  unfold wp, run in *.
  destruct (optics_cb recording_callback fuel db eps min_pts (start h))
    as [[v|msg| |] st']; exact Hwp.
Qed.

End Calls.

Lemma current_start_event t p :
  current_start t = Some p -> exists r, In (EvEmitFirst p r) t.
Proof.
  induction t as [|e t IH]; simpl; [discriminate|].
  assert (Hold : current_start t = Some p ->
                 exists r, e = EvEmitFirst p r \/ In (EvEmitFirst p r) t).
  { intros Hs. destruct (IH Hs) as (r & Hr). eauto. }
  destruct e as [o w old new|q|q r|q r|q]; try exact Hold.
  intros Hs. injection Hs as ->. exists r. now left.
Qed.

Lemma start_points_event t p :
  In p (start_points t) -> exists r, In (EvEmitFirst p r) t.
Proof.
  induction t as [|e t IH]; simpl; [intros []|].
  assert (Hold : In p (start_points t) ->
                 exists r, e = EvEmitFirst p r \/ In (EvEmitFirst p r) t).
  { intros Hin. destruct (IH Hin) as (r & Hr). eauto. }
  destruct e as [o w old new|q|q r|q r|q]; try exact Hold;
    intros Hin; apply in_app_or in Hin; destruct Hin as [Hin|Hin];
    try (now apply Hold).
  - destruct Hin as [<-|[]]. exists r. now left.
  - destruct (current_start t) as [s|] eqn:Hs; [|destruct Hin].
    destruct Hin as [<-|[]].
    destruct (current_start_event t s Hs) as (r' & Hr). eauto.
Qed.

(** X16.  In every run of the callback version of [optics], whatever its
    input and however it ends, the callback has been called once for every
    point pushed to the ordering, in the order of the pushes, and each time
    with the start point of the expansion that pushed the point: with the
    pushed point itself only when that point starts an expansion.  So every
    argument of the callback is a point that was pushed as the start of an
    expansion, with reachability UNDEFINED. *)
Theorem callback_called_with_start_points `{FloatArithmetic} `{StdAlgorithm} fuel db eps min_pts h :
  let t := trace (snd (run (optics_cb recording_callback fuel db eps min_pts) h)) in
  called t = start_points t /\
  length (called t) = length (emitted t) /\
  (forall ord, fst (run (optics_cb recording_callback fuel db eps min_pts) h) = Ok ord ->
               length (called t) = length ord) /\
  (forall p, In p (called t) -> exists r, In (EvEmitFirst p r) t).
Proof.
  intros t. destruct (optics_cb_calls fuel db eps min_pts h) as [Hc Hl].
  fold t in Hc, Hl.
  split; [exact Hc|]. split; [now rewrite Hc|]. split.
  - intros ord Hok. rewrite Hc, Hl.
    pose proof (sim_optics fuel db eps min_pts (start h)) as Hsim.
    change (erase (start h)) with (start h) in Hsim.
    destruct (optics_run_reachable fuel db eps min_pts h) as [_ Hv].
    unfold run in Hv, Hok. rewrite Hsim in Hv. simpl in Hv.
    specialize (Hv ord Hok). rewrite <- Hv. unfold t, run.
    clear. induction (trace _) as [|e l IH]; simpl; [reflexivity|].
    destruct e; simpl; rewrite ?length_app, ?IH; reflexivity.
  - intros p Hp. rewrite Hc in Hp. now apply start_points_event.
Qed.

(** ** The reachability distances of an ordering *)

Lemma wp_conj {A} (m : M A) (Q1 Q2 : A -> State -> Prop) (E1 E2 : State -> Prop) st :
  wp m Q1 E1 st -> wp m Q2 E2 st ->
  wp m (fun a st' => Q1 a st' /\ Q2 a st') (fun st' => E1 st' /\ E2 st') st.
Proof. unfold wp. destruct (m st) as [[a|msg| |] st1]; auto. Qed.

Lemma seed_emissions_finite_write t o w old new :
  seed_emissions_finite t -> seed_emissions_finite (EvReach o w old new :: t).
Proof. intros Ht q r [Hin|Hin]; [discriminate|eauto]. Qed.

Section ValidEmissions.
Context `{FloatArithmetic} `{StdAlgorithm}.
Variables (db : DataVector) (eps : real) (min_pts : nat) (h0 : Heap).
Hypothesis Heps : 0 <= eps.
Hypothesis Hmin : (1 <= min_pts)%nat.
Hypothesis Hdim : forall a b, In a db -> In b db -> dim h0 a = dim h0 b.
Hypothesis Hsmall : forall a, In a db -> representable (dim h0 a).
Hypothesis Hdist : forall a b, In a db -> In b db -> sqdist h0 a b < UNDEFINED.
Hypothesis Hfresh : fresh_entry db h0.

Lemma update_seeds_valid_finite budget pending ord center c_dist N_eps seeds st :
  In center db -> finite c_dist ->
  (forall o, In o N_eps -> In o db) ->
  inv db h0 budget pending seeds ord st ->
  seed_emissions_finite (trace st) ->
  wp (update_seeds N_eps center c_dist seeds)
     (fun seeds' st' => inv db h0 budget pending seeds' ord st' /\
                        seed_emissions_finite (trace st'))
     (fun _ => False) st.
Proof.
  intros Hcenter Hc HN Hi Ht.
  eapply wp_conseq.
  - apply wp_conj.
    + eapply update_seeds_valid; eauto.
    + apply (update_seeds_trace seed_emissions_finite);
        [apply seed_emissions_finite_write|exact Ht].
  - intros a st' HQ. exact HQ.
  - intros st' [[] _].
Qed.

Lemma expand_loop_valid_finite pending :
  forall fuel budget seeds ord st,
    (budget <= fuel)%nat ->
    inv db h0 budget pending seeds ord st ->
    seed_emissions_finite (trace st) ->
    wp (expand_loop fuel db eps min_pts seeds ord)
       (fun ord' st' => inv db h0 budget pending [] ord' st' /\
                        seed_emissions_finite (trace st'))
       (fun _ => False) st.
Proof.
  induction fuel as [|fuel IH]; intros budget seeds ord st Hfuel Hi Ht;
    destruct seeds as [|q seeds]; cbn [expand_loop];
    try (apply wp_mret; split; assumption).
  - exfalso.
    destruct (inv_seeds Hi q (or_introl eq_refl)) as (Hq & Hflag & _).
    pose proof (proj2 (unprocessed_count_mark db (heap st) q) Hq Hflag).
    pose proof (inv_budget Hi). lia.
  - destruct (inv_seeds Hi q (or_introl eq_refl)) as (Hq & Hflag & Hreach).
    destruct (neighbourhood_valid db eps min_pts h0 Heps Hmin Hdim Hsmall Hdist
                _ _ _ _ _ q Hi Hq)
      as (N_q & core_dist_q & N_q' & HN & Hcore & Hsub & Hcd).
    apply wp_bind. eapply wp_run_eq; [exact HN|].
    apply wp_bind. eapply wp_run_eq; [exact Hcore|]. cbv beta iota.
    apply wp_bind, wp_processed. apply wp_bind, wp_push_back_seed.
    cbn [heap trace].
    match goal with
    | |- wp _ _ _ (mkState _ (?e :: _)) => fold (marked st q e); set (ev := e)
    end.
    assert (Hi' : inv db h0 (budget - 1) pending seeds (ord ++ [q]) (marked st q ev)).
    { pose proof (inv_sorted Hi) as Hs.
      eapply inv_emit; eauto.
      - now apply StronglySorted_inv in Hs.
      - intros z. simpl. pose proof (sorted_head_not_in _ _ _ Hs).
        split; [intros Hz; split; [auto|congruence]|intros [[->|Hz] Hne]; tauto].
      - exact I. }
    assert (Ht' : seed_emissions_finite (trace (marked st q ev))).
    { intros x r [Hin|[Hin|Hin]]; [|discriminate|now apply (Ht x r)].
      unfold ev in Hin. injection Hin as <- <-.
      rewrite upd_flag_reach.
      destruct (inv_range Hi Hfresh q Hq Hflag) as [Hu|Hf]; [contradiction|assumption]. }
    assert (Hbudget : (budget - 1 <= fuel)%nat) by lia.
    assert (Hweak : forall ord' st',
              inv db h0 (budget - 1) pending [] ord' st' /\
              seed_emissions_finite (trace st') ->
              inv db h0 budget pending [] ord' st' /\
              seed_emissions_finite (trace st')).
    { intros ord' st' [Hi'' Ht'']. split; [|assumption].
      eapply inv_weaken; [eassumption| |exact Hi'']. lia. }
    apply wp_bind.
    destruct (Z.eqb_spec core_dist_q UNDEFINED) as [->|Hne]; cbn [negb].
    + apply wp_mret.
      eapply wp_conseq; [apply (IH _ _ _ _ Hbudget Hi' Ht')|exact Hweak|auto].
    + destruct Hcd as [Hcd|Hcd]; [contradiction|].
      eapply wp_conseq; [apply update_seeds_valid_finite; eauto| |auto].
      intros seeds' st1 [Hi1 Ht1].
      eapply wp_conseq; [apply (IH _ _ _ _ Hbudget Hi1 Ht1)|exact Hweak|auto].
Qed.

Lemma expand_cluster_order_valid_finite fuel budget pending ord st p :
  (budget <= fuel)%nat ->
  inv db h0 budget (p :: pending) [] ord st ->
  seed_emissions_finite (trace st) ->
  In p db -> _is_processed (heap st p) = false ->
  wp (expand_cluster_order fuel db p eps min_pts ord)
     (fun ord' st' => inv db h0 budget pending [] ord' st' /\
                      seed_emissions_finite (trace st'))
     (fun _ => False) st.
Proof.
  intros Hfuel Hi Ht Hp Hflag. unfold expand_cluster_order.
  apply wp_bind, wp_assert_ok; [now apply Z.leb_le|].
  apply wp_bind, wp_assert_ok; [now apply Nat.ltb_lt|].
  pose proof (inv_start_write _ _ _ _ _ _ p Hi Hp Hflag) as Hi1.
  assert (Hflag1 : _is_processed (heap (wrote st p UNDEFINED) p) = false).
  { cbn [wrote heap]. now rewrite upd_reach_flag. }
  destruct (neighbourhood_valid db eps min_pts h0 Heps Hmin Hdim Hsmall Hdist
              _ _ _ _ _ p Hi Hp)
    as (N_eps & _ & _ & HN & _).
  destruct (neighbourhood_valid db eps min_pts h0 Heps Hmin Hdim Hsmall Hdist
              _ _ _ _ _ p Hi1 Hp)
    as (N_eps1 & core_dist_p & N_eps' & HN1 & Hcore & Hsub & Hcd).
  assert (N_eps1 = N_eps) as ->.
  { rewrite get_neighbors_ok in HN, HN1;
      try assumption;
      try (eapply inv_small; eauto);
      try (intros x Hx; eapply inv_dim; eauto).
    injection HN as <-. injection HN1 as <-.
    apply filter_ext. intros x. cbn [wrote heap].
    now rewrite (sqdist_data _ (heap st)) by (intros y; apply upd_reach_data). }
  apply wp_bind. eapply wp_run_eq; [exact HN|].
  apply wp_bind, wp_set_reachability_distance_ok; [unfold UNDEFINED; lia|].
  fold (wrote st p UNDEFINED).
  apply wp_bind. eapply wp_run_eq; [exact Hcore|]. cbv beta iota.
  apply wp_bind, wp_processed. apply wp_bind, wp_push_back_first.
  cbn [heap trace].
  match goal with
  | |- wp _ _ _ (mkState _ (?e :: _)) =>
      fold (marked (wrote st p UNDEFINED) p e); set (ev := e)
  end.
  assert (Hi2 : inv db h0 (budget - 1) pending [] (ord ++ [p])
                  (marked (wrote st p UNDEFINED) p ev)).
  { eapply inv_emit; eauto.
    - constructor.
    - intros z. simpl. tauto.
    - intros x [->|Hx]; auto.
    - exact I. }
  assert (Ht2 : seed_emissions_finite (trace (marked (wrote st p UNDEFINED) p ev))).
  { intros x r [Hin|[Hin|[Hin|Hin]]]; try discriminate. now apply (Ht x r). }
  assert (Hbudget : (budget - 1 <= fuel)%nat) by lia.
  destruct (Z.eqb_spec core_dist_p UNDEFINED) as [->|Hne].
  - apply wp_mret. split; [|assumption].
    eapply inv_weaken; [eassumption| |exact Hi2]. lia.
  - destruct Hcd as [Hcd|Hcd]; [contradiction|].
    apply wp_bind.
    eapply wp_conseq; [apply update_seeds_valid_finite; eauto| |auto].
    intros seeds' st1 [Hi3 Ht3].
    eapply wp_conseq;
      [apply (expand_loop_valid_finite _ _ _ _ _ _ Hbudget Hi3 Ht3)| |auto].
    intros ord' st' [Hi4 Ht4]. split; [|assumption].
    eapply inv_weaken; [eassumption| |exact Hi4]. lia.
Qed.

Lemma optics_loop_valid_finite fuel budget :
  (budget <= fuel)%nat ->
  forall it ord st,
    (forall p, In p it -> In p db) ->
    inv db h0 budget it [] ord st ->
    seed_emissions_finite (trace st) ->
    wp (optics_loop fuel db it eps min_pts ord)
       (fun ord' st' => inv db h0 budget [] [] ord' st' /\
                        seed_emissions_finite (trace st'))
       (fun _ => False) st.
Proof.
  intros Hfuel. induction it as [|p it IH]; intros ord st Hsub Hi Ht; simpl.
  - apply wp_mret. split; assumption.
  - assert (Hp : In p db) by (apply Hsub; now left).
    assert (Hit : forall x, In x it -> In x db) by (intros x Hx; apply Hsub; now right).
    apply wp_bind, wp_gets.
    destruct (_is_processed (heap st p)) eqn:Hflag.
    + apply IH; [assumption| |assumption].
      destruct Hi. constructor; auto.
      intros x Hx. destruct (inv_cover0 x Hx) as [Hd|[->|Hin]]; auto.
    + apply wp_bind.
      eapply wp_conseq; [apply expand_cluster_order_valid_finite; eauto| |auto].
      intros ord' st' [Hi' Ht']. now apply IH.
Qed.

Lemma optics_valid_finite fuel :
  (length db <= fuel)%nat ->
  exists ord st',
    run (optics fuel db eps min_pts) h0 = (Ok ord, st') /\
    inv db h0 (length db) [] [] ord st' /\
    seed_emissions_finite (trace st').
Proof.
  intros Hfuel.
  assert (Hwp : wp (optics fuel db eps min_pts)
                  (fun ord' st' => inv db h0 (length db) [] [] ord' st' /\
                                   seed_emissions_finite (trace st'))
                  (fun _ => False) (start h0)).
  { unfold optics.
    apply wp_bind, wp_assert_ok; [now apply Z.leb_le|].
    apply wp_bind, wp_assert_ok; [now apply Nat.ltb_lt|].
    apply optics_loop_valid_finite; auto using inv_start.
    intros q r []. }
  unfold wp, run in *.
  destruct (optics fuel db eps min_pts (start h0)) as [[ord|msg| |] st'];
    try contradiction.
  eauto.
Qed.

End ValidEmissions.

(** X17.  After a run of [optics] on valid input (the squared distances
    that [squared_distance] computes being below UNDEFINED) in which every
    unprocessed point enters at UNDEFINED: a point taken from the seeds was pushed with a
    finite reachability distance and still holds it; a start point of an
    expansion was pushed with UNDEFINED and still holds it.  So a point of
    the ordering ends at UNDEFINED exactly when it started an expansion, and
    every other point of the ordering ends at a finite distance. *)
Theorem ordering_reachabilities `{FloatArithmetic} `{StdAlgorithm} fuel db eps min_pts h :
  0 <= eps -> (1 <= min_pts)%nat ->
  (forall a b, In a db -> In b db -> dim h a = dim h b) ->
  (forall a, In a db -> representable (dim h a)) ->
  (forall a b, In a db -> In b db -> sqdist h a b < UNDEFINED) ->
  fresh_entry db h ->
  (length db <= fuel)%nat ->
  exists ord st',
    run (optics fuel db eps min_pts) h = (Ok ord, st') /\
    (forall q r, In (EvEmitSeed q r) (history st') ->
       finite r /\ _reachability_distance (heap st' q) = r) /\
    (forall p r, In (EvEmitFirst p r) (history st') ->
       r = UNDEFINED /\ _reachability_distance (heap st' p) = UNDEFINED) /\
    (forall p, In p ord ->
       (_reachability_distance (heap st' p) = UNDEFINED <->
        exists r, In (EvEmitFirst p r) (history st')) /\
       (_reachability_distance (heap st' p) <> UNDEFINED ->
        finite (_reachability_distance (heap st' p)))).
Proof.
  intros Heps Hmin Hdim Hsmall Hdist Hfresh Hfuel.
  destruct (optics_valid_finite db eps min_pts h Heps Hmin Hdim Hsmall Hdist Hfresh
              fuel Hfuel) as (ord & st' & Hrun & Hi & Ht).
  pose proof (optics_final fuel db eps min_pts h) as Hf.
  destruct (optics_run_reachable fuel db eps min_pts h) as [Hs Hv].
  rewrite Hrun in Hf, Hs, Hv. cbn [fst snd] in Hf, Hs, Hv.
  assert (Hk : sentinel_kept st').
  { eapply steps_sentinel_kept; [exact Hs|]. split; simpl; tauto. }
  destruct Hk as [Hk _].
  assert (Hseed : forall q r, In (EvEmitSeed q r) (trace st') ->
            finite r /\ _reachability_distance (heap st' q) = r).
  { intros q r Hin. split; [now apply (Ht q r)|]. apply Hf. now right. }
  assert (Hfirst : forall p r, In (EvEmitFirst p r) (trace st') ->
            r = UNDEFINED /\ _reachability_distance (heap st' p) = UNDEFINED).
  { intros p r Hin. destruct (Hk p r Hin) as (-> & Hr & _). auto. }
  exists ord, st'. split; [exact Hrun|]. unfold history.
  split; [intros q r Hin; apply Hseed; now rewrite <- in_rev in Hin|].
  split; [intros p r Hin; apply Hfirst; now rewrite <- in_rev in Hin|].
  intros p Hp. rewrite <- (Hv ord eq_refl) in Hp.
  destruct (emitted_event _ _ Hp) as (r & [Hr|Hr]).
  - destruct (Hfirst p r Hr) as [-> Hu]. split.
    + split; [intros _; exists UNDEFINED; now rewrite <- in_rev|auto].
    + intros Hne. contradiction.
  - destruct (Hseed p r Hr) as [Hfin Heq]. split.
    + split.
      * intros Hu. unfold finite in Hfin. lia.
      * intros (r' & Hr'). rewrite <- in_rev in Hr'.
        destruct (Hfirst p r' Hr') as [_ Hu]. unfold finite in Hfin. lia.
    + intros _. now rewrite Heq.
Qed.

Lemma ordering_reachabilities_witness :
  exists ord st',
    run (optics 5 [5; 3; 7; 2; 9]%positive 2 2) square_and_far = (Ok ord, st') /\
    (forall q r, In (EvEmitSeed q r) (history st') -> finite r).
Proof.
  destruct (ordering_reachabilities 5 [5; 3; 7; 2; 9]%positive 2 2 square_and_far)
    as (ord & st' & Hrun & Hseed & _).
  - lia.
  - lia.
  - intros a b Ha Hb. in_cases Ha; in_cases Hb; reflexivity.
  - intros a Ha. in_cases Ha; vm_compute; reflexivity.
  - intros a b Ha Hb. in_cases Ha; in_cases Hb; vm_compute; reflexivity.
  - intros p Hp _. in_cases Hp; reflexivity.
  - simpl. lia.
  - exists ord, st'. split; [exact Hrun|]. intros q r Hin. now apply (Hseed q r).
Defined.

(** ** Reachability distances are never negative *)

(** X18.  The setter of the reachability distance rejects negative values,
    and [optics] never passes one: in every run started on points whose
    reachability distances are not negative, whatever else the input is and
    however the run ends, every distance written is non-negative and no
    point holds a negative distance at the end. *)
Theorem reachability_never_negative `{FloatArithmetic} `{StdAlgorithm} fuel db eps min_pts h :
  (forall p, 0 <= _reachability_distance (h p)) ->
  (forall p, 0 <= _reachability_distance
                    (heap (snd (run (optics fuel db eps min_pts) h)) p)) /\
  (forall p w old new,
     In (EvReach p w old new) (history (snd (run (optics fuel db eps min_pts) h))) ->
     0 <= new) /\
  (forall p d st, d < 0 ->
     set_reachability_distance p d st
     = (AssertionFailed "Reachability distance must not be negative.", st)).
Proof.
  intros Hh.
  assert (Hn : never_negative (snd (run (optics fuel db eps min_pts) h))).
  { apply (optics_keeps never_negative).
    - intros st o d [Hr Ht] _ Hd. split; cbn [wrote heap trace].
      + intros p. unfold upd. destruct (Pos.eqb p o); [exact Hd|apply Hr].
      + constructor; assumption.
    - intros st q e [Hr Ht] He. split; cbn [marked heap trace].
      + intros p. rewrite upd_flag_reach. apply Hr.
      + constructor; [destruct He as [->| ->]; exact I|].
        constructor; [exact I|assumption].
    - split; [exact Hh|constructor]. }
  destruct Hn as [Hr Ht]. split; [exact Hr|]. split.
  - intros p w old new Hin. unfold history in Hin. rewrite <- in_rev in Hin.
    rewrite Forall_forall in Ht. exact (Ht _ Hin).
  - intros p d st Hd. unfold set_reachability_distance, bind, assert.
    destruct (Z.leb_spec 0 d); [lia|reflexivity].
Qed.

Lemma default_heap_never_negative objects :
  Forall (fun x => 0 <= _reachability_distance (snd x)) objects ->
  forall p, 0 <= _reachability_distance (heap_of objects p).
Proof.
  intros Hall p. unfold heap_of.
  destruct (find (fun x => Pos.eqb (fst x) p) objects) as [[a o]|] eqn:Hfind.
  - apply find_some in Hfind. rewrite Forall_forall in Hall.
    exact (Hall _ (proj1 Hfind)).
  - unfold DataPoint_new, UNDEFINED. simpl. lia.
Qed.

Lemma reachability_never_negative_witness :
  0 <= _reachability_distance
         (heap (snd (run (optics 5 [5; 3; 7; 2; 9]%positive 2 2) square_and_far))
            2%positive).
Proof.
  apply (reachability_never_negative 5 [5; 3; 7; 2; 9]%positive 2 2 square_and_far).
  apply default_heap_never_negative.
  repeat constructor; simpl; unfold UNDEFINED; lia.
Defined.

(** ** A run touches the points of [db] only *)

Lemma wp_squared_core_distance_sub `{FloatArithmetic} `{StdAlgorithm} p min_pts N_eps st :
  wp (squared_core_distance p min_pts N_eps)
     (fun r st' => st' = st /\ forall x, In x (snd r) -> In x N_eps)
     (fun st' => st' = st) st.
Proof.
  unfold squared_core_distance. apply wp_bind, wp_assert; [intros _|reflexivity].
  destruct (Nat.ltb_spec min_pts (length N_eps)) as [Hmany|Hfew];
    [|apply wp_mret; auto].
  apply wp_bind, wp_pure; [auto with purity| |reflexivity]. intros _ _.
  apply wp_bind, wp_gets.
  destruct (nth_element_spec
              (fun a b => sqdist (heap st) p a <? sqdist (heap st) p b)
              min_pts N_eps (strict_weak_order_key _) Hmany)
    as (before & pivot & after & Hnth & _ & Hperm & _).
  apply wp_bind, wp_at_index; [intros x _|reflexivity].
  apply wp_bind, wp_pure; [auto with purity| |reflexivity]. intros ret _.
  apply wp_mret. split; [reflexivity|]. simpl. rewrite Hnth.
  intros y Hy. exact (Permutation_in _ (Permutation_sym Hperm) Hy).
Qed.

Lemma wp_set_insert_sub x st :
  forall s,
    wp (set_insert x s)
       (fun s' st' => st' = st /\ forall z, In z s' -> z = x \/ In z s)
       (fun st' => st' = st) st.
Proof.
  induction s as [|y s IH]; simpl.
  - apply wp_mret. split; [reflexivity|]. intros z [<-|[]]. now left.
  - apply wp_bind, wp_pure; [auto with purity| |reflexivity]. intros lt _.
    destruct lt.
    + apply wp_mret. split; [reflexivity|]. intros z [<-|Hz]; auto.
    + apply wp_bind, wp_pure; [auto with purity| |reflexivity]. intros gt _.
      destruct gt; [|apply wp_mret; auto].
      apply wp_bind. eapply wp_conseq; [apply IH| |auto].
      intros r st' [-> Hr]. apply wp_mret. split; [reflexivity|].
      intros z [<-|Hz]; [right; now left|].
      destruct (Hr z Hz); [now left|right; now right].
Qed.

Lemma wp_set_erase_sub x st :
  forall s,
    wp (set_erase x s)
       (fun s' st' => st' = st /\ forall z, In z s' -> In z s)
       (fun st' => st' = st) st.
Proof.
  induction s as [|y s IH]; simpl.
  - apply wp_mret. auto.
  - apply wp_bind, wp_pure; [auto with purity| |reflexivity]. intros lt _.
    destruct lt; [apply wp_mret; auto|].
    apply wp_bind, wp_pure; [auto with purity| |reflexivity]. intros gt _.
    destruct gt; [|apply wp_mret; split; [reflexivity|intros z Hz; now right]].
    apply wp_bind. eapply wp_conseq; [apply IH| |auto].
    intros r st' [-> Hr]. apply wp_mret. split; [reflexivity|].
    intros z [<-|Hz]; [now left|right; auto].
Qed.

Section Frame.
Context `{FloatArithmetic} `{StdAlgorithm}.
Variables (db : DataVector) (h0 : Heap).

Lemma untouched_upd h q f t :
  In q db -> (forall x, ~ In x db -> h x = h0 x) ->
  untouched_outside db h0 (mkState (upd h q f) t).
Proof.
  intros Hq Hu x Hx. cbn [heap]. rewrite upd_other; [auto|]. intros ->. contradiction.
Qed.

Lemma untouched_write st o d :
  In o db -> untouched_outside db h0 st ->
  untouched_outside db h0
    (mkState (upd (heap st) o (with_reachability d))
       (EvReach o (_is_processed (heap st o))
          (_reachability_distance (heap st o)) d :: trace st)).
Proof. intros Ho Hu. now apply untouched_upd. Qed.

Lemma update_seeds_loop_frame N_eps center c_dist :
  forall seeds st,
    (forall o, In o N_eps -> In o db) ->
    (forall s, In s seeds -> In s db) ->
    untouched_outside db h0 st ->
    wp (update_seeds_loop N_eps center c_dist seeds)
       (fun seeds' st' => untouched_outside db h0 st' /\
                          forall s, In s seeds' -> In s db)
       (untouched_outside db h0) st.
Proof.
  induction N_eps as [|o rest IH]; intros seeds st HN Hseeds Hu; simpl.
  - apply wp_mret. auto.
  - assert (Ho : In o db) by (apply HN; now left).
    assert (Hrest : forall x, In x rest -> In x db) by (intros x Hx; apply HN; now right).
    apply wp_bind, wp_gets.
    destruct (_is_processed (heap st o)); [now apply IH|].
    apply wp_bind, wp_pure; [auto with purity| |apply Hu]. intros d _.
    apply wp_bind, wp_gets.
    pose proof (fun new => untouched_write st o new Ho Hu) as Hset.
    destruct (_ =? UNDEFINED).
    + apply wp_bind, wp_set_reachability_distance; [intros _|apply Hu].
      apply wp_bind.
      eapply wp_conseq; [apply wp_set_insert_sub| |intros st' ->; apply Hset].
      intros s1 st' [-> Hs1]. apply IH; [assumption| |apply Hset].
      intros s Hs. destruct (Hs1 s Hs) as [->|Hin]; auto.
    + destruct (_ <? _); [|now apply IH].
      apply wp_bind.
      eapply wp_conseq; [apply wp_set_erase_sub| |intros st' ->; apply Hu].
      intros s1 st' [-> Hs1].
      apply wp_bind, wp_set_reachability_distance; [intros _|apply Hu].
      apply wp_bind.
      eapply wp_conseq; [apply wp_set_insert_sub| |intros st' ->; apply Hset].
      intros s2 st' [-> Hs2]. apply IH; [assumption| |apply Hset].
      intros s Hs. destruct (Hs2 s Hs) as [->|Hin]; auto.
Qed.

Lemma update_seeds_frame N_eps center c_dist seeds st :
  (forall o, In o N_eps -> In o db) ->
  (forall s, In s seeds -> In s db) ->
  untouched_outside db h0 st ->
  wp (update_seeds N_eps center c_dist seeds)
     (fun seeds' st' => untouched_outside db h0 st' /\
                        forall s, In s seeds' -> In s db)
     (untouched_outside db h0) st.
Proof.
  intros HN Hseeds Hu. unfold update_seeds.
  apply wp_bind, wp_assert; [intros _|apply Hu].
  now apply update_seeds_loop_frame.
Qed.

Lemma expand_loop_frame eps min_pts :
  forall fuel seeds v st,
    (forall s, In s seeds -> In s db) ->
    untouched_outside db h0 st ->
    wp (expand_loop fuel db eps min_pts seeds v)
       (fun _ st' => untouched_outside db h0 st') (untouched_outside db h0) st.
Proof.
  induction fuel as [|fuel IH]; intros seeds v st Hseeds Hu;
    destruct seeds as [|q seeds]; simpl;
    try (apply wp_mret; assumption); try exact Hu.
  assert (Hq : In q db) by (apply Hseeds; now left).
  assert (Hrest : forall s, In s seeds -> In s db)
    by (intros s Hs; apply Hseeds; now right).
  apply wp_bind.
  eapply wp_conseq; [apply wp_get_neighbors_sub| |intros st' ->; apply Hu].
  intros N_q st' [-> HN].
  apply wp_bind.
  eapply wp_conseq; [apply wp_squared_core_distance_sub| |intros st' ->; apply Hu].
  intros [core_dist_q N_q'] st' [-> HN']. simpl in HN'.
  apply wp_bind, wp_processed. apply wp_bind, wp_push_back_seed.
  cbn [heap trace].
  match goal with
  | |- wp _ _ _ ?s => assert (Hu1 : untouched_outside db h0 s)
  end.
  { apply untouched_upd; [assumption|exact Hu]. }
  apply wp_bind. destruct (negb _).
  + eapply wp_conseq; [apply update_seeds_frame; eauto| |auto].
    intros s st' [Hu2 Hs2]. now apply IH.
  + apply wp_mret. now apply IH.
Qed.

Lemma expand_cluster_order_frame fuel p eps min_pts v st :
  In p db -> untouched_outside db h0 st ->
  wp (expand_cluster_order fuel db p eps min_pts v)
     (fun _ st' => untouched_outside db h0 st') (untouched_outside db h0) st.
Proof.
  intros Hp Hu. unfold expand_cluster_order.
  apply wp_bind, wp_assert; [intros _|apply Hu].
  apply wp_bind, wp_assert; [intros _|apply Hu].
  apply wp_bind.
  eapply wp_conseq; [apply wp_get_neighbors_sub| |intros st' ->; apply Hu].
  intros N_eps st' [-> HN].
  apply wp_bind, wp_set_reachability_distance; [intros _|apply Hu].
  pose proof (untouched_write st p UNDEFINED Hp Hu) as Hu1.
  apply wp_bind.
  eapply wp_conseq; [apply wp_squared_core_distance_sub| |intros st' ->; apply Hu1].
  intros [core_dist_p N_eps'] st' [-> HN']. simpl in HN'.
  apply wp_bind, wp_processed. apply wp_bind, wp_push_back_first.
  cbn [heap trace].
  match goal with
  | |- wp _ _ _ ?s => assert (Hu2 : untouched_outside db h0 s)
  end.
  { apply untouched_upd; [assumption|exact Hu1]. }
  destruct (_ =? UNDEFINED); [apply wp_mret; assumption|].
  apply wp_bind.
  eapply wp_conseq; [apply update_seeds_frame; eauto| |auto].
  - intros s [].
  - intros s st' [Hu3 Hs3]. now apply expand_loop_frame.
Qed.

Lemma optics_loop_frame fuel eps min_pts :
  forall it v st,
    (forall p, In p it -> In p db) ->
    untouched_outside db h0 st ->
    wp (optics_loop fuel db it eps min_pts v)
       (fun _ st' => untouched_outside db h0 st') (untouched_outside db h0) st.
Proof.
  induction it as [|p it IH]; intros v st Hsub Hu; simpl.
  - apply wp_mret. assumption.
  - assert (Hp : In p db) by (apply Hsub; now left).
    assert (Hit : forall x, In x it -> In x db) by (intros x Hx; apply Hsub; now right).
    apply wp_bind, wp_gets.
    destruct (_is_processed (heap st p)); [now apply IH|].
    apply wp_bind.
    eapply wp_conseq; [now apply expand_cluster_order_frame| |auto].
    intros v' st' Hu'. now apply IH.
Qed.

Lemma optics_frame fuel eps min_pts :
  untouched_outside db h0 (snd (run (optics fuel db eps min_pts) h0)).
Proof.
  assert (Hu : untouched_outside db h0 (start h0)) by (intros x _; reflexivity).
  assert (Hwp : wp (optics fuel db eps min_pts)
                  (fun _ st' => untouched_outside db h0 st')
                  (untouched_outside db h0) (start h0)).
  { unfold optics.
    apply wp_bind, wp_assert; [intros _|apply Hu].
    apply wp_bind, wp_assert; [intros _|apply Hu].
    now apply optics_loop_frame. }
  unfold wp, run in *.
  destruct (optics fuel db eps min_pts (start h0)) as [[v|msg| |] st']; exact Hwp.
Qed.

End Frame.

(** X19.  A run of [optics] touches the points of [db] only: whatever the
    input and however the run ends, an object that is not in [db] is exactly
    as it was at entry. *)
Theorem optics_touches_db_only `{FloatArithmetic} `{StdAlgorithm} fuel db eps min_pts h x :
  ~ In x db ->
  heap (snd (run (optics fuel db eps min_pts) h)) x = h x.
Proof. apply optics_frame. Qed.

Lemma optics_touches_db_only_witness :
  heap (snd (run (optics 4 [5; 3; 7; 2]%positive 200 1) square_and_far)) 9%positive
  = square_and_far 9%positive.
Proof.
  apply optics_touches_db_only.
  simpl. intuition discriminate.
Defined.

(** ** A dataset that stores a point more than once *)

(** X20.  [db] may store the same pointer more than once: on otherwise valid
    input (the computed squared distances being below UNDEFINED) the run
    still returns, and the ordering holds each unprocessed
    point of [db] exactly once, so that it is not longer than [db]; at the
    end every point of [db] is processed. *)
Theorem optics_orders_each_point_once `{FloatArithmetic} `{StdAlgorithm} fuel db eps min_pts h :
  0 <= eps -> (1 <= min_pts)%nat ->
  (forall a b, In a db -> In b db -> dim h a = dim h b) ->
  (forall a, In a db -> representable (dim h a)) ->
  (forall a b, In a db -> In b db -> sqdist h a b < UNDEFINED) ->
  (length db <= fuel)%nat ->
  exists ord st',
    run (optics fuel db eps min_pts) h = (Ok ord, st') /\
    NoDup ord /\
    (forall x, In x ord <-> In x db /\ _is_processed (h x) = false) /\
    (length ord <= length db)%nat /\
    (forall x, In x db -> _is_processed (heap st' x) = true).
Proof.
  intros Heps Hmin Hdim Hsmall Hdist Hfuel.
  destruct (optics_valid db eps min_pts h Heps Hmin Hdim Hsmall Hdist fuel Hfuel)
    as (ord & st' & Hrun & Hi).
  assert (Hdone : forall x, In x db -> _is_processed (heap st' x) = true).
  { intros x Hx. destruct (inv_cover Hi x Hx) as [Hd|[]]. exact Hd. }
  exists ord, st'. split; [exact Hrun|]. split; [apply (inv_nodup Hi)|].
  split; [|split; [|exact Hdone]].
  - intros x. rewrite (inv_ord Hi). split.
    + intros (Hx & _ & Hf). auto.
    + intros (Hx & Hf). auto.
  - apply NoDup_incl_length; [apply (inv_nodup Hi)|].
    intros x Hx. now apply (inv_ord Hi) in Hx.
Qed.

Lemma optics_orders_each_point_once_witness :
  fst (run (optics 3 [1; 2; 1]%positive 2 1) two_points) = Ok [1; 2]%positive.
Proof.
  destruct (optics_orders_each_point_once 3 [1; 2; 1]%positive 2 1 two_points)
    as (ord & st' & Hrun & _).
  - lia.
  - lia.
  - intros a b Ha Hb. in_cases Ha; in_cases Hb; reflexivity.
  - intros a Ha. in_cases Ha; vm_compute; reflexivity.
  - intros a b Ha Hb. in_cases Ha; in_cases Hb; vm_compute; reflexivity.
  - simpl. lia.
  - rewrite Hrun. vm_compute in Hrun. now injection Hrun as <- _.
Defined.

(** ** Borders beyond the end of the ordering *)

Lemma extract_segment_out_of_range result threshold st :
  forall count j ret cluster_i,
    (j <= length result)%nat -> (length result < j + count)%nat ->
    extract_segment result threshold j count ret cluster_i st = (OutOfRange, st).
Proof.
  induction count as [|count IH]; intros j ret cluster_i Hj Hover; [lia|].
  cbn [extract_segment]. unfold bind at 1, at_index.
  destruct (nth_error result j) as [p|] eqn:Hp; [|reflexivity].
  assert (j < length result)%nat by (apply nth_error_Some; congruence).
  unfold mret, bind, reachability_distance, gets.
  destruct (threshold <? _); apply IH; lia.
Qed.

Lemma extract_clusters_loop_out_of_range result threshold st :
  representable (length result) ->
  forall rest done outliers clusters,
    (forall b, In b done -> (b <= length result)%nat) ->
    (exists b, In b rest /\ (length result < b)%nat) ->
    extract_clusters_loop result (done ++ rest) threshold
      (length done) (S (length rest)) (outliers :: clusters) st
    = (OutOfRange, st).
Proof.
  intros Hsize.
  induction rest as [|b rest IH]; intros done outliers clusters Hdone Hbad.
  - destruct Hbad as (b & [] & _).
  - assert (Hlow : (last done 0 <= length result)%nat).
    { destruct done as [|d done _] using rev_ind; [simpl; lia|].
      rewrite last_last. apply Hdone, in_or_app. right. now left. }
    rewrite extract_clusters_loop_eq.
    erewrite bind_run by apply lower_idx_spec.
    erewrite bind_run by apply upper_idx_spec.
    destruct (Nat.le_gt_cases b (length result)) as [Hb|Hb].
    + erewrite bind_run by (apply extract_segment_spec; lia).
      cbv beta iota.
      replace (done ++ b :: rest) with ((done ++ [b]) ++ rest)
        by (now rewrite <- app_assoc).
      replace (S (length done)) with (length (done ++ [b]))
        by (rewrite length_app; simpl; lia).
      rewrite <- app_comm_cons.
      apply IH.
      * intros x Hx. apply in_app_or in Hx.
        destruct Hx as [Hx|[<-|[]]]; auto.
      * destruct Hbad as (x & [<-|Hx] & Hover); [lia|eauto].
    + unfold bind.
      rewrite extract_segment_out_of_range; [reflexivity|assumption|lia].
Qed.

(** X21.  The borders must lie inside the ordering: when a border exceeds
    the size of the ordering, [extract_clusters] reads the ordering past its
    end (undefined behaviour in the source, [OutOfRange] here) and returns
    no buckets, whatever the other borders and the threshold are. *)
Theorem extract_clusters_border_out_of_range result cluster_borders outlier_threshold st :
  representable (length result) ->
  (exists b, In b cluster_borders /\ (length result < b)%nat) ->
  extract_clusters result cluster_borders outlier_threshold st = (OutOfRange, st).
Proof.
  intros Hsize Hbad. unfold extract_clusters.
  apply (extract_clusters_loop_out_of_range result _ st Hsize cluster_borders [] [] []);
    [intros b []|assumption].
Qed.

Lemma extract_clusters_border_out_of_range_witness :
  extract_clusters [1; 2]%positive [1%nat; 3%nat] 1 (start two_points)
  = (OutOfRange, start two_points).
Proof.
  apply extract_clusters_border_out_of_range.
  - unfold representable. simpl. lia.
  - exists 3%nat. simpl. split; [tauto|lia].
Defined.

(** ** The peak finders and the test run of the harness *)

Lemma insert_sorted_perm x l : Permutation (x :: l) (insert_sorted x l).
Proof.
  induction l as [|y l IH]; simpl; [reflexivity|].
  destruct (x <=? y); [reflexivity|].
  rewrite perm_swap. now constructor.
Qed.

Lemma std_sort_perm l : Permutation l (std_sort l).
Proof.
  induction l as [|x l IH]; simpl; [constructor|].
  rewrite <- insert_sorted_perm. now constructor.
Qed.

Lemma insert_sorted_sorted x l :
  StronglySorted Z.le l -> StronglySorted Z.le (insert_sorted x l).
Proof.
  induction 1 as [|y l Hl IH Hy]; simpl.
  - constructor; constructor.
  - destruct (Z.leb_spec x y) as [Hxy|Hxy].
    + constructor; [constructor; assumption|].
      constructor; [assumption|].
      rewrite Forall_forall in *. intros z Hz. specialize (Hy z Hz). lia.
    + constructor; [assumption|].
      rewrite Forall_forall in *. intros z Hz.
      apply (Permutation_in _ (Permutation_sym (insert_sorted_perm x l))) in Hz.
      destruct Hz as [<-|Hz]; [lia|auto].
Qed.

Lemma std_sort_sorted l : StronglySorted Z.le (std_sort l).
Proof.
  induction l as [|x l IH]; simpl; [constructor|].
  now apply insert_sorted_sorted.
Qed.

Lemma extract_reachabilities_run st :
  forall ordering reachabilities,
    extract_reachabilities ordering reachabilities st
    = (Ok (reachabilities
             ++ map (fun p => _reachability_distance (heap st p)) ordering), st).
Proof.
  induction ordering as [|p ordering IH]; intros reachabilities; simpl.
  - now rewrite app_nil_r.
  - erewrite bind_run by reflexivity. rewrite IH. now rewrite <- app_assoc.
Qed.

Lemma find_k_histogram_peaks_run paired_extrema reachabilities k :
  find_k_histogram_peaks paired_extrema reachabilities k
  = Ok (map (fun e => to_unsigned (MaxIndex e))
          (firstn (k - 1) (rev (paired_extrema reachabilities 0)))).
Proof.
  unfold find_k_histogram_peaks.
  rewrite find_k_loop_spec by lia. now rewrite firstn_all.
Qed.

(** X22.  The two peak finders agree on what a peak is: asked for more
    clusters than the library pairs extrema, [find_k_histogram_peaks]
    returns the indices that [find_histogram_peaks] returns for persistence
    0, in the opposite order; in general it returns a prefix of them, of at
    most [n_clusters - 1] indices. *)
Theorem find_k_histogram_peaks_among_all paired_extrema reachabilities n_clusters :
  exists peaks,
    find_k_histogram_peaks paired_extrema reachabilities n_clusters = Ok peaks /\
    peaks = firstn (n_clusters - 1)
              (rev (find_histogram_peaks paired_extrema reachabilities 0)) /\
    (length peaks <= n_clusters - 1)%nat /\
    (forall i, In i peaks ->
               In i (find_histogram_peaks paired_extrema reachabilities 0)) /\
    ((length (find_histogram_peaks paired_extrema reachabilities 0) < n_clusters)%nat ->
     peaks = rev (find_histogram_peaks paired_extrema reachabilities 0)).
Proof.
  eexists. split; [apply find_k_histogram_peaks_run|].
  unfold find_histogram_peaks. rewrite <- map_rev, <- firstn_map.
  split; [reflexivity|]. split; [apply firstn_le_length|]. split.
  - intros i Hi. apply in_rev.
    rewrite <- (firstn_skipn (n_clusters - 1)). apply in_or_app. left.
    now rewrite <- map_rev.
  - intros Hfew. apply firstn_all2.
    rewrite length_map in *. rewrite length_rev. lia.
Qed.

Lemma StronglySorted_to_nat l :
  StronglySorted Z.le l -> Sorted le (map Z.to_nat l).
Proof.
  intros Hs. apply StronglySorted_Sorted.
  induction Hs as [|x l Hl IH Hx]; simpl; constructor; [assumption|].
  rewrite Forall_forall in *. intros n Hn.
  apply in_map_iff in Hn. destruct Hn as (y & <- & Hy). specialize (Hx y Hy). lia.
Qed.

Lemma draw_cluster_borders_run rows cols st :
  forall cluster_borders,
    (forall b, In b cluster_borders -> b < Z.of_nat cols) ->
    draw_cluster_borders rows cols cluster_borders st = (Ok tt, st).
Proof.
  induction cluster_borders as [|b rest IH]; intros Hin; simpl; [reflexivity|].
  destruct (Z.ltb_spec b (Z.of_nat cols)) as [Hb|Hb].
  - rewrite andb_false_r. apply IH. intros x Hx. apply Hin. now right.
  - specialize (Hin b (or_introl eq_refl)). lia.
Qed.

Lemma test_optics_scanned_run `{FloatArithmetic} `{StdAlgorithm}
  paired_extrema fuel db eps min_pts persistence n_clusters use_n_clusters
  outlier_threshold h :
  (1 <= min_pts)%nat ->
  NoDup db ->
  (forall p, In p db -> _is_processed (h p) = false) ->
  (forall a b, In a db -> In b db -> dim h a = dim h b) ->
  (forall a, In a db -> representable (dim h a)) ->
  (forall a b, In a db -> In b db -> sqdist h a b < UNDEFINED) ->
  (length db <= fuel)%nat ->
  representable (length db) ->
  db <> [] ->
  (forall rs threshold e,
     In e (paired_extrema rs threshold) ->
     0 <= MaxIndex e < Z.of_nat (length rs)) ->
  exists ordering reachabilities cluster_borders clusters st',
    run (test_optics_scanned paired_extrema fuel db eps min_pts persistence n_clusters
           use_n_clusters outlier_threshold) h
    = (Ok (ordering, reachabilities, cluster_borders, clusters), st') /\
    Permutation ordering db /\
    reachabilities = map (fun p => _reachability_distance (heap st' p)) ordering /\
    StronglySorted Z.le cluster_borders /\
    length clusters = (length cluster_borders + 2)%nat /\
    Permutation (concat clusters) db /\
    (use_n_clusters = true -> (1 <= n_clusters)%nat ->
     (length clusters <= n_clusters + 1)%nat) /\
    (forall p, _data (heap st' p) = _data (h p)).
Proof.
  intros Hmin Hnodup Hfresh Hdim Hsmall Hdist Hfuel Hsize Hne Hlib.
  set (eps' := if eps <? 0 then FLT_MAX else eps).
  assert (Heps : 0 <= eps').
  { unfold eps', FLT_MAX, UNDEFINED. destruct (Z.ltb_spec eps 0); lia. }
  destruct (optics_orders_unprocessed fuel db eps' min_pts h
              Heps Hmin Hnodup Hdim Hsmall Hdist Hfuel)
    as (ord & Hrun & _ & Hperm).
  rewrite filter_all in Hperm.
  2:{ rewrite Forall_forall. intros p Hp. now rewrite (Hfresh p Hp). }
  pose proof (sim_optics fuel db eps' min_pts (start h)) as Hsim.
  change (erase (start h)) with (start h) in Hsim.
  unfold run in *. rewrite Hsim in Hrun. cbn [fst] in Hrun.
  destruct (optics_cb recording_callback fuel db eps' min_pts (start h))
    as [r st'] eqn:Hcb.
  cbn [fst] in Hrun. subst r.
  assert (Hdata : forall p, _data (heap st' p) = _data (h p)).
  { destruct (optics_run_reachable fuel db eps' min_pts h) as [Hs _].
    unfold run in Hs. rewrite Hsim in Hs. cbn [snd] in Hs.
    exact (proj1 (steps_conservative _ _ Hs)). }
  unfold test_optics_scanned. fold eps'.
  erewrite bind_run by exact Hcb.
  erewrite bind_run by apply extract_reachabilities_run.
  cbn [app].
  set (rs := map (fun p => _reachability_distance (heap st' p)) ord).
  assert (Hlen : length ord = length db) by now apply Permutation_length.
  assert (Hrs : length rs = length ord) by apply length_map.
  assert (Hmax : exists max_r_dist, max_element rs st' = (Ok max_r_dist, st')).
  { destruct rs as [|r rs']; [|eexists; reflexivity].
    destruct db; [contradiction|]. simpl in *. lia. }
  destruct Hmax as (max_r_dist & Hmax).
  erewrite bind_run by exact Hmax. cbv zeta.
  set (peaks := if use_n_clusters
                then map (fun e => to_unsigned (MaxIndex e))
                       (firstn (n_clusters - 1) (rev (paired_extrema rs 0)))
                else find_histogram_peaks paired_extrema rs persistence).
  assert (Hpeaks : (if use_n_clusters
                    then lift (find_k_histogram_peaks paired_extrema rs n_clusters)
                    else mret (find_histogram_peaks paired_extrema rs persistence)) st'
                   = (Ok peaks, st')).
  { unfold peaks. destruct use_n_clusters; [|reflexivity].
    unfold lift. now rewrite find_k_histogram_peaks_run. }
  erewrite bind_run by exact Hpeaks.
  assert (Hrange : forall i, In i peaks -> 0 <= i < Z.of_nat (length ord)).
  { assert (Hone : forall threshold e, In e (paired_extrema rs threshold) ->
              0 <= to_unsigned (MaxIndex e) < Z.of_nat (length ord)).
    { intros threshold e He. specialize (Hlib rs threshold e He).
      unfold to_unsigned. unfold representable in Hsize.
      rewrite Z.mod_small by lia. lia. }
    intros i Hi. unfold peaks in Hi. destruct use_n_clusters.
    - apply in_map_iff in Hi. destruct Hi as (e & <- & He).
      apply (Hone 0). apply in_rev.
      rewrite <- (firstn_skipn (n_clusters - 1)). apply in_or_app. now left.
    - unfold find_histogram_peaks in Hi.
      apply in_map_iff in Hi. destruct Hi as (e & <- & He). now apply (Hone persistence). }
  erewrite bind_run.
  2:{ apply draw_cluster_borders_run. intros b Hb. cbn [snd build_histogram].
      apply (Permutation_in _ (Permutation_sym (std_sort_perm peaks))) in Hb.
      specialize (Hrange b Hb). lia. }
  destruct (extract_clusters_buckets ord (map Z.to_nat (std_sort peaks))
              outlier_threshold st') as [Hbuckets Hcat].
  { now rewrite Hlen. }
  { apply StronglySorted_to_nat, std_sort_sorted. }
  { intros b Hb. apply in_map_iff in Hb. destruct Hb as (i & <- & Hi).
    apply (Permutation_in _ (Permutation_sym (std_sort_perm peaks))) in Hi.
    specialize (Hrange i Hi). lia. }
  erewrite bind_run by exact Hbuckets.
  eexists _, _, _, _, _. split; [reflexivity|].
  split; [exact Hperm|]. split; [reflexivity|].
  split; [apply std_sort_sorted|].
  assert (Hcount : length (std_sort peaks) = length peaks)
    by (symmetry; apply Permutation_length, std_sort_perm).
  split; [|split; [|split]].
  - simpl. rewrite length_map, segments_from_length, length_map. lia.
  - simpl. rewrite concat_filter_map, Hcat.
    rewrite <- Hperm. apply filter_split_Permutation.
  - intros -> Hk. simpl.
    rewrite length_map, segments_from_length, length_map, Hcount.
    unfold peaks. rewrite length_map.
    pose proof (firstn_le_length (n_clusters - 1) (rev (paired_extrema rs 0))). lia.
  - exact Hdata.
Qed.


(** X23.  The test run of the harness, from the scanned dataset to the
    clusters.  For a scanned dataset that is not empty (distinct unprocessed
    points of one dimensionality, computed squared distances below
    UNDEFINED, a size that [unsigned int] can hold), every [eps] (a
    negative one stands for no limit), [min_pts >= 1] and enough fuel, and a
    persistence library that returns indices into the vector it is given:
    [test_optics], after its scan, gets as far as the clusters, the maximum
    of the reachabilities being taken of a vector that is not empty and the
    borders being drawn inside the histogram; the ordering is a
    rearrangement of the dataset; the reachabilities are those the points
    hold at the end, in the order of the ordering; the borders are
    ascending; and the buckets, one for the outliers and one more than
    there are borders, are a rearrangement of the dataset.  In the mode that
    asks for [n_clusters] clusters there are at most [n_clusters] cluster
    buckets. *)
Theorem test_optics_scanned_partitions `{FloatArithmetic} `{StdAlgorithm}
  paired_extrema fuel db eps min_pts persistence n_clusters use_n_clusters
  outlier_threshold h :
  (1 <= min_pts)%nat ->
  NoDup db ->
  (forall p, In p db -> _is_processed (h p) = false) ->
  (forall a b, In a db -> In b db -> dim h a = dim h b) ->
  (forall a, In a db -> representable (dim h a)) ->
  (forall a b, In a db -> In b db -> sqdist h a b < UNDEFINED) ->
  (length db <= fuel)%nat ->
  representable (length db) ->
  db <> [] ->
  (forall rs threshold e,
     In e (paired_extrema rs threshold) ->
     0 <= MaxIndex e < Z.of_nat (length rs)) ->
  exists ordering reachabilities cluster_borders clusters st',
    run (test_optics_scanned paired_extrema fuel db eps min_pts persistence n_clusters
           use_n_clusters outlier_threshold) h
    = (Ok (ordering, reachabilities, cluster_borders, clusters), st') /\
    Permutation ordering db /\
    reachabilities = map (fun p => _reachability_distance (heap st' p)) ordering /\
    StronglySorted Z.le cluster_borders /\
    length clusters = (length cluster_borders + 2)%nat /\
    Permutation (concat clusters) db /\
    (use_n_clusters = true -> (1 <= n_clusters)%nat ->
     (length clusters <= n_clusters + 1)%nat).
Proof.
  intros Hmin Hnodup Hfresh Hdim Hsmall Hdist Hfuel Hsize Hne Hlib.
  destruct (test_optics_scanned_run paired_extrema fuel db eps min_pts persistence
              n_clusters use_n_clusters outlier_threshold h
              Hmin Hnodup Hfresh Hdim Hsmall Hdist Hfuel Hsize Hne Hlib)
    as (ordering & reachabilities & cluster_borders & clusters & st'
        & Hrun & Hperm & Hrs & Hsorted & Hcount & Hcat & Hcap & _).
  exists ordering, reachabilities, cluster_borders, clusters, st'. auto 10.
Qed.

Lemma test_optics_scanned_partitions_witness :
  exists ordering reachabilities cluster_borders clusters st',
    run (test_optics_scanned two_peaks 5 [5; 3; 7; 2; 9]%positive (-1) 2 0 2 true 1)
      square_and_far
    = (Ok (ordering, reachabilities, cluster_borders, clusters), st') /\
    Permutation (concat clusters) [5; 3; 7; 2; 9]%positive /\
    (length clusters <= 3)%nat.
Proof.
  destruct (test_optics_scanned_partitions two_peaks
              5 [5; 3; 7; 2; 9]%positive (-1) 2 0 2 true 1 square_and_far)
    as (ordering & reachabilities & cluster_borders & clusters & st'
        & Hrun & _ & _ & _ & _ & Hperm & Hcount).
  - lia.
  - repeat constructor; simpl; intuition discriminate.
  - intros p Hp. in_cases Hp; reflexivity.
  - intros a b Ha Hb. in_cases Ha; in_cases Hb; reflexivity.
  - intros a Ha. in_cases Ha; vm_compute; reflexivity.
  - intros a b Ha Hb. in_cases Ha; in_cases Hb; vm_compute; reflexivity.
  - simpl. lia.
  - unfold representable. simpl. lia.
  - discriminate.
  - intros rs threshold e He. unfold two_peaks in He.
    destruct (Nat.leb_spec 5 (length rs)) as [Hlong|Hshort]; [|destruct He].
    in_cases He; simpl; lia.
  - exists ordering, reachabilities, cluster_borders, clusters, st'.
    split; [exact Hrun|]. split; [exact Hperm|]. apply Hcount; [reflexivity|lia].
Defined.

(** X24.  With [eps] at the largest [float], which is what the harness
    passes for a negative [eps], the radius is no limit: every point of [db]
    (of the dimensionality of [p], at a squared distance below UNDEFINED) is
    a neighbour of [p]. *)
Theorem get_neighbors_without_limit `{FloatArithmetic} p db st :
  representable (dim (heap st) p) ->
  (forall q, In q db -> dim (heap st) q = dim (heap st) p) ->
  (forall q, In q db -> sqdist (heap st) p q < UNDEFINED) ->
  get_neighbors p FLT_MAX db st = (Ok db, st).
Proof.
  intros Hsmall Hdim Hdist.
  rewrite get_neighbors_ok; [|unfold FLT_MAX, UNDEFINED; lia|assumption..].
  rewrite filter_all; [reflexivity|].
  rewrite Forall_forall. intros q Hq. apply Z.leb_le.
  specialize (Hdist q Hq). pose proof multiply_UNDEFINED. unfold FLT_MAX. lia.
Qed.

Lemma get_neighbors_without_limit_witness :
  get_neighbors 5 FLT_MAX [5; 3; 7; 2; 9]%positive (start square_and_far)
  = (Ok [5; 3; 7; 2; 9]%positive, start square_and_far).
Proof.
  apply get_neighbors_without_limit.
  - vm_compute. reflexivity.
  - intros q Hq. in_cases Hq; reflexivity.
  - intros q Hq. in_cases Hq; vm_compute; reflexivity.
Defined.

(** ** The ways a run can end *)

Lemma ends_well_mret {A} (a : A) (Q : A -> Prop) : Q a -> ends_well (mret a) Q.
Proof. intros HQ st. exact HQ. Qed.

Lemma ends_well_bind {A B} (m : M A) (f : A -> M B) (Q : A -> Prop) (R : B -> Prop) :
  ends_well m Q -> (forall a, Q a -> ends_well (f a) R) -> ends_well (bind m f) R.
Proof.
  intros Hm Hf st. unfold bind. specialize (Hm st).
  destruct (m st) as [[a|msg| |] st1]; simpl in *; auto.
  now apply Hf.
Qed.

Lemma ends_well_weaken {A} (m : M A) (Q Q' : A -> Prop) :
  ends_well m Q -> (forall a, Q a -> Q' a) -> ends_well m Q'.
Proof.
  intros Hm HQ st. specialize (Hm st).
  destruct (fst (m st)); simpl in *; auto.
Qed.

Lemma ends_well_gets {A} (f : Heap -> A) : ends_well (gets f) (fun _ => True).
Proof. intros st. exact I. Qed.

Lemma ends_well_update p f : ends_well (update p f) (fun _ => True).
Proof. intros st. exact I. Qed.

Lemma ends_well_log e : ends_well (log e) (fun _ => True).
Proof. intros st. exact I. Qed.

Lemma ends_well_assert b msg :
  input_failure msg \/ b = true -> ends_well (assert b msg) (fun _ => True).
Proof.
  intros Hok st. unfold assert. destruct b; simpl; [exact I|].
  destruct Hok as [Hmsg|Hb]; [exact Hmsg|discriminate].
Qed.

Lemma ends_well_fuel {A} (Q : A -> Prop) : ends_well (fail (@OutOfFuel)) Q.
Proof. intros st. exact I. Qed.

Lemma ends_well_squared_distance `{FloatArithmetic} a b :
  ends_well (squared_distance a b) (fun d => 0 <= d).
Proof.
  intros st. unfold squared_distance, bind, data, gets, assert, mret. simpl.
  destruct (Nat.eqb _ _); simpl.
  - apply squared_distance_loop_lower.
  - unfold input_failure, DimensionMismatch. tauto.
Qed.

Lemma ends_well_get_neighbors_loop `{FloatArithmetic} p e db :
  forall acc, ends_well (get_neighbors_loop p e db acc) (fun _ => True).
Proof.
  induction db as [|q db IH]; intros acc; simpl.
  - now apply ends_well_mret.
  - eapply ends_well_bind; [apply ends_well_squared_distance|].
    intros d _. apply IH.
Qed.

Lemma ends_well_get_neighbors `{FloatArithmetic} p eps db :
  ends_well (get_neighbors p eps db) (fun _ => True).
Proof.
  unfold get_neighbors.
  eapply ends_well_bind;
    [apply ends_well_assert; left; unfold input_failure; tauto|].
  intros _ _. apply ends_well_get_neighbors_loop.
Qed.

Lemma ends_well_comparator_assertions `{FloatArithmetic} p v :
  ends_well (comparator_assertions p v) (fun _ => True).
Proof.
  induction v as [|a v IH]; simpl.
  - now apply ends_well_mret.
  - eapply ends_well_bind; [apply ends_well_squared_distance|].
    intros d _. apply IH.
Qed.

(** The read of [N_eps\[min_pts\]] after [nth_element] is inside the vector. *)
Lemma ends_well_squared_core_distance `{FloatArithmetic} `{StdAlgorithm} p min_pts N_eps :
  ends_well (squared_core_distance p min_pts N_eps) (fun _ => True).
Proof.
  unfold squared_core_distance.
  eapply ends_well_bind;
    [apply ends_well_assert; left; unfold input_failure; tauto|].
  intros _ _.
  destruct (Nat.ltb_spec min_pts (length N_eps)) as [Hmany|Hfew];
    [|now apply ends_well_mret].
  eapply ends_well_bind; [apply ends_well_comparator_assertions|]. intros _ _.
  eapply ends_well_bind; [apply ends_well_gets|]. intros h _.
  destruct (nth_element_spec (fun a b => sqdist h p a <? sqdist h p b)
              min_pts N_eps (strict_weak_order_key _) Hmany)
    as (before & pivot & after & Hnth & Hlen & _).
  cbv zeta. rewrite Hnth. unfold at_index.
  rewrite nth_error_app2, Hlen, Nat.sub_diag by lia. simpl.
  eapply (ends_well_bind _ _ (fun _ => True)); [now apply ends_well_mret|].
  intros x _.
  eapply ends_well_bind; [apply ends_well_squared_distance|]. intros ret _.
  now apply ends_well_mret.
Qed.

Lemma ends_well_Comp lhs rhs :
  ends_well (Comp_DataPoint_Ptr_f lhs rhs) (fun _ => True).
Proof.
  unfold Comp_DataPoint_Ptr_f.
  eapply ends_well_bind; [apply ends_well_gets|]. intros l_data _.
  eapply ends_well_bind; [apply ends_well_gets|]. intros r_data _.
  eapply ends_well_bind;
    [apply ends_well_assert; left; unfold input_failure; tauto|].
  intros _ _.
  eapply ends_well_bind; [apply ends_well_gets|]. intros l _.
  eapply ends_well_bind; [apply ends_well_gets|]. intros r _.
  destruct (l <? r); [now apply ends_well_mret|].
  destruct (_ && _); now apply ends_well_mret.
Qed.

Lemma ends_well_set_insert x s : ends_well (set_insert x s) (fun _ => True).
Proof.
  induction s as [|y s IH]; simpl; [now apply ends_well_mret|].
  eapply ends_well_bind; [apply ends_well_Comp|]. intros lt _.
  destruct lt; [now apply ends_well_mret|].
  eapply ends_well_bind; [apply ends_well_Comp|]. intros gt _.
  destruct gt; [|now apply ends_well_mret].
  eapply ends_well_bind; [apply IH|]. intros r _. now apply ends_well_mret.
Qed.

Lemma ends_well_set_erase x s : ends_well (set_erase x s) (fun _ => True).
Proof.
  induction s as [|y s IH]; simpl; [now apply ends_well_mret|].
  eapply ends_well_bind; [apply ends_well_Comp|]. intros lt _.
  destruct lt; [now apply ends_well_mret|].
  eapply ends_well_bind; [apply ends_well_Comp|]. intros gt _.
  destruct gt; [|now apply ends_well_mret].
  eapply ends_well_bind; [apply IH|]. intros r _. now apply ends_well_mret.
Qed.

(** The setter is called with a distance that is not negative. *)
Lemma ends_well_set_reachability_distance p d :
  0 <= d -> ends_well (set_reachability_distance p d) (fun _ => True).
Proof.
  intros Hd. unfold set_reachability_distance.
  eapply ends_well_bind.
  { apply ends_well_assert. right. now apply Z.leb_le. }
  intros _ _.
  eapply ends_well_bind; [apply ends_well_gets|]. intros old _.
  eapply ends_well_bind; [apply ends_well_gets|]. intros was _.
  eapply ends_well_bind; [apply ends_well_update|]. intros _ _.
  apply ends_well_log.
Qed.

Lemma ends_well_processed p b : ends_well (processed p b) (fun _ => True).
Proof.
  unfold processed.
  eapply ends_well_bind; [apply ends_well_update|]. intros _ _.
  apply ends_well_log.
Qed.

Lemma ends_well_push_back_first v p : ends_well (push_back_first v p) (fun _ => True).
Proof.
  unfold push_back_first.
  eapply ends_well_bind; [apply ends_well_gets|]. intros r _.
  eapply ends_well_bind; [apply ends_well_log|]. intros _ _.
  now apply ends_well_mret.
Qed.

Lemma ends_well_push_back_seed v q : ends_well (push_back_seed v q) (fun _ => True).
Proof.
  unfold push_back_seed.
  eapply ends_well_bind; [apply ends_well_gets|]. intros r _.
  eapply ends_well_bind; [apply ends_well_log|]. intros _ _.
  now apply ends_well_mret.
Qed.

Lemma ends_well_update_seeds_loop `{FloatArithmetic} N_eps center c_dist :
  forall seeds, ends_well (update_seeds_loop N_eps center c_dist seeds) (fun _ => True).
Proof.
  induction N_eps as [|o rest IH]; intros seeds; simpl;
    [now apply ends_well_mret|].
  eapply ends_well_bind; [apply ends_well_gets|]. intros done _.
  destruct done; [apply IH|].
  eapply ends_well_bind; [apply ends_well_squared_distance|]. intros d Hd.
  eapply ends_well_bind; [apply ends_well_gets|]. intros r _.
  assert (Hnew : 0 <= Z.max c_dist d) by (cbv beta in Hd; lia).
  destruct (r =? UNDEFINED).
  - eapply ends_well_bind; [now apply ends_well_set_reachability_distance|].
    intros _ _.
    eapply ends_well_bind; [apply ends_well_set_insert|]. intros s1 _. apply IH.
  - destruct (_ <? r); [|apply IH].
    eapply ends_well_bind; [apply ends_well_set_erase|]. intros s1 _.
    eapply ends_well_bind; [now apply ends_well_set_reachability_distance|].
    intros _ _.
    eapply ends_well_bind; [apply ends_well_set_insert|]. intros s2 _. apply IH.
Qed.

(** [update_seeds] is entered with a core distance that is not UNDEFINED. *)
Lemma ends_well_update_seeds `{FloatArithmetic} N_eps center c_dist seeds :
  c_dist <> UNDEFINED ->
  ends_well (update_seeds N_eps center c_dist seeds) (fun _ => True).
Proof.
  intros Hc. unfold update_seeds.
  eapply ends_well_bind.
  { apply ends_well_assert. right.
    destruct (Z.eqb_spec c_dist UNDEFINED); [contradiction|reflexivity]. }
  intros _ _. apply ends_well_update_seeds_loop.
Qed.

Section Outcomes.
Context `{FloatArithmetic} `{StdAlgorithm}.

Lemma ends_well_expand_loop db eps min_pts :
  forall fuel seeds v,
    ends_well (expand_loop fuel db eps min_pts seeds v) (fun _ => True).
Proof.
  induction fuel as [|fuel IH]; intros seeds v;
    destruct seeds as [|q seeds]; cbn [expand_loop];
    try (now apply ends_well_mret); [apply ends_well_fuel|].
  eapply ends_well_bind; [apply ends_well_get_neighbors|]. intros N_q _.
  eapply ends_well_bind; [apply ends_well_squared_core_distance|].
  intros [core_dist_q N_q'] _.
  eapply ends_well_bind; [apply ends_well_processed|]. intros _ _.
  eapply ends_well_bind; [apply ends_well_push_back_seed|]. intros v' _.
  eapply (ends_well_bind _ _ (fun _ => True)); [|intros s _; apply IH].
  destruct (Z.eqb_spec core_dist_q UNDEFINED); cbn [negb];
    [now apply ends_well_mret|now apply ends_well_update_seeds].
Qed.

Lemma ends_well_expand_cluster_order fuel db p eps min_pts v :
  ends_well (expand_cluster_order fuel db p eps min_pts v) (fun _ => True).
Proof.
  unfold expand_cluster_order.
  eapply ends_well_bind;
    [apply ends_well_assert; left; unfold input_failure; tauto|]. intros _ _.
  eapply ends_well_bind;
    [apply ends_well_assert; left; unfold input_failure; tauto|]. intros _ _.
  eapply ends_well_bind; [apply ends_well_get_neighbors|]. intros N_eps _.
  eapply ends_well_bind.
  { apply ends_well_set_reachability_distance. unfold UNDEFINED. lia. }
  intros _ _.
  eapply ends_well_bind; [apply ends_well_squared_core_distance|].
  intros [core_dist_p N_eps'] _.
  eapply ends_well_bind; [apply ends_well_processed|]. intros _ _.
  eapply ends_well_bind; [apply ends_well_push_back_first|]. intros v' _.
  destruct (Z.eqb_spec core_dist_p UNDEFINED); [now apply ends_well_mret|].
  eapply ends_well_bind; [now apply ends_well_update_seeds|].
  intros s _. apply ends_well_expand_loop.
Qed.

Lemma ends_well_optics_loop fuel db eps min_pts :
  forall it v, ends_well (optics_loop fuel db it eps min_pts v) (fun _ => True).
Proof.
  induction it as [|p it IH]; intros v; simpl; [now apply ends_well_mret|].
  eapply ends_well_bind; [apply ends_well_gets|]. intros done _.
  destruct done; [apply IH|].
  eapply ends_well_bind; [apply ends_well_expand_cluster_order|].
  intros v' _. apply IH.
Qed.

Lemma ends_well_optics fuel db eps min_pts :
  ends_well (optics fuel db eps min_pts) (fun _ => True).
Proof.
  unfold optics.
  eapply ends_well_bind;
    [apply ends_well_assert; left; unfold input_failure; tauto|]. intros _ _.
  eapply ends_well_bind;
    [apply ends_well_assert; left; unfold input_failure; tauto|]. intros _ _.
  apply ends_well_optics_loop.
Qed.

End Outcomes.

(** X25.  The ways a run of [optics] can end, on every input and in both
    versions: with an ordering; with the failure of a parameter check or of
    a dimensionality check (of [squared_distance] or of the comparison
    functor); or, in the model, at the end of the fuel.  So no run reads a
    vector past its end (the read of [N_eps\[min_pts\]] is inside the
    vector), the setter is never called with a negative distance, and
    [update_seeds] is never entered with the core distance UNDEFINED. *)
Theorem optics_ends_well `{FloatArithmetic} `{StdAlgorithm} fuel db eps min_pts h :
  acceptable (fun _ => True) (fst (run (optics fuel db eps min_pts) h)) /\
  acceptable (fun _ => True)
    (fst (run (optics_cb recording_callback fuel db eps min_pts) h)) /\
  fst (run (optics fuel db eps min_pts) h) <> OutOfRange /\
  fst (run (optics fuel db eps min_pts) h)
    <> AssertionFailed "Reachability distance must not be negative." /\
  fst (run (optics fuel db eps min_pts) h)
    <> AssertionFailed
         "the core distance must be set <> UNDEFINED when entering update_seeds".
Proof.
  pose proof (ends_well_optics fuel db eps min_pts (start h)) as Hok.
  pose proof (sim_optics fuel db eps min_pts (start h)) as Hsim.
  change (erase (start h)) with (start h) in Hsim.
  unfold run. split; [exact Hok|]. split.
  - rewrite Hsim in Hok. exact Hok.
  - destruct (fst (optics fuel db eps min_pts (start h))) as [v|msg| |];
      simpl in Hok; repeat split; try discriminate; try contradiction;
      intros Hmsg; injection Hmsg as ->;
      unfold input_failure, DimensionMismatch in Hok;
      intuition discriminate.
Qed.

(** ** The scan of the test set *)

Lemma placed_ext objects :
  forall h h', (forall a, h a = h' a) ->
               forall a, placed h objects a = placed h' objects a.
Proof.
  induction objects as [|[b o] rest IH]; intros h h' Hext a; simpl; [apply Hext|].
  apply IH. intros x. unfold upd. destruct (Pos.eqb x b); [reflexivity|apply Hext].
Qed.

Lemma placed_app l1 :
  forall h l2, placed h (l1 ++ l2) = placed (placed h l1) l2.
Proof. induction l1 as [|[b o] rest IH]; intros h l2; simpl; [reflexivity|apply IH]. Qed.

Lemma placed_other objects :
  forall h a, ~ In a (map fst objects) -> placed h objects a = h a.
Proof.
  induction objects as [|[b o] rest IH]; intros h a Ha; simpl in *; [reflexivity|].
  rewrite IH by tauto. apply upd_other. intros ->. tauto.
Qed.

Lemma placed_lookup objects :
  forall h a o, NoDup (map fst objects) -> In (a, o) objects -> placed h objects a = o.
Proof.
  induction objects as [|[b o'] rest IH]; intros h a o Hnd Hin; simpl in *; [contradiction|].
  apply NoDup_cons_iff in Hnd. destruct Hnd as [Hb Hnd].
  destruct Hin as [Heq|Hin].
  - injection Heq as -> ->. rewrite placed_other by assumption. apply upd_same.
  - now apply IH.
Qed.

Lemma scanned_points_app `{FloatArithmetic} allocated l1 :
  forall n l2,
    scanned_points allocated n (l1 ++ l2)
    = scanned_points allocated n l1
        ++ scanned_points allocated (n + length l1) l2.
Proof.
  induction l1 as [|rc l1 IH]; intros n l2; simpl.
  - now rewrite Nat.add_0_r.
  - rewrite IH. do 3 f_equal. lia.
Qed.

Lemma scanned_points_addresses `{FloatArithmetic} allocated pixels :
  forall n, map fst (scanned_points allocated n pixels)
            = map allocated (seq n (length pixels)).
Proof.
  induction pixels as [|rc rest IH]; intros n; simpl; [reflexivity|].
  now rewrite IH.
Qed.

Lemma scanned_points_objects `{FloatArithmetic} allocated pixels :
  forall n, map snd (scanned_points allocated n pixels) = map pixel_point pixels.
Proof.
  induction pixels as [|rc rest IH]; intros n; simpl; [reflexivity|].
  now rewrite IH.
Qed.

Lemma scan_row_spec `{FloatArithmetic} allocated :
  forall row r c n db st,
    exists st',
      scan_row allocated row r c n db st
      = (Ok ((n + length (bright_in_row row r c))%nat,
             db ++ map fst (scanned_points allocated n (bright_in_row row r c))),
         st') /\
      trace st' = trace st /\
      forall a, heap st' a
                = placed (heap st) (scanned_points allocated n (bright_in_row row r c)) a.
Proof.
  induction row as [|px row IH]; intros r c n db st; simpl.
  - exists st. rewrite Nat.add_0_r, app_nil_r. auto.
  - destruct (128 <? channel0 px).
    + erewrite bind_run by reflexivity.
      erewrite bind_run by reflexivity.
      erewrite bind_run by reflexivity.
      match goal with |- context [scan_row _ _ _ _ _ _ ?s] => set (st1 := s) end.
      destruct (IH r (c + 1) (S n) (db ++ [allocated n]) st1)
        as (st' & Hrun & Htrace & Hheap).
      exists st'. rewrite Hrun. split; [|split; [exact Htrace|]].
      * simpl. rewrite <- app_assoc. do 2 f_equal. f_equal. lia.
      * intros a. rewrite Hheap. simpl. apply placed_ext.
        intros x. unfold st1. cbn [heap]. unfold upd.
        destruct (Pos.eqb x (allocated n)); reflexivity.
    + apply IH.
Qed.

Lemma scan_rows_spec `{FloatArithmetic} allocated :
  forall testset r n db st,
    exists st',
      scan_rows allocated testset r n db st
      = (Ok ((n + length (bright_pixels testset r))%nat,
             db ++ map fst (scanned_points allocated n (bright_pixels testset r))),
         st') /\
      trace st' = trace st /\
      forall a, heap st' a
                = placed (heap st) (scanned_points allocated n (bright_pixels testset r)) a.
Proof.
  induction testset as [|row testset IH]; intros r n db st; simpl.
  - exists st. rewrite Nat.add_0_r, app_nil_r. auto.
  - destruct (scan_row_spec allocated row r 0 n db st) as (st1 & Hrun1 & Ht1 & Hh1).
    erewrite bind_run by exact Hrun1. cbn [fst snd].
    destruct (IH (r + 1) (n + length (bright_in_row row r 0))%nat
                (db ++ map fst (scanned_points allocated n (bright_in_row row r 0))) st1)
      as (st' & Hrun & Ht & Hh).
    exists st'. rewrite Hrun. split; [|split; [congruence|]].
    + rewrite scanned_points_app, map_app, length_app, <- app_assoc.
      do 2 f_equal. f_equal. lia.
    + intros a. rewrite Hh, scanned_points_app, placed_app.
      now apply placed_ext.
Qed.

Lemma NoDup_allocated allocated n k :
  fresh_addresses allocated -> NoDup (map allocated (seq n k)).
Proof.
  intros Hfresh. revert n. induction k as [|k IH]; intros n; simpl; constructor.
  - intros Hin. apply in_map_iff in Hin. destruct Hin as (i & Heq & Hi).
    apply Hfresh in Heq. apply in_seq in Hi. lia.
  - apply IH.
Qed.

(** What the scan returns and leaves behind. *)
Lemma scan_testset_run `{FloatArithmetic} allocated testset h :
  fresh_addresses allocated ->
  exists db st',
    run (scan_testset allocated testset) h = (Ok db, st') /\
    trace st' = [] /\
    NoDup db /\
    map (heap st') db = map pixel_point (bright_pixels testset 0) /\
    (forall a, ~ In a db -> heap st' a = h a).
Proof.
  intros Hfresh. unfold run, scan_testset.
  destruct (scan_rows_spec allocated testset 0 0%nat [] (start h))
    as (st' & Hrun & Htrace & Hheap).
  erewrite bind_run by exact Hrun. cbn [snd app].
  set (objects := scanned_points allocated 0 (bright_pixels testset 0)) in *.
  assert (Hnd : NoDup (map fst objects)).
  { unfold objects. rewrite scanned_points_addresses. now apply NoDup_allocated. }
  exists (map fst objects), st'. split; [reflexivity|]. split; [exact Htrace|].
  split; [exact Hnd|]. split.
  - rewrite <- (scanned_points_objects allocated (bright_pixels testset 0) 0%nat).
    fold objects. rewrite map_map. apply map_ext_in.
    intros [a o] Hin. rewrite Hheap. simpl. now apply placed_lookup.
  - intros a Ha. rewrite Hheap. now apply placed_other.
Qed.

(** X26.  On an image with [int] sizes, [scan_testset] returns one point
    for every pixel whose first channel exceeds 128, in the order of the rows and, inside a row, of the
    columns.  The points are distinct objects (the allocator hands out no
    address twice), each default-constructed (unprocessed, at UNDEFINED)
    with the row and the column of its pixel, converted to [float], as its
    two coordinates; no other object is touched and no mutator of optics.hpp
    is called. *)
Theorem scan_testset_points `{FloatArithmetic} allocated testset h :
  fresh_addresses allocated ->
  int_sized testset ->
  exists db st',
    run (scan_testset allocated testset) h = (Ok db, st') /\
    history st' = [] /\
    NoDup db /\
    length db = length (bright_pixels testset 0) /\
    map (heap st') db
    = map (fun rc => mkDataPoint [float_of_int (fst rc); float_of_int (snd rc)]
                       UNDEFINED false)
        (bright_pixels testset 0) /\
    (forall a, ~ In a db -> heap st' a = h a).
Proof.
  intros Hfresh _.
  destruct (scan_testset_run allocated testset h Hfresh)
    as (db & st' & Hrun & Htrace & Hnd & Hmap & Hout).
  exists db, st'. split; [exact Hrun|]. unfold history. rewrite Htrace.
  split; [reflexivity|]. split; [exact Hnd|]. split; [|split; [exact Hmap|exact Hout]].
  rewrite <- (length_map (heap st') db), Hmap. apply length_map.
Qed.

Lemma scan_testset_points_witness :
  exists st',
    run (scan_testset Pos.of_succ_nat small_image) two_points
      = (Ok [1; 2]%positive, st') /\
    heap st' 2%positive = mkDataPoint [1; 1] UNDEFINED false.
Proof.
  destruct (scan_testset_points Pos.of_succ_nat small_image two_points)
    as (db & st' & Hrun & _ & _ & _ & Hmap & _).
  - intros i j. apply SuccNat2Pos.inj.
  - split; [simpl; lia|]. intros row Hrow. in_cases Hrow; simpl; lia.
  - assert (db = [1; 2]%positive) as ->.
    { vm_compute in Hrun. now injection Hrun as <- _. }
    exists st'. split; [exact Hrun|].
    simpl in Hmap. now injection Hmap as _ ->.
Defined.

(** X27.  [test_optics] on an image, from the scan to the clusters.  For
    every image with [int] sizes and at least one pixel whose first channel
    exceeds 128, every allocator that hands out no address twice, every
    [eps], [min_pts >= 1], enough fuel and a persistence library that
    returns indices into the vector it is given (the number of bright
    pixels being one that [unsigned int] can hold, and the squared distances
    computed between their points being below UNDEFINED): the run gets as
    far as the clusters, and the buckets hold, all together, exactly one
    point for every pixel of the image whose first channel exceeds 128,
    with the row and the column of the pixel, converted to [float], as
    coordinates.  There is one bucket more than borders plus
    the outlier bucket, and at most [n_clusters] cluster buckets in the
    mode that asks for [n_clusters] clusters. *)
Theorem test_optics_clusters_the_bright_pixels `{FloatArithmetic} `{StdAlgorithm}
  allocated paired_extrema fuel testset eps min_pts persistence n_clusters
  use_n_clusters outlier_threshold h :
  fresh_addresses allocated ->
  int_sized testset ->
  (1 <= min_pts)%nat ->
  (length (bright_pixels testset 0) <= fuel)%nat ->
  representable (length (bright_pixels testset 0)) ->
  (forall rca rcb,
     In rca (bright_pixels testset 0) -> In rcb (bright_pixels testset 0) ->
     squared_distance_loop (_data (pixel_point rca)) (_data (pixel_point rcb)) 0
     < UNDEFINED) ->
  bright_pixels testset 0 <> [] ->
  (forall rs threshold e,
     In e (paired_extrema rs threshold) ->
     0 <= MaxIndex e < Z.of_nat (length rs)) ->
  exists ordering reachabilities cluster_borders clusters st',
    run (test_optics allocated paired_extrema fuel testset eps min_pts persistence
           n_clusters use_n_clusters outlier_threshold) h
    = (Ok (ordering, reachabilities, cluster_borders, clusters), st') /\
    Permutation (map (fun p => _data (heap st' p)) (concat clusters))
      (map (fun rc => [float_of_int (fst rc); float_of_int (snd rc)])
         (bright_pixels testset 0)) /\
    length clusters = (length cluster_borders + 2)%nat /\
    (use_n_clusters = true -> (1 <= n_clusters)%nat ->
     (length clusters <= n_clusters + 1)%nat).
Proof.
  intros Hfresh [Hrows Hcols] Hmin Hfuel Hsize Hdist Hne Hlib.
  destruct (scan_testset_run allocated testset h Hfresh)
    as (db & st1 & Hrun1 & Htrace & Hnd & Hmap & _).
  unfold run, test_optics in *. erewrite bind_run by exact Hrun1.
  destruct st1 as [h1 t1]. cbn [trace heap] in *. subst t1.
  change (mkState h1 []) with (start h1).
  assert (Hlen : length db = length (bright_pixels testset 0)).
  { rewrite <- (length_map h1 db), Hmap. apply length_map. }
  assert (Hpix : forall p, In p db ->
            exists rc, h1 p = pixel_point rc /\ In rc (bright_pixels testset 0)).
  { intros p Hp. apply (in_map h1) in Hp. rewrite Hmap in Hp.
    apply in_map_iff in Hp. destruct Hp as (rc & Hrc & Hin).
    exists rc. split; [now symmetry|assumption]. }
  destruct (test_optics_scanned_run paired_extrema fuel db eps min_pts persistence
              n_clusters use_n_clusters outlier_threshold h1)
    as (ordering & reachabilities & cluster_borders & clusters & st'
        & Hrun & Hperm & _ & _ & Hcount & Hcat & Hcap & Hdata).
  - exact Hmin.
  - exact Hnd.
  - intros p Hp. destruct (Hpix p Hp) as (rc & -> & _). reflexivity.
  - intros a b Ha Hb. unfold dim.
    destruct (Hpix a Ha) as (rca & -> & _). destruct (Hpix b Hb) as (rcb & -> & _).
    reflexivity.
  - intros a Ha. unfold dim, representable.
    destruct (Hpix a Ha) as (rca & -> & _). simpl. lia.
  - intros a b Ha Hb. unfold sqdist.
    destruct (Hpix a Ha) as (rca & -> & Hina).
    destruct (Hpix b Hb) as (rcb & -> & Hinb).
    now apply Hdist.
  - now rewrite Hlen.
  - now rewrite Hlen.
  - intros ->. destruct (bright_pixels testset 0); [contradiction|discriminate].
  - exact Hlib.
  - exists ordering, reachabilities, cluster_borders, clusters, st'.
    split; [exact Hrun|]. split; [|split; [exact Hcount|exact Hcap]].
    rewrite (Permutation_map (fun p => _data (heap st' p)) Hcat).
    erewrite map_ext by (intros p; apply Hdata).
    rewrite <- (map_map h1 _data), Hmap, map_map. reflexivity.
Qed.

Lemma test_optics_clusters_the_bright_pixels_witness :
  exists ordering reachabilities cluster_borders clusters st',
    run (test_optics Pos.of_succ_nat two_peaks 2 small_image 2 1 0 2 true 0)
      two_points
    = (Ok (ordering, reachabilities, cluster_borders, clusters), st') /\
    Permutation (map (fun p => _data (heap st' p)) (concat clusters))
      [[0; 0]; [1; 1]].
Proof.
  destruct (test_optics_clusters_the_bright_pixels Pos.of_succ_nat two_peaks 2
              small_image 2 1 0 2 true 0 two_points)
    as (ordering & reachabilities & cluster_borders & clusters & st'
        & Hrun & Hperm & _).
  - intros i j. apply SuccNat2Pos.inj.
  - split; [simpl; lia|]. intros row Hrow. in_cases Hrow; simpl; lia.
  - lia.
  - simpl. lia.
  - unfold representable. simpl. lia.
  - intros rca rcb Ha Hb. in_cases Ha; in_cases Hb; vm_compute; reflexivity.
  - discriminate.
  - intros rs threshold e He. unfold two_peaks in He.
    destruct (Nat.leb_spec 5 (length rs)) as [Hlong|Hshort]; [|destruct He].
    in_cases He; simpl; lia.
  - exists ordering, reachabilities, cluster_borders, clusters, st'.
    split; [exact Hrun|exact Hperm].
Defined.
